(** * Radical reconciliation: [build_radicals_from_vocab.py] and
      [verify_radicals.py]

    A shallow embedding of the two scripts under [tests/tools/radicals] that
    derive [radicals.csv] from the vocabulary tables and cross-check it
    against them, together with the properties of the derived table.

    Conventions of the embedding.
    - A Python [str] is the list of its Unicode code points ([list N]);
      comparison of strings is the lexicographic comparison of code points,
      as in Python.
    - A file read through [csv.DictReader] is the list of its rows, each row
      a finite map from column names to field values.  The text-level
      mechanics of the [csv] module are not modelled: what [DictWriter]
      writes, [DictReader] reads back.
    - The file system is a finite map from paths (relative to the base
      directory) to files; a path that exists may still fail to open (a
      directory, a file without permission), for reading and for writing
      alike.
    - Exceptions are values of [exn]; a function that can raise returns an
      [outcome].
    - Every field of a row is a string: a table stands for a file none of
      whose rows is shorter than its header, and a row without a key for a
      file whose header lacks the column.  Rows shorter than the header,
      for which [DictReader] yields [None], are not represented.
    - The tables [TRADITIONAL_FORMS], [VARIANT_TO_MAIN] and
      [COMMON_COMPONENTS] are globals of the builder; the functions that
      read them take them in a record [globals], and [module_globals] holds
      the values of the module. *)

From Stdlib Require Import String Ascii NArith DecimalString Sorted.
From stdpp Require Import gmap strings list fin_maps.

Local Open Scope N_scope.

(** ** Python strings *)

Abbreviation pystr := (list N).

(** Source literals are written as Rocq strings; the bytes of the literal
    are the UTF-8 encoding of the Python literal, decoded here into code
    points. *)
Fixpoint utf8_decode (bs : list N) : list N :=
  match bs with
  | [] => []
  | b0 :: bs1 =>
    if b0 <? 0x80 then b0 :: utf8_decode bs1
    else if b0 <? 0xE0 then
      match bs1 with
      | b1 :: bs2 =>
        N.lor (N.shiftl (N.land b0 0x1F) 6) (N.land b1 0x3F) :: utf8_decode bs2
      | _ => []
      end
    else if b0 <? 0xF0 then
      match bs1 with
      | b1 :: b2 :: bs3 =>
        N.lor (N.shiftl (N.land b0 0x0F) 12)
          (N.lor (N.shiftl (N.land b1 0x3F) 6) (N.land b2 0x3F))
        :: utf8_decode bs3
      | _ => []
      end
    else
      match bs1 with
      | b1 :: b2 :: b3 :: bs4 =>
        N.lor (N.shiftl (N.land b0 0x07) 18)
          (N.lor (N.shiftl (N.land b1 0x3F) 12)
             (N.lor (N.shiftl (N.land b2 0x3F) 6) (N.land b3 0x3F)))
        :: utf8_decode bs4
      | _ => []
      end
  end.

Definition py (s : string) : list N :=
  utf8_decode (N_of_ascii <$> list_ascii_of_string s).
Arguments py : simpl never.

(** [str.isspace] on one code point (the characters [str.strip()] removes). *)
Definition isspace (c : N) : bool :=
  ((0x09 <=? c) && (c <=? 0x0D)) || ((0x1C <=? c) && (c <=? 0x20))
  || (c =? 0x85) || (c =? 0xA0) || (c =? 0x1680)
  || ((0x2000 <=? c) && (c <=? 0x200A))
  || (c =? 0x2028) || (c =? 0x2029) || (c =? 0x202F) || (c =? 0x205F)
  || (c =? 0x3000).

Fixpoint lstrip (s : list N) : list N :=
  match s with
  | c :: s' => if isspace c then lstrip s' else s
  | [] => []
  end.

(** [s.strip()] *)
Definition strip (s : list N) : list N :=
  reverse (lstrip (reverse (lstrip s))).

(** [s.split(sep)] for a one-character separator. *)
Fixpoint split (sep : N) (s : list N) : list (list N) :=
  match s with
  | [] => [[]]
  | c :: s' =>
    if c =? sep then [] :: split sep s'
    else match split sep s' with
         | p :: ps => (c :: p) :: ps
         | [] => [[c]]
         end
  end.

(** [sep.join(l)] *)
Fixpoint join (sep : list N) (l : list (list N)) : list N :=
  match l with
  | [] => []
  | [x] => x
  | x :: l' => x ++ sep ++ join sep l'
  end.

Fixpoint startswith (p s : list N) : bool :=
  match p, s with
  | [], _ => true
  | a :: p', b :: s' => (a =? b) && startswith p' s'
  | _ :: _, [] => false
  end.

(** [needle in hay] on strings: substring containment. *)
Fixpoint contains (needle hay : list N) : bool :=
  startswith needle hay ||
  match hay with
  | [] => false
  | _ :: hay' => contains needle hay'
  end.

(** [str(n)] for a non-negative [int]. *)
Definition str_of_int (n : N) : list N :=
  py (NilEmpty.string_of_uint (N.to_uint n)).

(** Truthiness of a string: the empty string is false. *)
Definition truthy (s : list N) : bool :=
  match s with [] => false | _ => true end.

(** String comparison [a < b] and [a <= b]: lexicographic on code points. *)
Fixpoint str_ltb (a b : list N) : bool :=
  match a, b with
  | [], [] => false
  | [], _ :: _ => true
  | _ :: _, [] => false
  | x :: a', y :: b' => (x <? y) || ((x =? y) && str_ltb a' b')
  end.

Definition str_leb (a b : list N) : bool := negb (str_ltb b a).

(** ** [sorted]

    Python's [sorted(l, key=...)] is stable: it returns the permutation of
    [l] that is ordered by key and keeps the order of [l] between elements
    of equal key.  That list is unique, so any stable sort computes it; the
    one below inserts from the right, each element before the first element
    whose key is not smaller. *)
Section Sorted.
Context {A K : Type} (leb : K → K → bool) (key : A → K).

Fixpoint insert_sorted (x : A) (l : list A) : list A :=
  match l with
  | [] => [x]
  | y :: l' =>
    if leb (key x) (key y) then x :: l else y :: insert_sorted x l'
  end.

Definition sorted (l : list A) : list A := foldr insert_sorted [] l.

End Sorted.

(** A dict display [{k1: v1, k2: v2, ...}]: later keys override earlier
    ones. *)
Definition dict_literal {V} (l : list (list N * V)) : gmap (list N) V :=
  foldl (λ m kv, <[kv.1 := kv.2]> m) ∅ l.

(** ** Exceptions *)

Inductive exn :=
| FileNotFoundError (path : list N)
| OSError (path : list N)
| KeyError (key : list N).

Inductive outcome (A : Type) :=
| Ok (a : A)
| Raise (e : exn).
Arguments Ok {A} a.
Arguments Raise {A} e.

#[global] Instance outcome_ret : MRet outcome := @Ok.
#[global] Instance outcome_bind : MBind outcome :=
  λ A B f m, match m with Ok a => f a | Raise e => Raise e end.

(** A loop whose body may raise: the first exception ends it. *)
Fixpoint for_each {A S} (body : S → A → outcome S) (s : S) (l : list A)
  : outcome S :=
  match l with
  | [] => Ok s
  | x :: l' => s' ← body s x; for_each body s' l'
  end.

(** ** Files and rows *)

(** A [csv.DictReader] row. *)
Abbreviation row := (gmap (list N) (list N)).

(** A file that exists either cannot be opened or holds a table. *)
Inductive file :=
| Unreadable
| Rows (rows : list row).

Abbreviation filesys := (gmap (list N) file).

(** [os.path.join(base_dir, p1, ..., pn)], relative to the base directory. *)
Definition os_path_join (parts : list (list N)) : list N := join (py "/") parts.

(** [os.path.exists(path)] *)
Definition os_path_exists (fs : filesys) (path : list N) : bool :=
  bool_decide (is_Some (fs !! path)).

(** [list(csv.DictReader(open(path)))] *)
Definition read_csv (fs : filesys) (path : list N) : outcome (list row) :=
  match fs !! path with
  | None => Raise (FileNotFoundError path)
  | Some Unreadable => Raise (OSError path)
  | Some (Rows rows) => Ok rows
  end.

(** [row[key]] *)
Definition getitem (r : row) (key : list N) : outcome (list N) :=
  match r !! key with
  | Some v => Ok v
  | None => Raise (KeyError key)
  end.

(** [row.get(key, dflt)] *)
Definition get (r : row) (key dflt : list N) : list N := default dflt (r !! key).

Definition TRADITIONAL_FORMS : gmap (list N) (list N * list N) :=
  dict_literal [
   (py "讠", (py "言", py "speech radical"));
   (py "钅", (py "金", py "metal radical"));
   (py "饣", (py "食", py "food radical"));
   (py "纟", (py "糸", py "silk radical"));
   (py "车", (py "車", py "cart/vehicle"));
   (py "贝", (py "貝", py "shell/money"));
   (py "见", (py "見", py "see"));
   (py "门", (py "門", py "gate/door"));
   (py "马", (py "馬", py "horse"));
   (py "鱼", (py "魚", py "fish"));
   (py "鸟", (py "鳥", py "bird"));
   (py "齿", (py "齒", py "tooth"));
   (py "龙", (py "龍", py "dragon"));
   (py "龟", (py "龜", py "turtle"));
   (py "页", (py "頁", py "page/leaf"));
   (py "风", (py "風", py "wind"));
   (py "飞", (py "飛", py "fly"));
   (py "长", (py "長", py "long"));
   (py "韦", (py "韋", py "tanned leather"));
   (py "麦", (py "麥", py "wheat"));
   (py "黄", (py "黃", py "yellow"));
   (py "齐", (py "齊", py "even/neat"));
   (py "辶", (py "辵", py "walk/move"))
  ].

Definition VARIANT_TO_MAIN : gmap (list N) (list N) :=
  dict_literal [
   (py "亻", py "人");
   (py "刂", py "刀");
   (py "氵", py "水");
   (py "灬", py "火");
   (py "扌", py "手");
   (py "忄", py "心");
   (py "犭", py "犬");
   (py "礻", py "示");
   (py "衤", py "衣");
   (py "纟", py "糸");
   (py "钅", py "金");
   (py "饣", py "食");
   (py "讠", py "言");
   (py "阝", py "阜");
   (py "罒", py "网");
   (py "⺮", py "竹");
   (py "⺶", py "羊");
   (py "⺼", py "月");
   (py "爫", py "爪");
   (py "⻊", py "足")
  ].

Definition COMMON_COMPONENTS : gmap (list N) (list N * list N) :=
  dict_literal [
   (py "乀", (py "fú", py "left-falling stroke"));
   (py "乂", (py "yì", py "to mow; to cut"));
   (py "乍", (py "zhà", py "suddenly; at first"));
   (py "乎", (py "hū", py "question particle"));
   (py "乚", (py "yǐ", py "hidden; second"));
   (py "乞", (py "qǐ", py "to beg"));
   (py "乡", (py "xiāng", py "village; countryside"));
   (py "也", (py "yě", py "also; too"));
   (py "了", (py "le", py "completed action marker"));
   (py "于", (py "yú", py "at; in; to"));
   (py "为", (py "wèi", py "for; to be"));
   (py "上", (py "shàng", py "up; above"));
   (py "下", (py "xià", py "down; below"));
   (py "不", (py "bù", py "not; no"));
   (py "丁", (py "dīng", py "male adult; nail"));
   (py "三", (py "sān", py "three"));
   (py "东", (py "dōng", py "east"));
   (py "中", (py "zhōng", py "middle; center"));
   (py "交", (py "jiāo", py "to hand over; to intersect"));
   (py "亥", (py "hài", py "12th earthly branch"));
   (py "今", (py "jīn", py "now; today"));
   (py "从", (py "cóng", py "from; to follow"));
   (py "仑", (py "lún", py "logical; arrange"));
   (py "以", (py "yǐ", py "by means of; because"));
   (py "任", (py "rèn", py "to appoint; responsibility"));
   (py "何", (py "hé", py "what; which"));
   (py "作", (py "zuò", py "to do; to make"));
   (py "候", (py "hòu", py "to wait; time"));
   (py "倠", (py "suī", py "name component"));
   (py "兄", (py "xiōng", py "elder brother"));
   (py "兑", (py "duì", py "to exchange"));
   (py "全", (py "quán", py "whole; complete"));
   (py "共", (py "gòng", py "together; common"));
   (py "其", (py "qí", py "his; her; its"));
   (py "刃", (py "rèn", py "blade; edge"));
   (py "分", (py "fēn", py "to divide; minute"));
   (py "前", (py "qián", py "front; before"));
   (py "勺", (py "sháo", py "spoon; ladle"));
   (py "午", (py "wǔ", py "noon"));
   (py "原", (py "yuán", py "origin; source"));
   (py "反", (py "fǎn", py "opposite; to return"));
   (py "取", (py "qǔ", py "to take; to fetch"));
   (py "司", (py "sī", py "to manage; department"));
   (py "后", (py "hòu", py "after; behind"));
   (py "因", (py "yīn", py "because; cause"));
   (py "在", (py "zài", py "at; in"));
   (py "壬", (py "rén", py "9th heavenly stem"));
   (py "夬", (py "guài", py "to part; to decide"));
   (py "天", (py "tiān", py "sky; day"));
   (py "头", (py "tóu", py "head"));
   (py "完", (py "wán", py "complete; finish"));
   (py "实", (py "shí", py "real; solid"));
   (py "对", (py "duì", py "correct; pair"));
   (py "导", (py "dǎo", py "to guide; to lead"));
   (py "尔", (py "ěr", py "you (archaic)"));
   (py "尼", (py "ní", py "Buddhist nun"));
   (py "尽", (py "jìn", py "to exhaust; to the utmost"));
   (py "已", (py "yǐ", py "already"));
   (py "巴", (py "bā", py "hope; tail"));
   (py "常", (py "cháng", py "often; common"));
   (py "当", (py "dāng", py "to be; act as"));
   (py "往", (py "wǎng", py "to go; towards"));
   (py "必", (py "bì", py "must; certainly"));
   (py "时", (py "shí", py "time; hour"));
   (py "是", (py "shì", py "is; to be"));
   (py "正", (py "zhèng", py "upright; correct"));
   (py "此", (py "cǐ", py "this; these"));
   (py "每", (py "měi", py "every"));
   (py "关", (py "guān", py "shut; pass"));
   (py "故", (py "gù", py "therefore; reason"));
   (py "斩", (py "zhǎn", py "to chop; to behead"));
   (py "断", (py "duàn", py "to break; to judge"));
   (py "旦", (py "dàn", py "dawn; day"));
   (py "早", (py "zǎo", py "early; morning"));
   (py "明", (py "míng", py "bright; clear"));
   (py "显", (py "xiǎn", py "to show; obvious"));
   (py "景", (py "jǐng", py "scenery; view"));
   (py "曷", (py "hé", py "why; how"));
   (py "最", (py "zuì", py "most; -est"));
   (py "有", (py "yǒu", py "to have"));
   (py "本", (py "běn", py "root; origin; book classifier"));
   (py "束", (py "shù", py "bundle; to bind"));
   (py "析", (py "xī", py "to analyze"));
   (py "果", (py "guǒ", py "fruit; result"));
   (py "标", (py "biāo", py "mark; sign"));
   (py "根", (py "gēn", py "root; basis"));
   (py "法", (py "fǎ", py "law; method"));
   (py "点", (py "diǎn", py "dot; point"));
   (py "然", (py "rán", py "correct; so"));
   (py "王", (py "wáng", py "king"));
   (py "现", (py "xiàn", py "appear; present"));
   (py "由", (py "yóu", py "from; due to"));
   (py "电", (py "diàn", py "electricity"));
   (py "相", (py "xiāng", py "mutual"));
   (py "确", (py "què", py "true; certain"));
   (py "程", (py "chéng", py "journey; procedure"));
   (py "管", (py "guǎn", py "tube; to manage"));
   (py "系", (py "xì", py "system; to tie"));
   (py "终", (py "zhōng", py "end; finally"));
   (py "经", (py "jīng", py "to pass through; scripture"));
   (py "结", (py "jié", py "to tie; result"));
   (py "脑", (py "nǎo", py "brain"));
   (py "获", (py "huò", py "to obtain"));
   (py "表", (py "biǎo", py "surface; to express"));
   (py "观", (py "guān", py "to view; concept"));
   (py "解", (py "jiě", py "to untie; to explain"));
   (py "言", (py "yán", py "speech; word"));
   (py "证", (py "zhèng", py "to prove; evidence"));
   (py "责", (py "zé", py "duty; to blame"));
   (py "通", (py "tōng", py "to pass through"));
   (py "邦", (py "bāng", py "nation; country"));
   (py "采", (py "cǎi", py "to pick; to gather"));
   (py "释", (py "shì", py "to explain; to release"));
   (py "除", (py "chú", py "to remove; except"));
   (py "随", (py "suí", py "to follow"));
   (py "须", (py "xū", py "must; beard"));
   (py "验", (py "yàn", py "to examine; to test"));
   (py "个", (py "gè", py "general classifier"));
   (py "么", (py "me", py "suffix"));
   (py "井", (py "jǐng", py "well"));
   (py "元", (py "yuán", py "currency unit; first"));
   (py "云", (py "yún", py "cloud"));
   (py "五", (py "wǔ", py "five"));
   (py "六", (py "liù", py "six"));
   (py "七", (py "qī", py "seven"));
   (py "九", (py "jiǔ", py "nine"));
   (py "办", (py "bàn", py "to do; manage"));
   (py "去", (py "qù", py "to go"));
   (py "友", (py "yǒu", py "friend"));
   (py "发", (py "fā", py "send; emit"));
   (py "只", (py "zhǐ", py "only"));
   (py "可", (py "kě", py "can; able"));
   (py "台", (py "tái", py "platform"));
   (py "合", (py "hé", py "combine; fit"));
   (py "同", (py "tóng", py "same; together"));
   (py "名", (py "míng", py "name"));
   (py "回", (py "huí", py "return"));
   (py "多", (py "duō", py "many; much"));
   (py "太", (py "tài", py "too; very"));
   (py "少", (py "shǎo", py "few; little"));
   (py "平", (py "píng", py "flat; level"));
   (py "开", (py "kāi", py "open; start"));
   (py "才", (py "cái", py "talent; just now"));
   (py "找", (py "zhǎo", py "look for"));
   (py "把", (py "bǎ", py "grasp; hold"));
   (py "来", (py "lái", py "come"));
   (py "样", (py "yàng", py "appearance; shape"));
   (py "次", (py "cì", py "time; order"));
   (py "比", (py "bǐ", py "compare"));
   (py "的", (py "de", py "possessive particle"));
   (py "真", (py "zhēn", py "real; true"));
   (py "着", (py "zhe", py "aspect marker"));
   (py "种", (py "zhǒng", py "kind; type"));
   (py "空", (py "kōng", py "empty; air"));
   (py "第", (py "dì", py "prefix for ordinal numbers"));
   (py "等", (py "děng", py "wait; class"));
   (py "给", (py "gěi", py "give"));
   (py "美", (py "měi", py "beautiful"));
   (py "老", (py "lǎo", py "old"));
   (py "而", (py "ér", py "and; but"));
   (py "能", (py "néng", py "can; be able"));
   (py "自", (py "zì", py "self"));
   (py "西", (py "xī", py "west"));
   (py "要", (py "yào", py "want; need"));
   (py "认", (py "rèn", py "recognize"));
   (py "话", (py "huà", py "word; speech"));
   (py "说", (py "shuō", py "speak; say"));
   (py "象", (py "xiàng", py "elephant; image"));
   (py "起", (py "qǐ", py "rise; start"));
   (py "车", (py "chē", py "car; vehicle"));
   (py "边", (py "biān", py "side; edge"));
   (py "过", (py "guò", py "pass; cross"));
   (py "还", (py "hái", py "still; yet"));
   (py "进", (py "jìn", py "enter"));
   (py "道", (py "dào", py "way; path"));
   (py "那", (py "nà", py "that"));
   (py "里", (py "lǐ", py "inside"));
   (py "重", (py "zhòng", py "heavy"));
   (py "间", (py "jiān", py "between; room"));
   (py "难", (py "nán", py "difficult"));
   (py "面", (py "miàn", py "face; surface"));
   (py "高", (py "gāo", py "high; tall"))
  ].

(** The module-level tables the builder reads. *)
Record globals := {
  g_TRADITIONAL_FORMS : gmap (list N) (list N * list N);
  g_VARIANT_TO_MAIN : gmap (list N) (list N);
  g_COMMON_COMPONENTS : gmap (list N) (list N * list N)
}.

Definition module_globals : globals :=
  {| g_TRADITIONAL_FORMS := TRADITIONAL_FORMS;
     g_VARIANT_TO_MAIN := VARIANT_TO_MAIN;
     g_COMMON_COMPONENTS := COMMON_COMPONENTS |}.

(** ** build_radicals_from_vocab.py *)

(** The values of the dict [load_radicals_214] returns. *)
Module R214.
Record t := mk {
  Radical : list N;
  Pinyin : list N;
  Description : list N;
  Meaning : list N;
  Set_ : list N
}.
End R214.

(** The values of [vocab_lookup]. *)
Module Vocab.
Record t := mk { Pinyin : list N; Meaning : list N }.
End Vocab.

(** The values of [radical_usage]. *)
Module Usage.
Record t := mk {
  count : N;
  levels : gset (list N);
  words : list (list N)
}.
End Usage.

(** The entries of [custom_radicals]; the key [MainRadical] is present on
    variant entries only. *)
Module Entry.
Record t := mk {
  Radical : list N;
  Pinyin : list N;
  Description : list N;
  Meaning : list N;
  Set_ : list N;
  MainRadical : option (list N);
  Levels : list N;
  UsageCount : N;
  Traditional : list N
}.
End Entry.

Definition radicals_214_path : list N :=
  os_path_join [py "data"; py "languages"; py "chinese"; py "radicals";
                py "radicals_214.csv"].

Definition radicals_path : list N :=
  os_path_join [py "data"; py "languages"; py "chinese"; py "radicals";
                py "radicals.csv"].

(** [os.path.join(vocab_dir, f'{level}.csv')] *)
Definition level_path (level : list N) : list N :=
  os_path_join [py "data"; py "languages"; py "chinese"; level ++ py ".csv"].

(** The body of the loop of [load_radicals_214]: the first occurrence of a
    glyph is kept. *)
Definition load_row (radicals : gmap (list N) R214.t) (r : row)
  : outcome (gmap (list N) R214.t) :=
  rad ← getitem r (py "Radical");
  match radicals !! rad with
  | Some _ => Ok radicals
  | None =>
    pinyin ← getitem r (py "Pinyin");
    description ← getitem r (py "Description");
    meaning ← getitem r (py "Meaning");
    Ok (<[rad := R214.mk rad pinyin description meaning (py "kangxi_214")]>
          radicals)
  end.

Definition load_radicals_214 (fs : filesys) : outcome (gmap (list N) R214.t) :=
  rows ← read_csv fs radicals_214_path;
  for_each load_row ∅ rows.

(** [defaultdict(lambda: {'count': 0, 'levels': set(), 'words': []})] *)
Definition default_usage : Usage.t := Usage.mk 0 ∅ [].

(** The three updates of [radical_usage[rad]] for one occurrence. *)
Definition use (level word : list N) (u : Usage.t) : Usage.t :=
  Usage.mk (Usage.count u + 1)
           ({[ level ]} ∪ Usage.levels u)
           (if bool_decide (length (Usage.words u) < 5)%nat
            then Usage.words u ++ [word] else Usage.words u).

(** [radical_usage] keeps its keys in insertion order; indexing a missing
    key appends the default value, then the update is applied in place. *)
Fixpoint update (rad : list N) (f : Usage.t → Usage.t)
    (d : list (list N * Usage.t)) : list (list N * Usage.t) :=
  match d with
  | [] => [(rad, f default_usage)]
  | (k, u) :: d' =>
    if decide (k = rad) then (k, f u) :: d' else (k, u) :: update rad f d'
  end.

(** [d.get(rad)] on the insertion-ordered dict. *)
Fixpoint usage_of (d : list (list N * Usage.t)) (rad : list N)
  : option Usage.t :=
  match d with
  | [] => None
  | (k, u) :: d' => if decide (k = rad) then Some u else usage_of d' rad
  end.

Definition levels : list (list N) :=
  [py "basic"; py "intermediate"; py "advanced"].

(** One piece of [radicals_str.split('+')]. *)
Definition extract_rad (level word : list N)
    (radical_usage : list (list N * Usage.t)) (rad : list N)
  : list (list N * Usage.t) :=
  let rad := strip rad in
  if truthy rad then update rad (use level word) radical_usage
  else radical_usage.

(** One row of a vocabulary file. *)
Definition extract_row (level : list N)
    (st : list (list N * Usage.t) * gmap (list N) Vocab.t) (r : row)
  : list (list N * Usage.t) * gmap (list N) Vocab.t :=
  let '(radical_usage, vocab_lookup) := st in
  let word := get r (py "Word") [] in
  let pinyin := get r (py "Pinyin") [] in
  let english := get r (py "English") [] in
  let radicals_str := get r (py "Radicals") [] in
  let vocab_lookup :=
    if truthy word && bool_decide (vocab_lookup !! word = None)
    then <[word := Vocab.mk pinyin english]> vocab_lookup
    else vocab_lookup in
  if negb (truthy radicals_str) then (radical_usage, vocab_lookup)
  else (foldl (extract_rad level word) radical_usage (split 0x2B radicals_str),
        vocab_lookup).

(** One level: a file that does not exist is skipped. *)
Definition extract_level (fs : filesys)
    (st : list (list N * Usage.t) * gmap (list N) Vocab.t) (level : list N)
  : outcome (list (list N * Usage.t) * gmap (list N) Vocab.t) :=
  let filepath := level_path level in
  if negb (os_path_exists fs filepath) then Ok st
  else rows ← read_csv fs filepath; Ok (foldl (extract_row level) st rows).

Definition extract_radicals_from_vocab (fs : filesys)
  : outcome (list (list N * Usage.t) * gmap (list N) Vocab.t) :=
  for_each (extract_level fs) ([], ∅) levels.

(** [','.join(sorted(usage['levels']))] *)
Definition joined_levels (usage : Usage.t) : list N :=
  join (py ",") (sorted str_leb id (elements (Usage.levels usage))).

(** The body of the loop of [build_custom_radicals]. *)
Definition build_entry (G : globals) (radicals_214 : gmap (list N) R214.t)
    (vocab_lookup : gmap (list N) Vocab.t) (rad : list N) (usage : Usage.t)
  : Entry.t :=
  match radicals_214 !! rad with
  | Some r =>
    Entry.mk (R214.Radical r) (R214.Pinyin r) (R214.Description r)
      (R214.Meaning r) (R214.Set_ r) None
      (joined_levels usage) (Usage.count usage)
      (match g_TRADITIONAL_FORMS G !! rad with
       | Some (trad, note) => trad
       | None => rad
       end)
  | None =>
    match g_VARIANT_TO_MAIN G !! rad with
    | Some main_rad =>
      match radicals_214 !! main_rad with
      | Some base =>
        Entry.mk rad (R214.Pinyin base)
          (R214.Description base ++ py " (variant form)")
          (R214.Meaning base ++ py " (component form)")
          (py "variant") (Some main_rad)
          (joined_levels usage) (Usage.count usage) rad
      | None =>
        Entry.mk rad [] (py "variant of " ++ main_rad) (py "component form")
          (py "variant") (Some main_rad)
          (joined_levels usage) (Usage.count usage) rad
      end
    | None =>
      let '(pinyin, description, meaning) :=
        match vocab_lookup !! rad with
        | Some v =>
          (Vocab.Pinyin v, py "character component (also a word)",
           Vocab.Meaning v)
        | None =>
          match g_COMMON_COMPONENTS G !! rad with
          | Some (pinyin, meaning_text) =>
            (pinyin, py "common character component", meaning_text)
          | None =>
            ([], py "word component",
             py "character component (not official radical)")
          end
        end in
      Entry.mk rad pinyin description meaning (py "component") None
        (joined_levels usage) (Usage.count usage) rad
    end
  end.

Definition build_custom_radicals (G : globals)
    (radicals_214 : gmap (list N) R214.t)
    (radical_usage : list (list N * Usage.t))
    (vocab_lookup : gmap (list N) Vocab.t) : list Entry.t :=
  (λ '(rad, usage), build_entry G radicals_214 vocab_lookup rad usage)
    <$> radical_usage.

Definition set_order : gmap (list N) N :=
  dict_literal [(py "kangxi_214", 0); (py "variant", 1); (py "component", 2)].

(** The sort key [(set_order.get(r.get('Set', 'component'), 3), r['Radical'])];
    every entry has the key [Set]. *)
Definition sort_key (r : Entry.t) : N * list N :=
  (default 3 (set_order !! Entry.Set_ r), Entry.Radical r).

(** Comparison of the key tuples, [a <= b]. *)
Definition key_leb (a b : N * list N) : bool :=
  (a.1 <? b.1) || ((a.1 =? b.1) && str_leb a.2 b.2).

Definition sort_radicals (radicals : list Entry.t) : list Entry.t :=
  sorted key_leb sort_key radicals.

Definition fieldnames : list (list N) :=
  [py "Radical"; py "Pinyin"; py "Description"; py "Meaning"; py "Set";
   py "Traditional"; py "Levels"; py "UsageCount"; py "MainRadical"].

(** The row [csv.DictWriter] writes for an entry: a missing key is written
    as the empty string, an [int] as its decimal digits. *)
Definition row_of_entry (e : Entry.t) : row :=
  dict_literal
    [(py "Radical", Entry.Radical e); (py "Pinyin", Entry.Pinyin e);
     (py "Description", Entry.Description e); (py "Meaning", Entry.Meaning e);
     (py "Set", Entry.Set_ e); (py "Traditional", Entry.Traditional e);
     (py "Levels", Entry.Levels e);
     (py "UsageCount", str_of_int (Entry.UsageCount e));
     (py "MainRadical", default [] (Entry.MainRadical e))].

(** [open(output_path, 'w')] raises when the path exists and cannot be
    opened, and nothing is written then; otherwise the file is replaced by
    the header and one row per entry. *)
Definition write_radicals_csv (radicals : list Entry.t) (output_path : list N)
    (fs : filesys) : outcome () * filesys :=
  match fs !! output_path with
  | Some Unreadable => (Raise (OSError output_path), fs)
  | _ => (Ok (), <[output_path := Rows (row_of_entry <$> radicals)]> fs)
  end.

(** [main] of the builder: the outcome and the file system it leaves. *)
Definition main (G : globals) (fs : filesys) : outcome () * filesys :=
  match radicals_214 ← load_radicals_214 fs;
        extracted ← extract_radicals_from_vocab fs;
        Ok (radicals_214, extracted) with
  | Raise e => (Raise e, fs)
  | Ok (radicals_214, (radical_usage, vocab_lookup)) =>
    let custom_radicals :=
      build_custom_radicals G radicals_214 radical_usage vocab_lookup in
    let sorted_radicals := sort_radicals custom_radicals in
    write_radicals_csv sorted_radicals radicals_path fs
  end.

(** ** verify_radicals.py *)

Module Verify.

(** The entries of [errors] and [warnings].  The messages are formatted
    from the values kept here. *)
Inductive error :=
| Radicals214NotFound
| OnlyUniqueRadicals (unique : nat)
| RadicalsNotFound
| MissingColumns (missing : list (list N))
| NotInRadicals (level : list N) (missing_radicals : gset (list N))
| DontListLevel (level : list N) (wrong_level_radicals : gset (list N)).

Inductive warning :=
| Not214Entries (entries : nat)
| LevelNotFound (level : list N).

Definition path_214 : list N := radicals_214_path.
Definition path_radicals : list N := radicals_path.

(** Check 1: the official table exists and has at least 213 unique
    radicals. *)
Definition check_1 (fs : filesys) (st : list error * list warning)
  : outcome (list error * list warning) :=
  let '(errors, warnings) := st in
  if negb (os_path_exists fs path_214)
  then Ok (errors ++ [Radicals214NotFound], warnings)
  else
    rows ← read_csv fs path_214;
    radicals ← mapM (λ r, getitem r (py "Radical")) rows;
    let unique := size (list_to_set radicals : gset (list N)) in
    let warnings :=
      if bool_decide (length rows ≠ 214%nat)
      then warnings ++ [Not214Entries (length rows)] else warnings in
    let errors :=
      if bool_decide (unique < 213)%nat
      then errors ++ [OnlyUniqueRadicals unique] else errors in
    Ok (errors, warnings).

Definition required_cols : list (list N) :=
  [py "Radical"; py "Pinyin"; py "Set"; py "Levels"].

(** Check 2: the derived table exists and has the required columns.  The
    counts by set and by level that follow (lines 62-75) are printed only;
    [count_level] is the count of line 74. *)
Definition check_2 (fs : filesys) (st : list error * list warning)
  : outcome (list error * list warning) :=
  let '(errors, warnings) := st in
  if negb (os_path_exists fs path_radicals)
  then Ok (errors ++ [RadicalsNotFound], warnings)
  else
    rows ← read_csv fs path_radicals;
    match rows with
    | [] => Ok (errors, warnings)
    | row0 :: _ =>
      let missing :=
        filter (λ c, row0 !! c = None) required_cols in
      match missing with
      | [] => Ok (errors, warnings)
      | _ => Ok (errors ++ [MissingColumns missing], warnings)
      end
    end.

(** [radicals_map[row['Radical']] = row] *)
Definition add_row (radicals_map : gmap (list N) row) (r : row)
  : outcome (gmap (list N) row) :=
  rad ← getitem r (py "Radical");
  Ok (<[rad := r]> radicals_map).

(** One piece of [radicals_str.split('+')] in check 3. *)
Definition check_rad (radicals_map : gmap (list N) row) (level : list N)
    (st : gset (list N) * gset (list N) * N) (rad : list N)
  : gset (list N) * gset (list N) * N :=
  let '(missing_radicals, wrong_level_radicals, total_radicals) := st in
  let rad := strip rad in
  if negb (truthy rad) then st
  else
    let total_radicals := total_radicals + 1 in
    match radicals_map !! rad with
    | None => ({[ rad ]} ∪ missing_radicals, wrong_level_radicals,
               total_radicals)
    | Some r =>
      if negb (contains level (get r (py "Levels") []))
      then (missing_radicals, {[ rad ]} ∪ wrong_level_radicals,
            total_radicals)
      else (missing_radicals, wrong_level_radicals, total_radicals)
    end.

Definition check_row (radicals_map : gmap (list N) row) (level : list N)
    (st : gset (list N) * gset (list N) * N) (r : row)
  : gset (list N) * gset (list N) * N :=
  let radicals_str := get r (py "Radicals") [] in
  if negb (truthy radicals_str) then st
  else foldl (check_rad radicals_map level) st (split 0x2B radicals_str).

(** The findings of one level file: [missing_radicals],
    [wrong_level_radicals], [total_radicals]. *)
Definition check_rows (radicals_map : gmap (list N) row) (level : list N)
    (rows : list row) : gset (list N) * gset (list N) * N :=
  foldl (check_row radicals_map level) (∅, ∅, 0) rows.

Definition check_level (fs : filesys) (radicals_map : gmap (list N) row)
    (st : list error * list warning) (level : list N)
  : outcome (list error * list warning) :=
  let '(errors, warnings) := st in
  let level_path := level_path level in
  if negb (os_path_exists fs level_path)
  then Ok (errors, warnings ++ [LevelNotFound level])
  else
    rows ← read_csv fs level_path;
    let '(missing_radicals, wrong_level_radicals, _) :=
      check_rows radicals_map level rows in
    let errors :=
      if bool_decide (missing_radicals ≠ ∅)
      then errors ++ [NotInRadicals level missing_radicals] else errors in
    let errors :=
      if bool_decide (wrong_level_radicals ≠ ∅)
      then errors ++ [DontListLevel level wrong_level_radicals]
      else errors in
    Ok (errors, warnings).

(** Check 3: every radical of every level file is in the derived table and
    lists the level. *)
Definition check_3 (fs : filesys) (st : list error * list warning)
  : outcome (list error * list warning) :=
  rows ← read_csv fs path_radicals;
  radicals_map ← for_each add_row ∅ rows;
  for_each (check_level fs radicals_map) st levels.

(** [main]: the lists [errors] and [warnings] and the value returned. *)
Definition main (fs : filesys) : outcome (list error * list warning * N) :=
  st ← check_1 fs ([], []);
  st ← check_2 fs st;
  '(errors, warnings) ← check_3 fs st;
  match errors with
  | [] => Ok (errors, warnings, 0)
  | _ => Ok (errors, warnings, 1)
  end.

End Verify.

(** ** Vocabulary seen as occurrences

    The definitions below are not part of the scripts: they name what the
    scripts traverse, so that the properties can be stated. *)

(** The decomposition a vocabulary row declares: the non-empty pieces of
    its [Radicals] column, split at [+] and stripped. *)
Definition decomposition (r : row) : list (list N) :=
  filter (λ rad, rad ≠ []) (strip <$> split 0x2B (get r (py "Radicals") [])).

(** One use of a glyph by a word of a level. *)
Record occurrence := Occ {
  occ_level : list N;
  occ_word : list N;
  occ_rad : list N
}.

Definition row_occurrences (level : list N) (r : row) : list occurrence :=
  Occ level (get r (py "Word") []) <$> decomposition r.

Definition level_occurrences (fs : filesys) (level : list N)
  : list occurrence :=
  match fs !! level_path level with
  | Some (Rows rows) => rows ≫= row_occurrences level
  | _ => []
  end.

(** Every use of a glyph in the vocabulary files, in the order in which
    [extract_radicals_from_vocab] meets them. *)
Definition occurrences (fs : filesys) : list occurrence :=
  levels ≫= level_occurrences fs.

Definition record_occurrence (d : list (list N * Usage.t)) (o : occurrence)
  : list (list N * Usage.t) :=
  update (occ_rad o) (use (occ_level o) (occ_word o)) d.

(** The occurrences of the glyph [g], in order. *)
Definition uses_of (g : list N) (occs : list occurrence) : list occurrence :=
  filter (λ o, occ_rad o = g) occs.

(** The number of times [g] occurs in the decomposition of a row, in the
    rows of a level file, and in all level files. *)
Definition decomposition_count (g : list N) (r : row) : nat :=
  length (filter (λ rad, rad = g) (decomposition r)).

Definition level_count (g : list N) (fs : filesys) (level : list N) : nat :=
  match fs !! level_path level with
  | Some (Rows rows) => sum_list (decomposition_count g <$> rows)
  | _ => 0%nat
  end.

Definition total_count (g : list N) (fs : filesys) : nat :=
  sum_list (level_count g fs <$> levels).

(** Strict comparison of the sort keys, [a < b]. *)
Definition key_ltb (a b : N * list N) : bool :=
  (a.1 <? b.1) || ((a.1 =? b.1) && str_ltb a.2 b.2).

(** The values the two loading steps return when they do not raise, and
    the table [main] then writes. *)
Definition loaded (fs : filesys) : gmap (list N) R214.t :=
  match load_radicals_214 fs with
  | Ok radicals_214 => radicals_214
  | Raise _ => ∅
  end.

Definition extracted (fs : filesys)
  : list (list N * Usage.t) * gmap (list N) Vocab.t :=
  match extract_radicals_from_vocab fs with
  | Ok st => st
  | Raise _ => ([], ∅)
  end.

Definition derived_table (G : globals) (fs : filesys) : list Entry.t :=
  sort_radicals
    (build_custom_radicals G (loaded fs) (extracted fs).1 (extracted fs).2).

(** All four columns [load_radicals_214] reads are present in the row. *)
Definition has_214_columns (r : row) : Prop :=
  is_Some (r !! py "Radical") ∧ is_Some (r !! py "Pinyin") ∧
  is_Some (r !! py "Description") ∧ is_Some (r !! py "Meaning").

(** Check 3 on one glyph of a decomposition, and the map check 3 builds
    from the derived table when nothing raises. *)
Definition check_glyph (radicals_map : gmap (list N) row) (level : list N)
    (st : gset (list N) * gset (list N) * N) (rad : list N)
  : gset (list N) * gset (list N) * N :=
  match radicals_map !! rad with
  | None => ({[ rad ]} ∪ st.1.1, st.1.2, st.2 + 1)
  | Some r =>
    if negb (contains level (get r (py "Levels") []))
    then (st.1.1, {[ rad ]} ∪ st.1.2, st.2 + 1)
    else (st.1.1, st.1.2, st.2 + 1)
  end.

Definition radicals_map_of (fs : filesys) : gmap (list N) row :=
  match rows ← read_csv fs Verify.path_radicals;
        for_each Verify.add_row ∅ rows with
  | Ok radicals_map => radicals_map
  | Raise _ => ∅
  end.

(** ** The end-to-end scenario *)

Definition scenario_globals : globals :=
  {| g_TRADITIONAL_FORMS := TRADITIONAL_FORMS;
     g_VARIANT_TO_MAIN := dict_literal [(py "氵", py "水")];
     g_COMMON_COMPONENTS := dict_literal [(py "车", (py "chē", py "vehicle"))] |}.

Definition scenario_radicals_214 : list row :=
  [dict_literal [(py "Radical", py "气"); (py "Pinyin", py "qì");
                 (py "Description", py "steam/air radical");
                 (py "Meaning", py "air")]].

Definition scenario_basic : list row :=
  [dict_literal [(py "Word", py "汽车"); (py "Radicals", py "氵+气+车")]].

Definition scenario_fs : filesys :=
  <[radicals_214_path := Rows scenario_radicals_214]>
    (<[level_path (py "basic") := Rows scenario_basic]> ∅).

(** The file system the builder leaves in the scenario. *)
Definition scenario_written : filesys := (main scenario_globals scenario_fs).2.

(** A reference table with the glyph 斗 on two rows. *)
Definition dou_radicals_214 : list row :=
  [dict_literal [(py "Radical", py "斗"); (py "Pinyin", py "dǒu");
                 (py "Description", py "dipper radical");
                 (py "Meaning", py "dipper")];
   dict_literal [(py "Radical", py "斗"); (py "Pinyin", py "dòu");
                 (py "Description", py "fight radical");
                 (py "Meaning", py "fight")]].

Definition dou_fs : filesys :=
  <[radicals_214_path := Rows dou_radicals_214]>
    (<[level_path (py "basic") :=
         Rows [dict_literal [(py "Word", py "料");
                             (py "Radicals", py "米+斗")]]]> ∅).

(** A vocabulary in which one word uses a glyph twice. *)
Definition lin_fs : filesys :=
  <[radicals_214_path := Rows []]>
    (<[level_path (py "basic") :=
         Rows [dict_literal [(py "Word", py "林");
                             (py "Radicals", py "木+木")]]]> ∅).

(** A reference table that lists a glyph of [VARIANT_TO_MAIN]. *)
Definition overlap_fs : filesys :=
  <[radicals_214_path :=
      Rows [dict_literal [(py "Radical", py "氵"); (py "Pinyin", py "shuǐ");
                          (py "Description", py "three drops of water");
                          (py "Meaning", py "water")]]]>
    (<[level_path (py "basic") :=
         Rows [dict_literal [(py "Word", py "汽车");
                             (py "Radicals", py "氵+气+车")]]]> ∅).

(** ** More names for what the scripts traverse *)

(** The rows of a level file; none when the file is absent or cannot be
    read. *)
Definition level_rows (fs : filesys) (level : list N) : list row :=
  match fs !! level_path level with
  | Some (Rows rows) => rows
  | _ => []
  end.

(** All vocabulary rows, in the order of the levels and of the files. *)
Definition vocabulary_rows (fs : filesys) : list row :=
  levels ≫= level_rows fs.

(** The update of [vocab_lookup] for one row. *)
Definition add_word (vocab_lookup : gmap (list N) Vocab.t) (r : row)
  : gmap (list N) Vocab.t :=
  let word := get r (py "Word") [] in
  if truthy word && bool_decide (vocab_lookup !! word = None)
  then <[word := Vocab.mk (get r (py "Pinyin") []) (get r (py "English") [])]>
         vocab_lookup
  else vocab_lookup.

(** The first row whose column [Word] is [w]. *)
Definition first_row_of_word (w : list N) (rows : list row) : option row :=
  head (filter (λ r, get r (py "Word") [] = w) rows).

(** The sum of the counts of a usage map. *)
Definition sum_counts (d : list (list N * Usage.t)) : nat :=
  sum_list ((λ kv, N.to_nat (Usage.count kv.2)) <$> d).

(** A vocabulary of two levels: 车 is a word of both, and 木 is used seven
    times. *)
Definition two_level_fs : filesys :=
  <[radicals_214_path :=
      Rows [dict_literal [(py "Radical", py "气"); (py "Pinyin", py "qì");
                          (py "Description", py "steam radical");
                          (py "Meaning", py "air")];
            dict_literal [(py "Radical", py "木"); (py "Pinyin", py "mù");
                          (py "Description", py "tree radical");
                          (py "Meaning", py "tree")]]]>
  (<[level_path (py "basic") :=
      Rows [dict_literal [(py "Word", py "汽车"); (py "Pinyin", py "qìchē");
                          (py "English", py "car");
                          (py "Radicals", py "氵+气+车")];
            dict_literal [(py "Word", py "车"); (py "Pinyin", py "chē");
                          (py "English", py "vehicle");
                          (py "Radicals", [])]]]>
  (<[level_path (py "intermediate") :=
      Rows [dict_literal [(py "Word", py "车"); (py "Pinyin", py "jū");
                          (py "English", py "chariot");
                          (py "Radicals", py "车")];
            dict_literal [(py "Word", py "森林"); (py "Pinyin", py "sēnlín");
                          (py "English", py "forest");
                          (py "Radicals", py "木+木+木+木+木")];
            dict_literal [(py "Word", py "林"); (py "Pinyin", py "lín");
                          (py "English", py "woods");
                          (py "Radicals", py "木+木")]]]> ∅)).

(** The map check 3 builds when it reads the rows written for [l],
    starting from [m0]. *)
Definition written_map (m0 : gmap (list N) row) (l : list Entry.t)
  : gmap (list N) row :=
  foldl (λ m e, <[Entry.Radical e := row_of_entry e]> m) m0 l.

(** ** [print_summary] and the counts of check 2

    Both only print; the embedding returns the numbers and the lines
    printed. *)

Record summary := Summary {
  s_total : nat;
  s_kangxi : nat;
  s_variants : nat;
  s_components : nat;
  (** glyph, usage count and level list of the components listed *)
  s_listed : list (list N * N * list N)
}.

Definition print_summary (radicals : list Entry.t) : summary :=
  let kangxi := filter (λ r, Entry.Set_ r = py "kangxi_214") radicals in
  let variants := filter (λ r, Entry.Set_ r = py "variant") radicals in
  let components := filter (λ r, Entry.Set_ r = py "component") radicals in
  Summary (length radicals) (length kangxi) (length variants)
    (length components)
    (match components with
     | [] => []
     | _ =>
       (λ c, (Entry.Radical c, Entry.UsageCount c, Entry.Levels c))
         <$> take 20 (sorted Z.leb (λ x, (- Z.of_N (Entry.UsageCount x))%Z)
                        components)
     end).

(** [sum(1 for r in rows if level in r.get('Levels', ''))] in check 2. *)
Definition count_level (level : list N) (rows : list row) : nat :=
  length (filter (λ r, contains level (get r (py "Levels") []) = true) rows).

(** ** find_missing_data.py *)

(** The body of the loop over the rows of [radicals.csv]. *)
Definition missing_row (missing : list row) (r : row) : outcome (list row) :=
  if negb (truthy (strip (get r (py "Pinyin") [])))
  then
    _ ← getitem r (py "Radical");
    _ ← getitem r (py "Description");
    _ ← getitem r (py "Levels");
    Ok (missing ++ [r])
  else Ok missing.

(** The script: it runs the builder, then collects the rows of the derived
    table without a reading. *)
Definition find_missing_data (G : globals) (fs : filesys)
  : outcome (list row) * filesys :=
  match main G fs with
  | (Raise e, fs') => (Raise e, fs')
  | (Ok _, fs') =>
    (rows ← read_csv fs' radicals_path; for_each missing_row [] rows, fs')
  end.

(** The glyphs used by the rows of a level file. *)
Definition level_glyphs (fs : filesys) (level : list N) : gset (list N) :=
  list_to_set (level_rows fs level ≫= decomposition).

(** ** validate_radical_data.py

    The script changes to a fixed directory and reads the same files by
    relative paths; the file system of the embedding is the tree below that
    directory.  [main] only prints; the embedding returns what it
    computes. *)

Module Validate.

(** The values of the dict [load_radicals] returns. *)
Record radical := Radical {
  r_pinyin : list N;
  r_description : list N;
  r_meaning : list N
}.

(** The dicts [load_vocabulary] returns. *)
Record word_data := WordData {
  word : list N;
  pinyin : list N;
  english : list N;
  radicals : list (list N);
  level : list N
}.

Definition load_radicals (fs : filesys) : outcome (gmap (list N) radical) :=
  rows ← read_csv fs (py "data/languages/chinese/radicals/radicals.csv");
  for_each
    (λ (radicals : gmap (list N) radical) (r : row),
       rad ← getitem r (py "Radical");
       Ok (<[rad := Radical (get r (py "Pinyin") [])
                            (get r (py "Description") [])
                            (get r (py "Meaning") [])]> radicals))
    ∅ rows.

(** [[r.strip() for r in radicals_str.split('+') if r.strip()]] *)
Definition split_radicals (radicals_str : list N) : list (list N) :=
  strip <$> filter (λ r, truthy (strip r) = true) (split 0x2B radicals_str).

Definition load_vocabulary (fs : filesys) (level : list N)
  : outcome (list word_data) :=
  read_csv fs (py "data/languages/chinese/" ++ level ++ py ".csv")
  ≫= λ rows : list row,
  Ok ((λ r : row,
         WordData (get r (py "Word") []) (get r (py "Pinyin") [])
                  (get r (py "English") [])
                  (split_radicals (get r (py "Radicals") [])) level)
        <$> rows).

(** [d[key].append(x)] on a [defaultdict(list)] *)
Definition append_to {A} `{Countable K} (d : gmap K (list A)) (key : K) (x : A)
  : gmap K (list A) :=
  <[key := default [] (d !! key) ++ [x]]> d.

(** [d[key] += 1] on a [defaultdict(int)] *)
Definition increment `{Countable K} (d : gmap K nat) (key : K) : gmap K nat :=
  <[key := S (default 0%nat (d !! key))]> d.

Record report := Report {
  n_radicals : nat;
  all_words : list word_data;
  used_radicals : gset (list N);
  missing_radicals : gmap (list N) (list (list N));
  composition_counts : gmap nat nat;
  composable_words : list word_data;
  duplicates : gmap (list N) (list (list N))
}.

(** The radical coverage check, for one radical of one word. *)
Definition cover (known : gmap (list N) radical) (w : list N)
    (st : gset (list N) * gmap (list N) (list (list N))) (rad : list N)
  : gset (list N) * gmap (list N) (list (list N)) :=
  let '(used_radicals, missing_radicals) := st in
  ({[ rad ]} ∪ used_radicals,
   if bool_decide (known !! rad = None)
   then append_to missing_radicals rad w else missing_radicals).

(** The composition statistics, for one word. *)
Definition compose (known : gmap (list N) radical)
    (st : gmap nat nat * list word_data) (wd : word_data)
  : gmap nat nat * list word_data :=
  let '(composition_counts, composable_words) := st in
  let count := length (radicals wd) in
  (increment composition_counts count,
   if bool_decide (2 ≤ count)%nat
      && forallb (λ r, bool_decide (is_Some (known !! r))) (radicals wd)
   then composable_words ++ [wd] else composable_words).

Definition main (fs : filesys) : outcome report :=
  known ← load_radicals fs;
  all_words ← for_each
                 (λ all_words level,
                    words ← load_vocabulary fs level; Ok (all_words ++ words))
                 [] [py "basic"; py "intermediate"; py "advanced"];
  let '(used_radicals, missing_radicals) :=
    foldl (λ st wd, foldl (cover known (word wd)) st (radicals wd))
      (∅, ∅) all_words in
  let '(composition_counts, composable_words) :=
    foldl (compose known) (∅, []) all_words in
  let word_counts :=
    foldl (λ d wd, append_to d (word wd) (level wd)) ∅ all_words in
  let duplicates :=
    filter (λ kv, (1 < length kv.2)%nat) word_counts in
  Ok (Report (size known) all_words used_radicals missing_radicals
        composition_counts composable_words duplicates).

End Validate.

(** A vocabulary in which the word 车 is on two rows of the same level
    file; the derived table is present and empty. *)
Definition repeated_word_fs : filesys :=
  <[radicals_path := Rows []]>
  (<[level_path (py "basic") :=
      Rows [dict_literal [(py "Word", py "车"); (py "Radicals", [])];
            dict_literal [(py "Word", py "车"); (py "Radicals", [])];
            dict_literal [(py "Word", py "林"); (py "Radicals", py "木+木")]]]>
  (<[level_path (py "intermediate") := Rows []]>
  (<[level_path (py "advanced") := Rows []]> ∅))).

(** The level files of [two_level_fs], with an empty file for the level
    advanced. *)
Definition three_level_fs : filesys :=
  <[level_path (py "advanced") := Rows []]> two_level_fs.

(** The words [load_vocabulary] returns for a level, and the pairs of a
    word and one radical of its list, in order. *)
Definition level_words (fs : filesys) (level : list N)
  : list Validate.word_data :=
  (λ r : row,
     Validate.WordData (get r (py "Word") []) (get r (py "Pinyin") [])
       (get r (py "English") []) (decomposition r) level)
    <$> level_rows fs level.

Definition word_uses (ws : list Validate.word_data)
  : list (list N * list N) :=
  ws ≫= λ wd, (λ r, (Validate.word wd, r)) <$> Validate.radicals wd.

(** * Properties *)

(** ** The string functions on small inputs *)

Example py_literal : py "qì 气" = [0x71; 0xEC; 0x20; 0x6C14].
Proof. reflexivity. Qed.

Example split_strip :
  strip <$> split 0x2B (py " 氵+ 气 ++车 ") = [py "氵"; py "气"; []; py "车"].
Proof. reflexivity. Qed.

Example split_empty : split 0x2B [] = [[]].
Proof. reflexivity. Qed.

Example decomposition_of_row :
  decomposition (dict_literal [(py "Radicals", py "木 + 木+")])
  = [py "木"; py "木"].
Proof. vm_compute. reflexivity. Qed.

Example join_levels :
  join (py ",") (sorted str_leb id [py "basic"; py "intermediate"; py "advanced"])
  = py "advanced,basic,intermediate".
Proof. vm_compute. reflexivity. Qed.

Example contains_substring :
  contains (py "basic") (py "advanced,basic") = true ∧
  contains (py "basic") (py "advanced,intermediate") = false ∧
  contains [] (py "basic") = true.
Proof. vm_compute. done. Qed.

Example str_of_int_120 : str_of_int 120 = py "120".
Proof. vm_compute. reflexivity. Qed.

(** [sorted] keeps the order of entries of equal key. *)
Example sorted_stable :
  sorted N.leb fst [(2, py "a"); (1, py "b"); (2, py "c"); (1, py "d")]
  = [(1, py "b"); (1, py "d"); (2, py "a"); (2, py "c")].
Proof. vm_compute. reflexivity. Qed.

Example update_in_place :
  (update (py "气") (use (py "basic") (py "汽车"))
     [(py "氵", default_usage); (py "气", default_usage)]).*1
  = [py "氵"; py "气"] ∧
  (update (py "车") (use (py "basic") (py "汽车"))
     [(py "氵", default_usage); (py "气", default_usage)]).*1
  = [py "氵"; py "气"; py "车"].
Proof. vm_compute. done. Qed.

(** ** Order on strings and on sort keys *)

Lemma str_ltb_irrefl a : str_ltb a a = false.
Proof.
  induction a as [|x a IH]; simpl; [done|].
  rewrite N.ltb_irrefl, N.eqb_refl, IH. done.
Qed.

Lemma str_ltb_trans a b c :
  str_ltb a b = true → str_ltb b c = true → str_ltb a c = true.
Proof.
  revert b c. induction a as [|x a IH]; intros [|y b] [|z c]; simpl; try done.
  rewrite !orb_true_iff, !andb_true_iff, !N.ltb_lt, !N.eqb_eq.
  intros [Hxy|[-> Hab]] [Hyz|[-> Hbc]].
  - left. lia.
  - left. done.
  - left. done.
  - right. split; [done|]. by eapply IH.
Qed.

Lemma str_ltb_trichotomy a b :
  str_ltb a b = true ∨ a = b ∨ str_ltb b a = true.
Proof.
  revert b. induction a as [|x a IH]; intros [|y b]; simpl; auto.
  rewrite !orb_true_iff, !andb_true_iff, !N.ltb_lt, !N.eqb_eq.
  destruct (N.lt_trichotomy x y) as [H|[->|H]]; [auto| |auto].
  destruct (IH b) as [H|[->|H]]; auto.
Qed.

Lemma str_leb_total a b : str_leb a b = true ∨ str_leb b a = true.
Proof.
  unfold str_leb. destruct (str_ltb_trichotomy a b) as [H|[->|H]].
  - left. destruct (str_ltb b a) eqn:E; [|done].
    pose proof (str_ltb_trans _ _ _ H E) as F.
    by rewrite str_ltb_irrefl in F.
  - left. by rewrite str_ltb_irrefl.
  - right. destruct (str_ltb a b) eqn:E; [|done].
    pose proof (str_ltb_trans _ _ _ H E) as F.
    by rewrite str_ltb_irrefl in F.
Qed.

Lemma str_leb_spec a b : str_leb a b = true ↔ str_ltb a b = true ∨ a = b.
Proof.
  unfold str_leb. split.
  - intros H. destruct (str_ltb_trichotomy a b) as [?|[?|F]]; auto.
    by rewrite F in H.
  - intros [H| ->]; [|by rewrite str_ltb_irrefl].
    destruct (str_ltb b a) eqn:E; [|done].
    pose proof (str_ltb_trans _ _ _ H E) as F.
    by rewrite str_ltb_irrefl in F.
Qed.

Lemma str_leb_trans a b c :
  str_leb a b = true → str_leb b c = true → str_leb a c = true.
Proof.
  rewrite !str_leb_spec. intros [H1| ->] [H2| ->]; auto.
  left. by eapply str_ltb_trans.
Qed.

Lemma str_leb_antisym a b :
  str_leb a b = true → str_leb b a = true → a = b.
Proof.
  rewrite !str_leb_spec. intros [H1| ->] [H2|H2]; auto.
  pose proof (str_ltb_trans _ _ _ H1 H2) as F.
  by rewrite str_ltb_irrefl in F.
Qed.

Lemma key_leb_spec a b : key_leb a b = true ↔ key_ltb a b = true ∨ a = b.
Proof.
  destruct a as [m s], b as [n t]. unfold key_leb, key_ltb. simpl.
  rewrite !orb_true_iff, !andb_true_iff, !N.ltb_lt, !N.eqb_eq, str_leb_spec.
  split.
  - intros [H|[-> [H| ->]]]; auto.
  - intros [[H|[-> H]]|[= -> ->]]; auto.
Qed.

Lemma key_ltb_trans a b c :
  key_ltb a b = true → key_ltb b c = true → key_ltb a c = true.
Proof.
  destruct a as [m s], b as [n t], c as [o u]. unfold key_ltb. simpl.
  rewrite !orb_true_iff, !andb_true_iff, !N.ltb_lt, !N.eqb_eq.
  intros [H1|[-> H1]] [H2|[-> H2]]; auto; [left; lia|].
  right. split; [done|]. by eapply str_ltb_trans.
Qed.

Lemma key_ltb_irrefl a : key_ltb a a = false.
Proof.
  destruct a as [m s]. unfold key_ltb. simpl.
  by rewrite N.ltb_irrefl, N.eqb_refl, str_ltb_irrefl.
Qed.

Lemma key_leb_total a b : key_leb a b = true ∨ key_leb b a = true.
Proof.
  destruct a as [m s], b as [n t]. unfold key_leb. simpl.
  rewrite !orb_true_iff, !andb_true_iff, !N.ltb_lt, !N.eqb_eq.
  destruct (N.lt_trichotomy m n) as [H|[->|H]]; auto.
  destruct (str_leb_total s t); auto.
Qed.

Lemma key_leb_trans a b c :
  key_leb a b = true → key_leb b c = true → key_leb a c = true.
Proof.
  rewrite !key_leb_spec. intros [H1| ->] [H2| ->]; auto.
  left. by eapply key_ltb_trans.
Qed.

(** ** [sorted] returns an ordered permutation *)

Section SortedFacts.
Context {A K : Type} (leb : K → K → bool) (key : A → K).
Hypothesis leb_total : ∀ a b, leb a b = true ∨ leb b a = true.
Hypothesis leb_trans : ∀ a b c, leb a b = true → leb b c = true → leb a c = true.

Lemma insert_sorted_Permutation x l : insert_sorted leb key x l ≡ₚ x :: l.
Proof.
  induction l as [|y l IH]; simpl; [done|].
  destruct (leb (key x) (key y)); [done|].
  rewrite IH. apply Permutation_swap.
Qed.

Lemma sorted_Permutation l : sorted leb key l ≡ₚ l.
Proof.
  induction l as [|x l IH]; simpl; [done|].
  by rewrite insert_sorted_Permutation, IH.
Qed.

Lemma insert_sorted_StronglySorted x l :
  StronglySorted (λ a b, leb (key a) (key b) = true) l →
  StronglySorted (λ a b, leb (key a) (key b) = true) (insert_sorted leb key x l).
Proof.
  induction 1 as [|y l Hl IH Hy]; simpl.
  - repeat constructor.
  - destruct (leb (key x) (key y)) eqn:E.
    + constructor; [by constructor|]. constructor; [done|].
      eapply Forall_impl; [exact Hy|]. intros z Hz. by eapply leb_trans.
    + constructor; [done|].
      rewrite insert_sorted_Permutation. constructor; [|done].
      destruct (leb_total (key x) (key y)); congruence.
Qed.

Lemma sorted_StronglySorted l :
  StronglySorted (λ a b, leb (key a) (key b) = true) (sorted leb key l).
Proof.
  induction l as [|x l IH]; simpl; [constructor|].
  by apply insert_sorted_StronglySorted.
Qed.

End SortedFacts.

Lemma StronglySorted_lookup {A} (R : A → A → Prop) l i j x y :
  StronglySorted R l → (i < j)%nat → l !! i = Some x → l !! j = Some y → R x y.
Proof.
  intros Hl. revert i j. induction Hl as [|z l Hl IH Hz]; intros i j Hij Hi Hj.
  - done.
  - destruct j as [|j]; [lia|]. simpl in Hj. destruct i as [|i].
    + simpl in Hi. injection Hi as ->.
      rewrite Forall_forall in Hz. apply Hz. by eapply list_elem_of_lookup_2.
    + simpl in Hi. apply (IH i j); [lia|done|done].
Qed.

(** ** The insertion-ordered dictionary [radical_usage] *)

Lemma usage_of_update_eq rad f d :
  usage_of (update rad f d) rad
  = Some (f (default default_usage (usage_of d rad))).
Proof.
  induction d as [|[k u] d IH]; simpl.
  - by rewrite decide_True.
  - destruct (decide (k = rad)) as [->|Hne]; simpl.
    + by rewrite decide_True.
    + by rewrite decide_False.
Qed.

Lemma usage_of_update_ne rad f d k :
  rad ≠ k → usage_of (update rad f d) k = usage_of d k.
Proof.
  intros Hne. induction d as [|[k' u] d IH]; simpl.
  - by rewrite decide_False.
  - destruct (decide (k' = rad)) as [->|Hne']; simpl.
    + by rewrite !decide_False.
    + destruct (decide (k' = k)); done.
Qed.

Lemma usage_of_None d k : usage_of d k = None ↔ k ∉ d.*1.
Proof.
  induction d as [|[k' u] d IH]; simpl.
  - split; [intros _; apply not_elem_of_nil | done].
  - rewrite not_elem_of_cons. destruct (decide (k' = k)) as [->|Hne].
    + split; [done | intros [? _]; done].
    + rewrite IH. split; [intros ?; split; [congruence | done] | tauto].
Qed.

Lemma usage_of_Some_elem d k u : usage_of d k = Some u → (k, u) ∈ d.
Proof.
  induction d as [|[k' u'] d IH]; simpl; [done|].
  destruct (decide (k' = k)) as [->|Hne].
  - intros [= ->]. left.
  - intros H. right. by apply IH.
Qed.

Lemma usage_of_elem d k u : NoDup d.*1 → (k, u) ∈ d → usage_of d k = Some u.
Proof.
  induction d as [|[k' u'] d IH]; simpl.
  - intros _ H. by apply elem_of_nil in H.
  - rewrite NoDup_cons. intros [Hk Hd] H. apply elem_of_cons in H.
    destruct H as [[= -> ->]|H].
    + by rewrite decide_True.
    + destruct (decide (k' = k)) as [->|Hne]; [|by apply IH].
      exfalso. apply Hk. apply list_elem_of_fmap. by exists (k, u).
Qed.

Lemma update_keys rad f d :
  (update rad f d).*1 = if decide (rad ∈ d.*1) then d.*1 else d.*1 ++ [rad].
Proof.
  induction d as [|[k u] d IH]; cbn [update fmap list_fmap fst].
  - rewrite decide_False; [done | apply not_elem_of_nil].
  - destruct (decide (k = rad)) as [->|Hne]; cbn [fmap list_fmap fst].
    + rewrite decide_True; [done | left].
    + rewrite IH. destruct (decide (rad ∈ d.*1)) as [Hin|Hin].
      * rewrite decide_True; [done | by right].
      * rewrite decide_False; [done|].
        rewrite not_elem_of_cons. split; [congruence | done].
Qed.

Lemma update_NoDup rad f d : NoDup d.*1 → NoDup (update rad f d).*1.
Proof.
  intros Hd. rewrite update_keys. destruct (decide (rad ∈ d.*1)); [done|].
  apply NoDup_app. split_and!; [done | | apply NoDup_singleton].
  intros x Hx Hx'. apply list_elem_of_singleton in Hx'. by subst.
Qed.

(** ** [extract_radicals_from_vocab] records the occurrences in order *)

Lemma extract_rad_pieces level word d pieces :
  foldl (extract_rad level word) d pieces
  = foldl record_occurrence d
      (Occ level word <$> filter (λ rad, rad ≠ []) (strip <$> pieces)).
Proof.
  revert d. induction pieces as [|p pieces IH]; intros d; simpl; [done|].
  rewrite IH. unfold extract_rad at 1. rewrite filter_cons.
  destruct (strip p) as [|c s] eqn:E; simpl; reflexivity.
Qed.

Lemma decomposition_empty r :
  truthy (get r (py "Radicals") []) = false → decomposition r = [].
Proof.
  unfold decomposition. destruct (get r (py "Radicals") []); [|done].
  intros _. reflexivity.
Qed.

Lemma extract_row_usage level d lk r :
  (extract_row level (d, lk) r).1
  = foldl record_occurrence d (row_occurrences level r).
Proof.
  unfold extract_row, row_occurrences.
  destruct (truthy (get r (py "Radicals") [])) eqn:E; simpl.
  - by rewrite extract_rad_pieces.
  - by rewrite (decomposition_empty r E).
Qed.

Lemma extract_rows_usage level rows d lk :
  (foldl (extract_row level) (d, lk) rows).1
  = foldl record_occurrence d (rows ≫= row_occurrences level).
Proof.
  revert d lk. induction rows as [|r rows IH]; intros d lk; [done|].
  cbn [foldl]. destruct (extract_row level (d, lk) r) as [d' lk'] eqn:E.
  rewrite IH. rewrite bind_cons, foldl_app. f_equal.
  by rewrite <- (extract_row_usage level d lk r), E.
Qed.

Lemma os_path_exists_false fs path :
  os_path_exists fs path = false ↔ fs !! path = None.
Proof.
  unfold os_path_exists. rewrite bool_decide_eq_false.
  rewrite <- eq_None_not_Some. done.
Qed.

Lemma extract_level_usage fs level st st' :
  extract_level fs st level = Ok st' →
  st'.1 = foldl record_occurrence st.1 (level_occurrences fs level).
Proof.
  unfold extract_level, level_occurrences, read_csv.
  destruct (os_path_exists fs (level_path level)) eqn:E; simpl.
  - destruct (fs !! level_path level) as [[|rows]|] eqn:F; simpl; try done.
    intros [= <-]. destruct st as [d lk]. apply extract_rows_usage.
  - apply os_path_exists_false in E. rewrite E. by intros [= <-].
Qed.

Lemma extract_levels_usage fs ls st st' :
  for_each (extract_level fs) st ls = Ok st' →
  st'.1 = foldl record_occurrence st.1 (ls ≫= level_occurrences fs).
Proof.
  revert st. induction ls as [|level ls IH]; intros st.
  - by intros [= <-].
  - rewrite bind_cons, foldl_app. cbn [for_each].
    destruct (extract_level fs st level) as [st1|e] eqn:E; [|done].
    intros H. by rewrite (IH _ H), (extract_level_usage _ _ _ _ E).
Qed.

Lemma extract_usage fs radical_usage vocab_lookup :
  extract_radicals_from_vocab fs = Ok (radical_usage, vocab_lookup) →
  radical_usage = foldl record_occurrence [] (occurrences fs).
Proof. intros H. apply (extract_levels_usage fs levels _ _ H). Qed.

(** ** The usage record of a glyph, from its occurrences *)

Lemma take_5_snoc (ws : list (list N)) w :
  (if bool_decide (length (take 5 ws) < 5)%nat
   then take 5 ws ++ [w] else take 5 ws) = take 5 (ws ++ [w]).
Proof.
  destruct (decide (length ws < 5)%nat) as [Hlt|Hge].
  - rewrite (take_ge ws) by lia. rewrite bool_decide_eq_true_2 by done.
    rewrite take_ge; [done|]. rewrite length_app. simpl. lia.
  - rewrite bool_decide_eq_false_2.
    + rewrite take_app_le; [done | lia].
    + rewrite length_take. lia.
Qed.

Lemma usage_of_occurrences occs g :
  usage_of (foldl record_occurrence [] occs) g
  = match uses_of g occs with
    | [] => None
    | us => Some (Usage.mk (N.of_nat (length us))
                           (list_to_set (occ_level <$> us))
                           (take 5 (occ_word <$> us)))
    end.
Proof.
  induction occs as [|o occs IH] using rev_ind; [done|].
  rewrite foldl_app. cbn [foldl]. unfold record_occurrence at 1.
  unfold uses_of in *. rewrite filter_app, filter_cons, filter_nil.
  destruct (decide (occ_rad o = g)) as [<-|Hne].
  - rewrite usage_of_update_eq, IH.
    destruct (filter (λ o0, occ_rad o0 = occ_rad o) occs) as [|u us].
    + reflexivity.
    + unfold id, use. cbn [default Usage.count Usage.levels Usage.words].
      rewrite <- app_comm_cons. cbv iota.
      change (u :: us ++ [o]) with ((u :: us) ++ [o]).
      rewrite !fmap_app. cbn [fmap list_fmap]. rewrite take_5_snoc. f_equal. f_equal.
      * rewrite !length_cons, length_app. simpl. lia.
      * rewrite list_to_set_snoc_L. apply (comm_L (∪)).
  - rewrite usage_of_update_ne by done. by rewrite app_nil_r.
Qed.

Lemma occurrences_keys_NoDup occs :
  NoDup (foldl record_occurrence [] occs).*1.
Proof.
  induction occs as [|o occs IH] using rev_ind; [constructor|].
  rewrite foldl_app. by apply update_NoDup.
Qed.

Lemma occurrences_keys occs g :
  g ∈ (foldl record_occurrence [] occs).*1 ↔ g ∈ occ_rad <$> occs.
Proof.
  induction occs as [|o occs IH] using rev_ind; [done|].
  rewrite foldl_app. cbn [foldl]. unfold record_occurrence at 1.
  rewrite update_keys, fmap_app, elem_of_app. simpl.
  rewrite list_elem_of_singleton.
  destruct (decide (occ_rad o ∈ (foldl record_occurrence [] occs).*1)) as [H|H].
  - rewrite IH. split; [auto|]. intros [?| ->]; [done|]. by apply IH.
  - rewrite elem_of_app, list_elem_of_singleton, IH. done.
Qed.

Lemma elem_of_occurrences fs o :
  o ∈ occurrences fs ↔
  occ_level o ∈ levels ∧
  ∃ rows r, fs !! level_path (occ_level o) = Some (Rows rows) ∧ r ∈ rows ∧
            occ_word o = get r (py "Word") [] ∧
            occ_rad o ∈ decomposition r.
Proof.
  unfold occurrences. rewrite list_elem_of_bind. split.
  - intros (level & Ho & Hlevel). unfold level_occurrences in Ho.
    destruct (fs !! level_path level) as [[|rows]|] eqn:E;
      try by apply elem_of_nil in Ho.
    apply list_elem_of_bind in Ho as (r & Ho & Hr).
    unfold row_occurrences in Ho.
    apply list_elem_of_fmap in Ho as (rad & -> & Hrad). simpl.
    split; [done|]. by exists rows, r.
  - intros (Hlevel & rows & r & Hfs & Hr & Hw & Hrad).
    exists (occ_level o). split; [|done].
    unfold level_occurrences. rewrite Hfs. apply list_elem_of_bind.
    exists r. split; [|done]. unfold row_occurrences.
    apply list_elem_of_fmap. exists (occ_rad o). split; [|done].
    destruct o. simpl in *. by subst.
Qed.

(** ** [load_radicals_214] *)

Lemma load_row_Ok m r m' :
  load_row m r = Ok m' →
  ∃ rad, r !! py "Radical" = Some rad ∧
    match m !! rad with
    | Some _ => m' = m
    | None =>
      ∃ p d mn, r !! py "Pinyin" = Some p ∧ r !! py "Description" = Some d ∧
                r !! py "Meaning" = Some mn ∧
                m' = <[rad := R214.mk rad p d mn (py "kangxi_214")]> m
    end.
Proof.
  unfold load_row, getitem.
  destruct (r !! py "Radical") as [rad|]; cbn; [|done].
  intros H. exists rad. split; [done|].
  destruct (m !! rad); [by injection H as <-|].
  destruct (r !! py "Pinyin") as [p|]; cbn in H; [|done].
  destruct (r !! py "Description") as [d|]; cbn in H; [|done].
  destruct (r !! py "Meaning") as [mn|]; cbn in H; [|done].
  injection H as <-. by exists p, d, mn.
Qed.

Lemma load_rows_keep rows m m' g x :
  for_each load_row m rows = Ok m' → m !! g = Some x → m' !! g = Some x.
Proof.
  revert m. induction rows as [|r rows IH]; intros m; cbn [for_each].
  - by intros [= <-].
  - destruct (load_row m r) as [m1|e] eqn:E; [|done]. cbn.
    intros H Hg. apply (IH _ H).
    apply load_row_Ok in E as (rad & _ & E).
    destruct (m !! rad) eqn:F; [by subst|].
    destruct E as (p & d & mn & _ & _ & _ & ->).
    rewrite lookup_insert_ne; [done | congruence].
Qed.

Lemma load_rows_first rows m m' g i r :
  for_each load_row m rows = Ok m' → m !! g = None →
  rows !! i = Some r → r !! py "Radical" = Some g →
  (∀ j r', (j < i)%nat → rows !! j = Some r' → r' !! py "Radical" ≠ Some g) →
  ∃ p d mn, r !! py "Pinyin" = Some p ∧ r !! py "Description" = Some d ∧
            r !! py "Meaning" = Some mn ∧
            m' !! g = Some (R214.mk g p d mn (py "kangxi_214")).
Proof.
  revert m i. induction rows as [|r0 rows IH]; intros m i; cbn [for_each].
  - done.
  - destruct (load_row m r0) as [m1|e] eqn:E; [|done]. cbn.
    intros H Hg Hi Hr Hfirst.
    apply load_row_Ok in E as (rad & Hrad & E). destruct i as [|i].
    + injection Hi as ->. rewrite Hr in Hrad. injection Hrad as <-.
      rewrite Hg in E. destruct E as (p & d & mn & Hp & Hd & Hmn & ->).
      exists p, d, mn. split_and!; try done.
      apply (load_rows_keep _ _ _ _ _ H). apply lookup_insert_eq.
    + assert (rad ≠ g) as Hne.
      { intros ->. by apply (Hfirst 0%nat r0); [lia | |]. }
      apply (IH m1 i); try done.
      * destruct (m !! rad); [by subst|].
        destruct E as (p & d & mn & _ & _ & _ & ->).
        by rewrite lookup_insert_ne.
      * intros j r' Hj Hr'. apply (Hfirst (S j) r'); [lia | done].
Qed.

Lemma load_rows_total rows m :
  (∀ r, r ∈ rows →
     is_Some (r !! py "Radical") ∧ is_Some (r !! py "Pinyin") ∧
     is_Some (r !! py "Description") ∧ is_Some (r !! py "Meaning")) →
  ∃ m', for_each load_row m rows = Ok m'.
Proof.
  revert m. induction rows as [|r rows IH]; intros m Hrows; cbn [for_each].
  - by exists m.
  - destruct (Hrows r) as ([rad Hrad] & [p Hp] & [d Hd] & [mn Hmn]); [left|].
    assert (∃ m1, load_row m r = Ok m1) as [m1 ->].
    { unfold load_row, getitem. rewrite Hrad. cbn.
      destruct (m !! rad); [by eexists|]. rewrite Hp, Hd, Hmn. by eexists. }
    cbn. apply IH. intros r' Hr'. apply Hrows. by right.
Qed.

Lemma load_rows_invariant rows m m' g r :
  for_each load_row m rows = Ok m' → m' !! g = Some r →
  m !! g = Some r ∨ (R214.Radical r = g ∧ R214.Set_ r = py "kangxi_214").
Proof.
  revert m. induction rows as [|r0 rows IH]; intros m; cbn [for_each].
  - intros [= <-]. by left.
  - destruct (load_row m r0) as [m1|e] eqn:E; [|done]. cbn.
    intros H Hg. destruct (IH _ H Hg) as [H1|H1]; [|by right].
    apply load_row_Ok in E as (rad & _ & E).
    destruct (m !! rad) eqn:F; [subst; by left|].
    destruct E as (p & d & mn & _ & _ & _ & ->).
    destruct (decide (rad = g)) as [->|Hne].
    + rewrite lookup_insert_eq in H1. injection H1 as <-. by right.
    + rewrite lookup_insert_ne in H1 by done. by left.
Qed.

Lemma load_radicals_214_invariant fs radicals_214 g r :
  load_radicals_214 fs = Ok radicals_214 → radicals_214 !! g = Some r →
  R214.Radical r = g ∧ R214.Set_ r = py "kangxi_214".
Proof.
  unfold load_radicals_214.
  destruct (read_csv fs radicals_214_path) as [rows|e]; [|done]. cbn.
  intros H Hg. by destruct (load_rows_invariant _ _ _ _ _ H Hg).
Qed.

(** ** [build_custom_radicals] *)

Lemma build_entry_Levels G radicals_214 vocab_lookup rad usage :
  Entry.Levels (build_entry G radicals_214 vocab_lookup rad usage)
  = joined_levels usage.
Proof. unfold build_entry. by repeat case_match. Qed.

Lemma build_entry_UsageCount G radicals_214 vocab_lookup rad usage :
  Entry.UsageCount (build_entry G radicals_214 vocab_lookup rad usage)
  = Usage.count usage.
Proof. unfold build_entry. by repeat case_match. Qed.

Lemma build_entry_Radical G radicals_214 vocab_lookup rad usage :
  (∀ r, radicals_214 !! rad = Some r → R214.Radical r = rad) →
  Entry.Radical (build_entry G radicals_214 vocab_lookup rad usage) = rad.
Proof. intros H. unfold build_entry. repeat case_match; simpl; auto. Qed.

Lemma build_entry_Set G radicals_214 vocab_lookup rad usage :
  Entry.Set_ (build_entry G radicals_214 vocab_lookup rad usage)
  = match radicals_214 !! rad with
    | Some r => R214.Set_ r
    | None =>
      match g_VARIANT_TO_MAIN G !! rad with
      | Some _ => py "variant"
      | None => py "component"
      end
    end.
Proof. unfold build_entry. by repeat case_match. Qed.

Lemma build_custom_radicals_Radical G fs radicals_214 radical_usage
    vocab_lookup :
  load_radicals_214 fs = Ok radicals_214 →
  Entry.Radical <$>
    build_custom_radicals G radicals_214 radical_usage vocab_lookup
  = radical_usage.*1.
Proof.
  intros Hload. unfold build_custom_radicals. rewrite <- list_fmap_compose.
  apply list_fmap_ext. intros i [rad usage] _. simpl.
  apply build_entry_Radical. intros r Hr.
  by destruct (load_radicals_214_invariant _ _ _ _ Hload Hr).
Qed.

Lemma sort_radicals_Permutation radicals : sort_radicals radicals ≡ₚ radicals.
Proof. apply sorted_Permutation. Qed.

(** ** Completeness of the derived table *)

(** C1: the glyphs of the derived table are exactly the glyphs that occur
    in the decomposition of some row of some level file; no glyph has two
    entries; and the table has as many entries as the usage map has keys,
    which are pairwise distinct. *)
Theorem derived_keys_are_vocabulary_glyphs G fs radicals_214 radical_usage
    vocab_lookup :
  load_radicals_214 fs = Ok radicals_214 →
  extract_radicals_from_vocab fs = Ok (radical_usage, vocab_lookup) →
  let derived :=
    sort_radicals
      (build_custom_radicals G radicals_214 radical_usage vocab_lookup) in
  (∀ g, g ∈ Entry.Radical <$> derived ↔
        ∃ level rows r, level ∈ levels ∧
          fs !! level_path level = Some (Rows rows) ∧ r ∈ rows ∧
          g ∈ decomposition r) ∧
  NoDup (Entry.Radical <$> derived) ∧
  NoDup radical_usage.*1 ∧
  length derived = length radical_usage.
Proof.
  intros Hload Hextract derived.
  assert (Entry.Radical <$> derived ≡ₚ radical_usage.*1) as Hperm.
  { unfold derived. rewrite sort_radicals_Permutation.
    by rewrite (build_custom_radicals_Radical _ _ _ _ _ Hload). }
  pose proof (extract_usage _ _ _ Hextract) as Husage.
  assert (NoDup radical_usage.*1) as Hnodup.
  { rewrite Husage. apply occurrences_keys_NoDup. }
  split_and!.
  - intros g. rewrite Hperm, Husage, occurrences_keys, list_elem_of_fmap.
    split.
    + intros (o & -> & Ho). apply elem_of_occurrences in Ho.
      destruct Ho as (Hlevel & rows & r & Hfs & Hr & _ & Hrad).
      by exists (occ_level o), rows, r.
    + intros (level & rows & r & Hlevel & Hfs & Hr & Hg).
      exists (Occ level (get r (py "Word") []) g). split; [done|].
      apply elem_of_occurrences. split; [done|]. by exists rows, r.
  - by rewrite Hperm.
  - done.
  - rewrite <- (length_fmap Entry.Radical), Hperm. apply length_fmap.
Qed.

Lemma derived_keys_are_vocabulary_glyphs_witness :
  NoDup (Entry.Radical <$> derived_table scenario_globals scenario_fs) ∧
  length (derived_table scenario_globals scenario_fs) = 3%nat.
Proof.
  destruct (derived_keys_are_vocabulary_glyphs scenario_globals scenario_fs
              (loaded scenario_fs) (extracted scenario_fs).1
              (extracted scenario_fs).2)
    as (_ & Hnodup & _ & Hlen).
  - vm_compute. reflexivity.
  - vm_compute. reflexivity.
  - split; [exact Hnodup|]. unfold derived_table. rewrite Hlen.
    vm_compute. reflexivity.
Defined.

(** ** Usage counts and example words *)

Lemma uses_of_bind {A} g (f : A → list occurrence) (l : list A) :
  length (uses_of g (l ≫= f))
  = sum_list ((λ x, length (uses_of g (f x))) <$> l).
Proof.
  induction l as [|x l IH]; [done|].
  rewrite bind_cons, fmap_cons. unfold uses_of in *.
  rewrite filter_app, length_app, IH. done.
Qed.

Lemma uses_of_row_occurrences g level r :
  length (uses_of g (row_occurrences level r)) = decomposition_count g r.
Proof.
  unfold row_occurrences, decomposition_count, uses_of.
  induction (decomposition r) as [|rad rads IH]; [done|].
  rewrite fmap_cons, !filter_cons. cbn [occ_rad].
  destruct (decide (rad = g)); cbn [length]; by rewrite IH.
Qed.

Lemma uses_of_occurrences_length g fs :
  length (uses_of g (occurrences fs)) = total_count g fs.
Proof.
  unfold occurrences, total_count. rewrite uses_of_bind. f_equal.
  apply list_fmap_ext. intros _ level _.
  unfold level_occurrences, level_count.
  destruct (fs !! level_path level) as [[|rows]|]; try done.
  rewrite uses_of_bind. f_equal. apply list_fmap_ext. intros _ r _.
  apply uses_of_row_occurrences.
Qed.


(** C9: the usage record of a glyph [g] counts every occurrence of [g] in
    the decompositions of all level files (occurrences inside one word
    count separately), holds the levels of these occurrences, and lists the
    words of the first five occurrences, one per occurrence; a glyph that
    never occurs has no record. *)
Theorem usage_counts_every_occurrence fs radical_usage vocab_lookup g :
  extract_radicals_from_vocab fs = Ok (radical_usage, vocab_lookup) →
  usage_of radical_usage g
  = match uses_of g (occurrences fs) with
    | [] => None
    | us => Some (Usage.mk (N.of_nat (length us))
                           (list_to_set (occ_level <$> us))
                           (take 5 (occ_word <$> us)))
    end ∧
  length (uses_of g (occurrences fs)) = total_count g fs ∧
  (usage_of radical_usage g = None ↔ total_count g fs = 0%nat) ∧
  (∀ usage, usage_of radical_usage g = Some usage →
            Usage.count usage = N.of_nat (total_count g fs)).
Proof.
  intros H. rewrite (extract_usage _ _ _ H), usage_of_occurrences.
  rewrite <- uses_of_occurrences_length.
  destruct (uses_of g (occurrences fs)) as [|u us]; split_and!; try done.
  intros usage [= <-]. done.
Qed.

Lemma usage_counts_every_occurrence_witness :
  occurrences lin_fs
  = [Occ (py "basic") (py "林") (py "木"); Occ (py "basic") (py "林") (py "木")] ∧
  total_count (py "木") lin_fs = 2%nat ∧
  usage_of (extracted lin_fs).1 (py "木")
  = Some (Usage.mk 2 {[ py "basic" ]} [py "林"; py "林"]).
Proof.
  split; [vm_compute; reflexivity|]. split; [vm_compute; reflexivity|].
  destruct (usage_counts_every_occurrence lin_fs (extracted lin_fs).1
              (extracted lin_fs).2 (py "木")) as [Husage _].
  - vm_compute. reflexivity.
  - rewrite Husage. vm_compute. reflexivity.
Defined.

(** ** Duplicate rows of the reference table *)

Lemma NoDup_fmap_inj_on {A B} (f : A → B) (l : list A) a b :
  NoDup (f <$> l) → a ∈ l → b ∈ l → f a = f b → a = b.
Proof.
  intros Hnodup Ha Hb Hf.
  apply list_elem_of_lookup_1 in Ha as [i Hi].
  apply list_elem_of_lookup_1 in Hb as [j Hj].
  assert (i = j) as ->; [|congruence].
  apply (NoDup_lookup _ i j (f a) Hnodup).
  - by rewrite list_lookup_fmap, Hi.
  - by rewrite list_lookup_fmap, Hj, Hf.
Qed.

Lemma derived_Radical_NoDup G fs radicals_214 radical_usage vocab_lookup :
  load_radicals_214 fs = Ok radicals_214 →
  extract_radicals_from_vocab fs = Ok (radical_usage, vocab_lookup) →
  NoDup (Entry.Radical <$>
           sort_radicals
             (build_custom_radicals G radicals_214 radical_usage vocab_lookup)).
Proof.
  intros Hload Hextract. rewrite sort_radicals_Permutation.
  rewrite (build_custom_radicals_Radical _ _ _ _ _ Hload).
  rewrite (extract_usage _ _ _ Hextract). apply occurrences_keys_NoDup.
Qed.

(** C5: when every row of the reference table has the columns that are
    read, [load_radicals_214] raises nothing, and a glyph is mapped to the
    fields of the first row that carries it, whatever the later rows with
    the same glyph hold; when the glyph is used in the vocabulary, the
    derived table has one entry for it, and this entry has the reading,
    the description and the gloss of that first row. *)
Theorem load_radicals_214_first_wins G fs rows :
  fs !! radicals_214_path = Some (Rows rows) →
  Forall has_214_columns rows →
  ∃ radicals_214,
    load_radicals_214 fs = Ok radicals_214 ∧
    ∀ g i r,
      rows !! i = Some r → r !! py "Radical" = Some g →
      (∀ j r', (j < i)%nat → rows !! j = Some r' →
               r' !! py "Radical" ≠ Some g) →
      radicals_214 !! g
      = Some (R214.mk g (get r (py "Pinyin") []) (get r (py "Description") [])
                      (get r (py "Meaning") []) (py "kangxi_214")) ∧
      ∀ radical_usage vocab_lookup,
        extract_radicals_from_vocab fs = Ok (radical_usage, vocab_lookup) →
        g ∈ occ_rad <$> occurrences fs →
        let derived :=
          sort_radicals
            (build_custom_radicals G radicals_214 radical_usage vocab_lookup)
        in
        ∃ e,
          e ∈ derived ∧ Entry.Radical e = g ∧
          Entry.Pinyin e = get r (py "Pinyin") [] ∧
          Entry.Description e = get r (py "Description") [] ∧
          Entry.Meaning e = get r (py "Meaning") [] ∧
          ∀ e', e' ∈ derived → Entry.Radical e' = g → e' = e.
Proof.
  intros Hfs Hrows.
  destruct (load_rows_total rows ∅) as [m Hm].
  { intros r Hr. rewrite Forall_forall in Hrows. by apply Hrows. }
  assert (load_radicals_214 fs = Ok m) as Hload.
  { unfold load_radicals_214, read_csv. by rewrite Hfs. }
  exists m. split; [done|]. intros g i r Hi Hg Hfirst.
  destruct (load_rows_first _ _ _ _ _ _ Hm (lookup_empty g) Hi Hg Hfirst)
    as (p & d & mn & Hp & Hd & Hmn & Hlookup).
  unfold get. rewrite Hp, Hd, Hmn. simpl. split; [done|].
  intros u lk Hextract Hused.
  set (derived := sort_radicals (build_custom_radicals G m u lk)).
  assert (g ∈ u.*1) as Hkey.
  { rewrite (extract_usage _ _ _ Hextract). by apply occurrences_keys. }
  apply list_elem_of_fmap in Hkey as ([g' usage] & Hg' & Hin).
  simpl in Hg'. subst g'.
  assert (build_entry G m lk g usage ∈ derived) as He.
  { unfold derived. rewrite sort_radicals_Permutation.
    unfold build_custom_radicals. apply list_elem_of_fmap.
    by exists (g, usage). }
  exists (build_entry G m lk g usage).
  split_and!; try done; try (unfold build_entry; by rewrite Hlookup).
  intros e' He' Hrad.
  apply (NoDup_fmap_inj_on Entry.Radical derived); try done.
  - by apply (derived_Radical_NoDup G fs).
  - rewrite Hrad. unfold build_entry. by rewrite Hlookup.
Qed.

Lemma load_radicals_214_first_wins_witness :
  R214.Pinyin <$> loaded dou_fs !! py "斗" = Some (py "dǒu") ∧
  ∃ e, e ∈ derived_table module_globals dou_fs ∧
       Entry.Radical e = py "斗" ∧ Entry.Pinyin e = py "dǒu".
Proof.
  destruct (load_radicals_214_first_wins module_globals dou_fs
              dou_radicals_214) as (t & Hload & Hfirst).
  - vm_compute. reflexivity.
  - repeat constructor; vm_compute; eauto.
  - unfold derived_table, loaded. rewrite Hload.
    destruct (Hfirst (py "斗") 0%nat
                (dict_literal [(py "Radical", py "斗"); (py "Pinyin", py "dǒu");
                               (py "Description", py "dipper radical");
                               (py "Meaning", py "dipper")]))
      as [Hlookup Hentry].
    + reflexivity.
    + vm_compute. reflexivity.
    + intros j r' Hj. lia.
    + split.
      * rewrite Hlookup. vm_compute. reflexivity.
      * destruct (Hentry (extracted dou_fs).1 (extracted dou_fs).2)
          as (e & He & Hrad & Hpinyin & _).
        -- vm_compute. reflexivity.
        -- refine (bool_decide_unpack _ _). vm_compute. exact I.
        -- exists e. split_and!; [exact He | exact Hrad |].
           rewrite Hpinyin. vm_compute. reflexivity.
Defined.

(** ** Classification *)

(** C2: a glyph that is a key of the reference table and of the variant map
    gets the entry of the canonical class: the tag of the reference table
    ([kangxi_214], never [variant]), its reading, description and gloss
    copied from the reference table and no main radical; the variant map is
    not consulted, so the entry is the same under any other variant map. *)
Theorem canonical_takes_precedence G fs radicals_214 vocab_lookup rad usage r
    main_rad :
  load_radicals_214 fs = Ok radicals_214 →
  radicals_214 !! rad = Some r →
  g_VARIANT_TO_MAIN G !! rad = Some main_rad →
  let e := build_entry G radicals_214 vocab_lookup rad usage in
  Entry.Set_ e = py "kangxi_214" ∧ Entry.Set_ e ≠ py "variant" ∧
  Entry.Pinyin e = R214.Pinyin r ∧
  Entry.Description e = R214.Description r ∧
  Entry.Meaning e = R214.Meaning r ∧
  Entry.MainRadical e = None ∧
  ∀ variant_to_main,
    build_entry {| g_TRADITIONAL_FORMS := g_TRADITIONAL_FORMS G;
                   g_VARIANT_TO_MAIN := variant_to_main;
                   g_COMMON_COMPONENTS := g_COMMON_COMPONENTS G |}
      radicals_214 vocab_lookup rad usage = e.
Proof.
  intros Hload Hr Hv e.
  destruct (load_radicals_214_invariant _ _ _ _ Hload Hr) as [_ Hset].
  unfold e, build_entry. rewrite Hr. simpl. rewrite Hset.
  split_and!; try done.
Qed.

Lemma canonical_takes_precedence_witness :
  VARIANT_TO_MAIN !! py "氵" = Some (py "水") ∧
  Entry.Set_ (build_entry module_globals (loaded overlap_fs)
                (extracted overlap_fs).2 (py "氵") default_usage)
  = py "kangxi_214" ∧
  Entry.Pinyin (build_entry module_globals (loaded overlap_fs)
                  (extracted overlap_fs).2 (py "氵") default_usage)
  = py "shuǐ".
Proof.
  split; [vm_compute; reflexivity|].
  destruct (canonical_takes_precedence module_globals overlap_fs
              (loaded overlap_fs) (extracted overlap_fs).2 (py "氵")
              default_usage
              (R214.mk (py "氵") (py "shuǐ") (py "three drops of water")
                       (py "water") (py "kangxi_214"))
              (py "水"))
    as (Hset & _ & Hpinyin & _).
  - vm_compute. reflexivity.
  - vm_compute. reflexivity.
  - vm_compute. reflexivity.
  - split; [exact Hset | exact Hpinyin].
Defined.

(** C7: every entry of the derived table carries exactly one of the three
    tags [kangxi_214] (the canonical class), [variant] and [component],
    which are pairwise different: the first when its glyph is a key of the
    reference table, the second when it is not but is a key of the variant
    map, the third otherwise; the row written for the entry holds that tag
    in its column [Set]. *)
Theorem every_entry_has_one_tag G fs radicals_214 radical_usage vocab_lookup
    e :
  load_radicals_214 fs = Ok radicals_214 →
  e ∈ sort_radicals
        (build_custom_radicals G radicals_214 radical_usage vocab_lookup) →
  ((Entry.Set_ e = py "kangxi_214" ∧
    is_Some (radicals_214 !! Entry.Radical e)) ∨
   (Entry.Set_ e = py "variant" ∧
    radicals_214 !! Entry.Radical e = None ∧
    is_Some (g_VARIANT_TO_MAIN G !! Entry.Radical e)) ∨
   (Entry.Set_ e = py "component" ∧
    radicals_214 !! Entry.Radical e = None ∧
    g_VARIANT_TO_MAIN G !! Entry.Radical e = None)) ∧
  row_of_entry e !! py "Set" = Some (Entry.Set_ e) ∧
  py "kangxi_214" ≠ py "variant" ∧ py "kangxi_214" ≠ py "component" ∧
  py "variant" ≠ py "component".
Proof.
  intros Hload He. rewrite sort_radicals_Permutation in He.
  unfold build_custom_radicals in He.
  apply list_elem_of_fmap in He as ([rad usage] & -> & _).
  assert (Entry.Radical (build_entry G radicals_214 vocab_lookup rad usage)
          = rad) as Hrad.
  { apply build_entry_Radical. intros r Hr.
    by destruct (load_radicals_214_invariant _ _ _ _ Hload Hr). }
  split_and!; try done.
  rewrite Hrad, build_entry_Set.
  destruct (radicals_214 !! rad) as [r|] eqn:Hr.
  - left. split; [|done].
    by destruct (load_radicals_214_invariant _ _ _ _ Hload Hr).
  - destruct (g_VARIANT_TO_MAIN G !! rad) eqn:Hv.
    + right; left. done.
    + right; right. done.
Qed.

Lemma every_entry_has_one_tag_witness :
  Entry.Set_ <$> derived_table scenario_globals scenario_fs
  = [py "kangxi_214"; py "variant"; py "component"] ∧
  ∀ e, e ∈ derived_table scenario_globals scenario_fs →
       row_of_entry e !! py "Set" = Some (Entry.Set_ e).
Proof.
  split; [vm_compute; reflexivity|]. intros e He.
  destruct (every_entry_has_one_tag scenario_globals scenario_fs
              (loaded scenario_fs) (extracted scenario_fs).1
              (extracted scenario_fs).2 e) as (_ & Hrow & _).
  - vm_compute. reflexivity.
  - exact He.
  - exact Hrow.
Defined.

(** C7 as stated fails on the value of the tag: the entry of 气, a glyph
    of the reference table, carries [kangxi_214] in its column [Set], which
    is none of [canonical], [variant], [component]. *)
Lemma canonical_tag_is_kangxi_214 :
  ∃ e, derived_table scenario_globals scenario_fs !! 0%nat = Some e ∧
       Entry.Radical e = py "气" ∧
       is_Some (loaded scenario_fs !! py "气") ∧
       row_of_entry e !! py "Set" = Some (py "kangxi_214") ∧
       Entry.Set_ e ≠ py "canonical" ∧ Entry.Set_ e ≠ py "variant" ∧
       Entry.Set_ e ≠ py "component".
Proof.
  eexists. split_and!; [vm_compute; reflexivity | ..];
    vm_compute; try done; eauto.
Qed.

(** ** Order of the derived table *)

Lemma sort_radicals_StronglySorted radicals :
  StronglySorted (λ a b, key_leb (sort_key a) (sort_key b) = true)
    (sort_radicals radicals).
Proof.
  apply sorted_StronglySorted; [apply key_leb_total | apply key_leb_trans].
Qed.

Lemma set_order_ranks :
  set_order !! py "kangxi_214" = Some 0 ∧ set_order !! py "variant" = Some 1 ∧
  set_order !! py "component" = Some 2.
Proof. vm_compute. done. Qed.

(** C4: the derived table is strictly increasing for the key (rank of the
    tag, glyph): of two entries the earlier has the smaller rank, or the
    same rank and the smaller glyph in code point order.  Hence a canonical
    entry precedes every variant or component entry, a variant entry every
    component entry, and entries of one tag are in increasing glyph
    order. *)
Theorem derived_table_sorted G fs radicals_214 radical_usage vocab_lookup :
  load_radicals_214 fs = Ok radicals_214 →
  extract_radicals_from_vocab fs = Ok (radical_usage, vocab_lookup) →
  let derived :=
    sort_radicals
      (build_custom_radicals G radicals_214 radical_usage vocab_lookup) in
  (∀ i j a b, (i < j)%nat → derived !! i = Some a → derived !! j = Some b →
     (sort_key a).1 < (sort_key b).1 ∨
     ((sort_key a).1 = (sort_key b).1 ∧
      str_ltb (Entry.Radical a) (Entry.Radical b) = true)) ∧
  (∀ i j a b, derived !! i = Some a → derived !! j = Some b →
     Entry.Set_ a = py "kangxi_214" →
     Entry.Set_ b = py "variant" ∨ Entry.Set_ b = py "component" →
     (i < j)%nat) ∧
  (∀ i j a b, derived !! i = Some a → derived !! j = Some b →
     Entry.Set_ a = py "variant" → Entry.Set_ b = py "component" →
     (i < j)%nat) ∧
  (∀ i j a b, (i < j)%nat → derived !! i = Some a → derived !! j = Some b →
     Entry.Set_ a = Entry.Set_ b →
     str_ltb (Entry.Radical a) (Entry.Radical b) = true).
Proof.
  intros Hload Hextract derived.
  pose proof (derived_Radical_NoDup G fs radicals_214 radical_usage
                vocab_lookup Hload Hextract) as Hnodup.
  fold derived in Hnodup.
  assert (∀ i j a b, (i < j)%nat → derived !! i = Some a →
            derived !! j = Some b →
            (sort_key a).1 < (sort_key b).1 ∨
            ((sort_key a).1 = (sort_key b).1 ∧
             str_ltb (Entry.Radical a) (Entry.Radical b) = true)) as Hlt.
  { intros i j a b Hij Ha Hb.
    pose proof (StronglySorted_lookup _ _ _ _ _ _
                  (sort_radicals_StronglySorted _) Hij Ha Hb) as Hle.
    apply key_leb_spec in Hle as [Hle|Heq].
    - unfold key_ltb in Hle. simpl in Hle.
      rewrite orb_true_iff, andb_true_iff, N.ltb_lt, N.eqb_eq in Hle. done.
    - exfalso. assert (i = j); [|lia].
      apply (NoDup_lookup _ i j (Entry.Radical a) Hnodup).
      + by rewrite list_lookup_fmap, Ha.
      + rewrite list_lookup_fmap, Hb. simpl. f_equal.
        unfold sort_key in Heq. congruence. }
  assert (∀ i j a b, derived !! i = Some a → derived !! j = Some b →
            (sort_key a).1 < (sort_key b).1 → (i < j)%nat) as Hrank.
  { intros i j a b Ha Hb Hab.
    destruct (lt_eq_lt_dec i j) as [[?| ->]|Hji]; [done| |].
    - rewrite Ha in Hb. injection Hb as ->. lia.
    - destruct (Hlt j i b a Hji Hb Ha) as [?|[? _]]; lia. }
  destruct set_order_ranks as (Hk & Hv & Hc).
  split_and!.
  - exact Hlt.
  - intros i j a b Ha Hb Hsa Hsb. apply (Hrank i j a b Ha Hb).
    unfold sort_key. simpl. rewrite Hsa, Hk.
    destruct Hsb as [-> | ->]; [rewrite Hv | rewrite Hc]; simpl; lia.
  - intros i j a b Ha Hb Hsa Hsb. apply (Hrank i j a b Ha Hb).
    unfold sort_key. simpl. rewrite Hsa, Hsb, Hv, Hc. simpl. lia.
  - intros i j a b Hij Ha Hb Hs.
    destruct (Hlt i j a b Hij Ha Hb) as [Hab|[_ ?]]; [|done].
    unfold sort_key in Hab. simpl in Hab. rewrite Hs in Hab. lia.
Qed.

Lemma derived_table_sorted_witness :
  Entry.Radical <$> derived_table scenario_globals scenario_fs
  = [py "气"; py "氵"; py "车"] ∧
  ∀ i j a b, (i < j)%nat →
    derived_table scenario_globals scenario_fs !! i = Some a →
    derived_table scenario_globals scenario_fs !! j = Some b →
    (sort_key a).1 < (sort_key b).1 ∨
    ((sort_key a).1 = (sort_key b).1 ∧
     str_ltb (Entry.Radical a) (Entry.Radical b) = true).
Proof.
  split; [vm_compute; reflexivity|].
  destruct (derived_table_sorted scenario_globals scenario_fs
              (loaded scenario_fs) (extracted scenario_fs).1
              (extracted scenario_fs).2) as (Hlt & _).
  - vm_compute. reflexivity.
  - vm_compute. reflexivity.
  - exact Hlt.
Defined.

(** ** The level list of an entry *)

Lemma strictly_sorted_unique (l1 l2 : list (list N)) :
  StronglySorted (λ a b, str_ltb a b = true) l1 →
  StronglySorted (λ a b, str_ltb a b = true) l2 →
  (∀ x, x ∈ l1 ↔ x ∈ l2) → l1 = l2.
Proof.
  intros H1. revert l2. induction H1 as [|x l1 H1 IH Hx]; intros l2 H2 Hel.
  - destruct l2 as [|y l2]; [done|].
    exfalso. apply (not_elem_of_nil y). apply Hel. left.
  - destruct H2 as [|y l2 H2 Hy].
    { exfalso. apply (not_elem_of_nil x). apply Hel. left. }
    rewrite Forall_forall in Hx, Hy.
    assert (x = y) as ->.
    { assert (x ∈ y :: l2) as Hxy by (apply Hel; left).
      assert (y ∈ x :: l1) as Hyx by (apply Hel; left).
      apply elem_of_cons in Hxy as [?|Hxy]; [done|].
      apply elem_of_cons in Hyx as [?|Hyx]; [done|].
      pose proof (str_ltb_trans _ _ _ (Hx _ Hyx) (Hy _ Hxy)) as F.
      by rewrite str_ltb_irrefl in F. }
    f_equal. apply IH; [done|]. intros z. split; intros Hz.
    + assert (z ∈ y :: l2) as Hz' by (apply Hel; by right).
      apply elem_of_cons in Hz' as [->|?]; [|done].
      pose proof (Hx _ Hz) as F. by rewrite str_ltb_irrefl in F.
    + assert (z ∈ y :: l1) as Hz' by (apply Hel; by right).
      apply elem_of_cons in Hz' as [->|?]; [|done].
      pose proof (Hy _ Hz) as F. by rewrite str_ltb_irrefl in F.
Qed.

Lemma sorted_strings_strict (l : list (list N)) :
  NoDup l →
  StronglySorted (λ a b, str_ltb a b = true) (sorted str_leb id l).
Proof.
  intros Hl.
  assert (NoDup (sorted str_leb id l)) as Hnodup.
  { by rewrite sorted_Permutation. }
  pose proof (sorted_StronglySorted str_leb id str_leb_total str_leb_trans l)
    as Hsorted.
  induction Hsorted as [|x l' Hl' IH Hx]; [constructor|].
  apply NoDup_cons in Hnodup as [Hnotin Hnodup].
  constructor; [by apply IH|].
  rewrite Forall_forall in *. intros y Hy.
  destruct (proj1 (str_leb_spec x y) (Hx y Hy)) as [?| ->]; done.
Qed.

Lemma sorted_levels_filter (s : gset (list N)) :
  s ⊆ list_to_set levels →
  sorted str_leb id (elements s)
  = filter (λ l, l ∈ s) [py "advanced"; py "basic"; py "intermediate"].
Proof.
  intros Hs. apply strictly_sorted_unique.
  - apply sorted_strings_strict, NoDup_elements.
  - rewrite !filter_cons, filter_nil.
    repeat case_decide; repeat constructor; vm_compute; reflexivity.
  - intros x. rewrite sorted_Permutation, elem_of_elements, list_elem_of_filter.
    split; [|tauto]. intros Hx. split; [done|].
    apply Hs in Hx. apply elem_of_list_to_set in Hx. unfold levels in Hx.
    repeat (apply elem_of_cons in Hx as [->|Hx]);
      [by right; left | by right; right; left | by left
      | by apply elem_of_nil in Hx].
Qed.

Lemma extract_levels_known fs radical_usage vocab_lookup rad usage :
  extract_radicals_from_vocab fs = Ok (radical_usage, vocab_lookup) →
  (rad, usage) ∈ radical_usage →
  Usage.levels usage ⊆ list_to_set levels.
Proof.
  intros Hextract Hin.
  pose proof (extract_usage _ _ _ Hextract) as Husage.
  assert (usage_of radical_usage rad = Some usage) as Hu.
  { apply usage_of_elem; [|done]. rewrite Husage.
    apply occurrences_keys_NoDup. }
  rewrite Husage, usage_of_occurrences in Hu.
  destruct (uses_of rad (occurrences fs)) as [|u us] eqn:E; [done|].
  assert (Usage.levels usage = list_to_set (occ_level <$> u :: us)) as ->.
  { by injection Hu as <-. }
  intros level Hlevel. apply elem_of_list_to_set in Hlevel.
  apply list_elem_of_fmap in Hlevel as (o & -> & Ho).
  rewrite <- E in Ho. unfold uses_of in Ho.
  apply list_elem_of_filter in Ho as [_ Ho].
  apply elem_of_occurrences in Ho as [Ho _]. by apply elem_of_list_to_set.
Qed.

Lemma row_of_entry_Levels e :
  get (row_of_entry e) (py "Levels") [] = Entry.Levels e.
Proof. reflexivity. Qed.

(** C10: an entry of the derived table is built from a key of the usage
    map and its record, and for each of the level names [basic],
    [intermediate] and [advanced] the validator's test on the row written
    for the entry (the level name is a substring of the column [Levels])
    succeeds exactly when the level is a member of the level set of that
    record. *)
Theorem substring_test_is_level_membership G fs radicals_214 radical_usage
    vocab_lookup e :
  extract_radicals_from_vocab fs = Ok (radical_usage, vocab_lookup) →
  e ∈ sort_radicals
        (build_custom_radicals G radicals_214 radical_usage vocab_lookup) →
  ∃ rad usage,
    (rad, usage) ∈ radical_usage ∧
    e = build_entry G radicals_214 vocab_lookup rad usage ∧
    ∀ level, level ∈ levels →
      contains level (get (row_of_entry e) (py "Levels") []) = true
      ↔ level ∈ Usage.levels usage.
Proof.
  intros Hextract He. rewrite sort_radicals_Permutation in He.
  unfold build_custom_radicals in He.
  apply list_elem_of_fmap in He as ([rad usage] & -> & Hin).
  exists rad, usage. split; [done|]. split; [done|].
  pose proof (extract_levels_known _ _ _ _ _ Hextract Hin) as Hsub.
  intros level Hlevel.
  rewrite row_of_entry_Levels, build_entry_Levels. unfold joined_levels.
  rewrite (sorted_levels_filter _ Hsub), !filter_cons, filter_nil.
  unfold levels in Hlevel.
  repeat (apply elem_of_cons in Hlevel as [->|Hlevel]);
    [| | | by apply elem_of_nil in Hlevel];
    repeat case_decide;
    match goal with
    | |- ?b = true ↔ _ =>
      let v := eval vm_compute in b in change b with v
    end; split; (done || (intros; done)).
Qed.

Lemma substring_test_is_level_membership_witness :
  ∃ rad usage,
    (rad, usage) ∈ (extracted scenario_fs).1 ∧
    build_entry scenario_globals (loaded scenario_fs) (extracted scenario_fs).2
      (py "氵") (Usage.mk 1 {[ py "basic" ]} [py "汽车"])
    = build_entry scenario_globals (loaded scenario_fs)
        (extracted scenario_fs).2 rad usage ∧
    ∀ level, level ∈ levels →
      contains level
        (get (row_of_entry
                (build_entry scenario_globals (loaded scenario_fs)
                   (extracted scenario_fs).2 (py "氵")
                   (Usage.mk 1 {[ py "basic" ]} [py "汽车"])))
           (py "Levels") []) = true
      ↔ level ∈ Usage.levels usage.
Proof.
  apply (substring_test_is_level_membership scenario_globals scenario_fs
           (loaded scenario_fs) (extracted scenario_fs).1
           (extracted scenario_fs).2).
  - vm_compute. reflexivity.
  - vm_compute. right. left.
Defined.

(** ** Missing and unreadable input files *)

Lemma os_path_exists_true fs path f :
  fs !! path = Some f → os_path_exists fs path = true.
Proof. intros H. unfold os_path_exists. apply bool_decide_eq_true. eauto. Qed.

Lemma extract_levels_unreadable fs ls st level :
  level ∈ ls → fs !! level_path level = Some Unreadable →
  ∃ e, for_each (extract_level fs) st ls = Raise e.
Proof.
  intros Hin Hlevel. revert st.
  induction ls as [|l ls IH]; intros st; [by apply elem_of_nil in Hin|].
  cbn [for_each]. destruct (extract_level fs st l) as [st1|e] eqn:E.
  - apply elem_of_cons in Hin as [->|Hin]; [|by apply IH].
    exfalso. unfold extract_level, read_csv in E.
    rewrite (os_path_exists_true _ _ _ Hlevel), Hlevel in E. done.
  - by exists e.
Qed.

Lemma radicals_path_fresh :
  radicals_path ≠ radicals_214_path ∧
  ∀ level, level ∈ levels → radicals_path ≠ level_path level.
Proof.
  split; [by vm_compute|]. intros level Hin. unfold levels in Hin.
  repeat (apply elem_of_cons in Hin as [->|Hin]);
    [by vm_compute ..|by apply elem_of_nil in Hin].
Qed.

Lemma level_paths_distinct :
  (∀ level, level ∈ levels → radicals_214_path ≠ level_path level) ∧
  (∀ l1 l2, l1 ∈ levels → l2 ∈ levels → l1 ≠ l2 →
            level_path l1 ≠ level_path l2).
Proof.
  unfold levels. split.
  - intros level Hin.
    repeat (apply elem_of_cons in Hin as [->|Hin]);
      [by vm_compute ..|by apply elem_of_nil in Hin].
  - intros l1 l2 H1 H2 Hne.
    repeat (apply elem_of_cons in H1 as [->|H1]);
      try (by apply elem_of_nil in H1);
      repeat (apply elem_of_cons in H2 as [->|H2]);
      try (by apply elem_of_nil in H2); try done; by vm_compute.
Qed.

Lemma extract_levels_absent_empty fs ls st level :
  fs !! level_path level = None →
  (∀ l, l ∈ ls → l ≠ level → level_path l ≠ level_path level) →
  for_each (extract_level (<[level_path level := Rows []]> fs)) st ls
  = for_each (extract_level fs) st ls.
Proof.
  intros Habsent. revert st.
  induction ls as [|l ls IH]; intros st Hls; [done|]. cbn [for_each].
  assert (extract_level (<[level_path level := Rows []]> fs) st l
          = extract_level fs st l) as ->.
  { unfold extract_level, os_path_exists, read_csv.
    destruct (decide (l = level)) as [->|Hne].
    - rewrite lookup_insert_eq, Habsent.
      rewrite bool_decide_eq_true_2 by eauto.
      rewrite bool_decide_eq_false_2 by (by intros [? ?]). done.
    - rewrite lookup_insert_ne; [done|].
      intros Heq. by apply (Hls l); [left| |]. }
  destruct (extract_level fs st l) as [st1|e]; [|done].
  cbn [mbind outcome_bind]. apply IH. intros l' Hl'. apply Hls. by right.
Qed.

(** C3, as the code has it: the run aborts, the file system untouched,
    when the reference table is absent or cannot be read, or when a level
    file exists and cannot be read.  A level file that is absent does not
    abort the run: the level is skipped, and the run goes as if the file
    were present and empty.  A run that ends normally has written the
    table derived from the level files that are present. *)
Theorem main_aborts_or_writes G fs :
  (fs !! radicals_214_path = None ∨
   fs !! radicals_214_path = Some Unreadable ∨
   (∃ level, level ∈ levels ∧ fs !! level_path level = Some Unreadable) →
   ∃ e, main G fs = (Raise e, fs)) ∧
  (∀ level, level ∈ levels → fs !! level_path level = None →
     main G (<[level_path level := Rows []]> fs)
     = ((main G fs).1, <[level_path level := Rows []]> (main G fs).2)) ∧
  (∀ fs', main G fs = (Ok (), fs') →
     fs' = <[radicals_path := Rows (row_of_entry <$> derived_table G fs)]> fs).
Proof.
  split_and!.
  - intros [H|[H|(level & Hin & Hlevel)]].
    + exists (FileNotFoundError radicals_214_path).
      unfold main, load_radicals_214, read_csv. by rewrite H.
    + exists (OSError radicals_214_path).
      unfold main, load_radicals_214, read_csv. by rewrite H.
    + unfold main. destruct (load_radicals_214 fs) as [t|e]; [|by exists e].
      destruct (extract_levels_unreadable fs levels ([], ∅) level Hin Hlevel)
        as [e He].
      exists e. unfold extract_radicals_from_vocab. rewrite He. done.
  - intros level Hin Habsent.
    destruct level_paths_distinct as [H214 Hdistinct].
    destruct radicals_path_fresh as [_ Hfresh].
    unfold main, load_radicals_214, read_csv, extract_radicals_from_vocab.
    rewrite (extract_levels_absent_empty fs levels _ level Habsent).
    2: { intros l Hl Hne. by apply Hdistinct. }
    rewrite lookup_insert_ne by (intros Heq; by apply (H214 level)).
    destruct (fs !! radicals_214_path) as [[|rows]|]; try done.
    cbn [mbind outcome_bind].
    destruct (for_each load_row ∅ rows) as [t|e]; [|done].
    cbn [mbind outcome_bind].
    destruct (for_each (extract_level fs) ([], ∅) levels) as [[u lk]|e];
      [|done].
    cbn [mbind outcome_bind]. unfold write_radicals_csv.
    rewrite lookup_insert_ne by (intros Heq; by apply (Hfresh level)).
    destruct (fs !! radicals_path) as [[|old]|]; cbn [fst snd]; try done.
    + f_equal. apply insert_insert_ne. intros Heq. by apply (Hfresh level).
    + f_equal. apply insert_insert_ne. intros Heq. by apply (Hfresh level).
  - intros fs'. unfold derived_table, loaded, extracted, main.
    destruct (load_radicals_214 fs) as [t|e]; [|done].
    cbn [mbind outcome_bind].
    destruct (extract_radicals_from_vocab fs) as [[u lk]|e]; [|done].
    cbn [mbind outcome_bind]. unfold write_radicals_csv.
    destruct (fs !! radicals_path) as [[|old]|]; by intros [= <-].
Qed.

Lemma main_aborts_or_writes_witness :
  (∃ e, main module_globals (delete radicals_214_path scenario_fs)
        = (Raise e, delete radicals_214_path scenario_fs)) ∧
  main module_globals (<[level_path (py "advanced") := Rows []]> scenario_fs)
  = ((main module_globals scenario_fs).1,
     <[level_path (py "advanced") := Rows []]>
       (main module_globals scenario_fs).2) ∧
  (main module_globals scenario_fs).2
  = <[radicals_path :=
        Rows (row_of_entry <$> derived_table module_globals scenario_fs)]>
      scenario_fs.
Proof.
  split_and!.
  - apply (main_aborts_or_writes module_globals
             (delete radicals_214_path scenario_fs)).
    left. vm_compute. reflexivity.
  - apply (main_aborts_or_writes module_globals scenario_fs).
    + by right; right; left.
    + vm_compute. reflexivity.
  - apply (main_aborts_or_writes module_globals scenario_fs).
    vm_compute. reflexivity.
Defined.

(** C3 as stated fails: in the scenario the level files [intermediate.csv]
    and [advanced.csv] are absent, and the run still ends normally and
    writes a derived table of three rows. *)
Lemma absent_level_does_not_abort :
  py "advanced" ∈ levels ∧
  scenario_fs !! level_path (py "advanced") = None ∧
  scenario_fs !! radicals_path = None ∧
  (main module_globals scenario_fs).1 = Ok () ∧
  (main module_globals scenario_fs).2 !! radicals_path
  = Some (Rows (row_of_entry <$> derived_table module_globals scenario_fs)) ∧
  length (derived_table module_globals scenario_fs) = 3%nat.
Proof.
  split; [by right; right; left|]. split_and!; vm_compute; reflexivity.
Qed.

(** ** The end-to-end scenario *)

(** C8 as stated fails on the description of 氵: the reference table of the
    scenario has no row for 水, so the entry is built by the branch for a
    variant without a match, whose description is [variant of 水]; it does
    not contain [variant form]. *)
Lemma scenario_variant_description :
  ∃ e, derived_table scenario_globals scenario_fs !! 1%nat = Some e ∧
       Entry.Radical e = py "氵" ∧ Entry.Set_ e = py "variant" ∧
       Entry.MainRadical e = Some (py "水") ∧
       Entry.Description e = py "variant of 水" ∧
       contains (py "variant form") (Entry.Description e) = false.
Proof. eexists. vm_compute. done. Qed.

(** C8, as the code has it: in the scenario the usage map has the three
    glyphs, each used once by 汽车 at level basic; the derived table is 气
    (canonical), 氵 (variant of 水, with no reading, the description
    [variant of 水] and the gloss [component form]) and 车 (component, chē,
    vehicle), each with the level list [basic] and the count 1; the builder
    writes it; and check 3 of the validator finds no missing radical and
    no wrong level in the three references of the level basic. *)
Theorem scenario_derived_table :
  extract_radicals_from_vocab scenario_fs
  = Ok ([(py "氵", Usage.mk 1 {[ py "basic" ]} [py "汽车"]);
         (py "气", Usage.mk 1 {[ py "basic" ]} [py "汽车"]);
         (py "车", Usage.mk 1 {[ py "basic" ]} [py "汽车"])],
        {[ py "汽车" := Vocab.mk [] [] ]}) ∧
  derived_table scenario_globals scenario_fs
  = [Entry.mk (py "气") (py "qì") (py "steam/air radical") (py "air")
       (py "kangxi_214") None (py "basic") 1 (py "气");
     Entry.mk (py "氵") [] (py "variant of 水") (py "component form")
       (py "variant") (Some (py "水")) (py "basic") 1 (py "氵");
     Entry.mk (py "车") (py "chē") (py "common character component")
       (py "vehicle") (py "component") None (py "basic") 1 (py "车")] ∧
  main scenario_globals scenario_fs
  = (Ok (),
     <[radicals_path :=
         Rows (row_of_entry <$> derived_table scenario_globals scenario_fs)]>
       scenario_fs) ∧
  (rows ← read_csv scenario_written Verify.path_radicals;
   for_each Verify.add_row ∅ rows) = Ok (radicals_map_of scenario_written) ∧
  Verify.check_rows (radicals_map_of scenario_written) (py "basic")
    scenario_basic = (∅, ∅, 3).
Proof. split_and!; vm_compute; reflexivity. Qed.

(** With the tables of the module itself the scenario differs in the gloss
    of 车 only. *)
Example scenario_module_globals :
  Entry.Meaning <$> derived_table module_globals scenario_fs
  = [py "air"; py "component form"; py "car; vehicle"] ∧
  Entry.Description <$> derived_table module_globals scenario_fs
  = Entry.Description <$> derived_table scenario_globals scenario_fs.
Proof. split; vm_compute; reflexivity. Qed.

(** ** The validator *)

Lemma check_rad_pieces radicals_map level st pieces :
  foldl (Verify.check_rad radicals_map level) st pieces
  = foldl (check_glyph radicals_map level) st
      (filter (λ rad, rad ≠ []) (strip <$> pieces)).
Proof.
  revert st. induction pieces as [|p pieces IH]; intros st; [done|].
  cbn [foldl fmap list_fmap]. rewrite IH, filter_cons.
  destruct st as [[m w] t]. unfold Verify.check_rad at 1.
  destruct (strip p) as [|c s] eqn:E; [done|].
  rewrite decide_True by done. reflexivity.
Qed.

Lemma check_row_glyphs radicals_map level st r :
  Verify.check_row radicals_map level st r
  = foldl (check_glyph radicals_map level) st (decomposition r).
Proof.
  unfold Verify.check_row.
  destruct (truthy (get r (py "Radicals") [])) eqn:E; simpl.
  - apply check_rad_pieces.
  - by rewrite (decomposition_empty r E).
Qed.

Lemma check_rows_glyphs radicals_map level rows st :
  foldl (Verify.check_row radicals_map level) st rows
  = foldl (check_glyph radicals_map level) st (rows ≫= decomposition).
Proof.
  revert st. induction rows as [|r rows IH]; intros st; [done|].
  rewrite bind_cons, foldl_app. cbn [foldl].
  by rewrite IH, check_row_glyphs.
Qed.

Lemma check_glyph_missing radicals_map level st x g :
  g ∈ (check_glyph radicals_map level st x).1.1
  ↔ g ∈ st.1.1 ∨ (g = x ∧ radicals_map !! x = None).
Proof.
  unfold check_glyph. destruct (radicals_map !! x) as [r|] eqn:E.
  - destruct (negb _); simpl; (split; [auto | intros [?|[_ ?]]; done]).
  - simpl. rewrite elem_of_union, elem_of_singleton.
    split; [intros [->|?]; auto | intros [?|[-> _]]; auto].
Qed.

Lemma check_glyph_wrong radicals_map level st x g :
  g ∈ (check_glyph radicals_map level st x).1.2
  ↔ g ∈ st.1.2 ∨
    (g = x ∧ ∃ r, radicals_map !! x = Some r ∧
                  contains level (get r (py "Levels") []) = false).
Proof.
  unfold check_glyph. destruct (radicals_map !! x) as [r|] eqn:E.
  - destruct (contains level (get r (py "Levels") [])) eqn:F; simpl.
    + split; [auto|]. intros [?|(_ & r0 & [= <-] & F')]; [done | congruence].
    + rewrite elem_of_union, elem_of_singleton. split.
      * intros [->|?]; [|by left]. right. split; [done|]. by exists r.
      * intros [?|[-> _]]; auto.
  - simpl. split; [auto|]. intros [?|(_ & r0 & ? & _)]; done.
Qed.

Lemma check_glyphs_missing radicals_map level gs st g :
  g ∈ (foldl (check_glyph radicals_map level) st gs).1.1
  ↔ g ∈ st.1.1 ∨ (g ∈ gs ∧ radicals_map !! g = None).
Proof.
  revert st. induction gs as [|x gs IH]; intros st; cbn [foldl].
  - split; [auto|]. intros [?|[H _]]; [done | by apply elem_of_nil in H].
  - rewrite IH, check_glyph_missing, elem_of_cons. split.
    + intros [[?|[-> ?]]|[? ?]]; auto.
    + intros [?|[[->|?] ?]]; auto.
Qed.

Lemma check_glyphs_wrong radicals_map level gs st g :
  g ∈ (foldl (check_glyph radicals_map level) st gs).1.2
  ↔ g ∈ st.1.2 ∨
    (g ∈ gs ∧ ∃ r, radicals_map !! g = Some r ∧
                   contains level (get r (py "Levels") []) = false).
Proof.
  revert st. induction gs as [|x gs IH]; intros st; cbn [foldl].
  - split; [auto|]. intros [?|[H _]]; [done | by apply elem_of_nil in H].
  - rewrite IH, check_glyph_wrong, elem_of_cons. split.
    + intros [[?|[-> ?]]|[? ?]]; auto.
    + intros [?|[[->|?] ?]]; auto.
Qed.

Lemma elem_of_bind_decomposition (rows : list row) g :
  g ∈ rows ≫= decomposition ↔ ∃ r, r ∈ rows ∧ g ∈ decomposition r.
Proof.
  rewrite list_elem_of_bind. split; intros (r & ? & ?); by exists r.
Qed.



Lemma check_1_frame fs errors warnings st' :
  Verify.check_1 fs (errors, warnings) = Ok st' →
  ∃ e1 w1, Verify.check_1 fs ([], []) = Ok (e1, w1) ∧
           st' = (errors ++ e1, warnings ++ w1).
Proof.
  unfold Verify.check_1.
  destruct (os_path_exists fs Verify.path_214); simpl.
  - destruct (read_csv fs Verify.path_214) as [rows|e]; cbn; [|done].
    destruct (mapM (λ r : row, getitem r (py "Radical")) rows)
      as [radicals|e]; cbn; [|done].
    intros [= <-]. eexists _, _. split; [reflexivity|].
    repeat case_bool_decide; by rewrite ?app_nil_r.
  - intros [= <-]. eexists _, _. split; [reflexivity|].
    by rewrite app_nil_r.
Qed.


Lemma check_level_Ok fs radicals_map errors warnings level st' :
  Verify.check_level fs radicals_map (errors, warnings) level = Ok st' →
  ∃ e3, st'.1 = errors ++ e3 ∧
    (e3 = [] ↔
     ∀ rows, fs !! level_path level = Some (Rows rows) →
       (Verify.check_rows radicals_map level rows).1.1 = ∅ ∧
       (Verify.check_rows radicals_map level rows).1.2 = ∅).
Proof.
  unfold Verify.check_level, read_csv.
  destruct (fs !! level_path level) as [[|rows]|] eqn:E.
  - rewrite (os_path_exists_true _ _ _ E). done.
  - rewrite (os_path_exists_true _ _ _ E). cbn.
    destruct (Verify.check_rows radicals_map level rows) as [[m w] t] eqn:F.
    intros [= <-]. cbn [fst snd].
    assert ((∀ rows0, Some (Rows rows) = Some (Rows rows0) →
               (Verify.check_rows radicals_map level rows0).1.1 = ∅ ∧
               (Verify.check_rows radicals_map level rows0).1.2 = ∅)
            ↔ m = ∅ ∧ w = ∅) as Hiff.
    { split.
      - intros H. destruct (H rows eq_refl) as [H1 H2].
        by rewrite F in H1, H2.
      - intros [-> ->] rows0 [= <-]. by rewrite F. }
    destruct (decide (m = ∅)) as [Hm|Hm], (decide (w = ∅)) as [Hw|Hw].
    + exists []. rewrite !bool_decide_eq_false_2 by auto.
      split; [by rewrite app_nil_r|].
      split; [intros _; by apply Hiff | done].
    + exists [Verify.DontListLevel level w].
      rewrite bool_decide_eq_true_2, bool_decide_eq_false_2 by auto.
      split; [done|]. split; [done|]. intros H. by apply Hiff in H as [? ?].
    + exists [Verify.NotInRadicals level m].
      rewrite bool_decide_eq_false_2, bool_decide_eq_true_2 by auto.
      split; [done|]. split; [done|]. intros H. by apply Hiff in H as [? ?].
    + exists [Verify.NotInRadicals level m; Verify.DontListLevel level w].
      rewrite !bool_decide_eq_true_2 by auto.
      split; [by rewrite <- app_assoc|]. split; [done|].
      intros H. by apply Hiff in H as [? ?].
  - apply os_path_exists_false in E as E'. rewrite E'. cbn.
    intros [= <-]. exists []. split; [by rewrite app_nil_r|].
    split; [|done]. intros _ rows. done.
Qed.

Lemma check_levels_errors fs radicals_map ls errors warnings st' :
  for_each (Verify.check_level fs radicals_map) (errors, warnings) ls
  = Ok st' →
  ∃ e3, st'.1 = errors ++ e3 ∧
    (e3 = [] ↔
     ∀ level rows, level ∈ ls → fs !! level_path level = Some (Rows rows) →
       (Verify.check_rows radicals_map level rows).1.1 = ∅ ∧
       (Verify.check_rows radicals_map level rows).1.2 = ∅).
Proof.
  revert errors warnings.
  induction ls as [|l ls IH]; intros errors warnings; cbn [for_each].
  - intros [= <-]. exists []. split; [by rewrite app_nil_r|].
    split; [|done]. intros _ level rows H. by apply elem_of_nil in H.
  - destruct (Verify.check_level fs radicals_map (errors, warnings) l)
      as [[errors1 warnings1]|e] eqn:E; cbn; [|done].
    intros H. apply check_level_Ok in E as (a & Ha & Hempty).
    apply IH in H as (b & Hb & Hempty'). simpl in Ha. subst errors1.
    exists (a ++ b). split; [by rewrite app_assoc|].
    rewrite app_nil, Hempty, Hempty'. split.
    + intros [H1 H2] level rows Hin Hfs.
      apply elem_of_cons in Hin as [->|Hin]; [by apply H1 | by apply H2].
    + intros H. split.
      * intros rows. apply H. left.
      * intros level rows Hin. apply H. by right.
Qed.

Lemma check_rows_findings radicals_map level rows g :
  (g ∈ (Verify.check_rows radicals_map level rows).1.1 ↔
   (∃ r, r ∈ rows ∧ g ∈ decomposition r) ∧ radicals_map !! g = None) ∧
  (g ∈ (Verify.check_rows radicals_map level rows).1.2 ↔
   (∃ r, r ∈ rows ∧ g ∈ decomposition r) ∧
   ∃ e, radicals_map !! g = Some e ∧
        contains level (get e (py "Levels") []) = false).
Proof.
  unfold Verify.check_rows.
  rewrite check_rows_glyphs, check_glyphs_missing, check_glyphs_wrong.
  rewrite elem_of_bind_decomposition. cbn [fst snd]. split.
  - split; [|auto]. intros [H|?]; [|done]. by apply elem_of_empty in H.
  - split; [|auto]. intros [H|?]; [|done]. by apply elem_of_empty in H.
Qed.










(** * Further properties of the builder *)

(** ** The word lookup *)

Lemma extract_row_lookup level d lk r :
  (extract_row level (d, lk) r).2 = add_word lk r.
Proof.
  unfold extract_row, add_word.
  by destruct (negb (truthy (get r (py "Radicals") []))).
Qed.

Lemma extract_rows_lookup level rows d lk :
  (foldl (extract_row level) (d, lk) rows).2 = foldl add_word lk rows.
Proof.
  revert d lk. induction rows as [|r rows IH]; intros d lk; [done|].
  cbn [foldl]. destruct (extract_row level (d, lk) r) as [d' lk'] eqn:E.
  rewrite IH. f_equal. by rewrite <- (extract_row_lookup level d lk r), E.
Qed.

Lemma extract_level_lookup fs level st st' :
  extract_level fs st level = Ok st' →
  st'.2 = foldl add_word st.2 (level_rows fs level).
Proof.
  unfold extract_level, level_rows, read_csv.
  destruct (os_path_exists fs (level_path level)) eqn:E; simpl.
  - destruct (fs !! level_path level) as [[|rows]|] eqn:F; simpl; try done.
    intros [= <-]. destruct st as [d lk]. apply extract_rows_lookup.
  - apply os_path_exists_false in E. rewrite E. by intros [= <-].
Qed.

Lemma extract_levels_lookup fs ls st st' :
  for_each (extract_level fs) st ls = Ok st' →
  st'.2 = foldl add_word st.2 (ls ≫= level_rows fs).
Proof.
  revert st. induction ls as [|level ls IH]; intros st.
  - by intros [= <-].
  - rewrite bind_cons, foldl_app. cbn [for_each].
    destruct (extract_level fs st level) as [st1|e] eqn:E; [|done].
    intros H. by rewrite (IH _ H), (extract_level_lookup _ _ _ _ E).
Qed.

Lemma add_words_lookup rows lk w :
  foldl add_word lk rows !! w
  = match lk !! w with
    | Some v => Some v
    | None =>
      if decide (w = []) then None
      else (λ r, Vocab.mk (get r (py "Pinyin") []) (get r (py "English") []))
             <$> first_row_of_word w rows
    end.
Proof.
  revert lk. induction rows as [|r rows IH]; intros lk; cbn [foldl].
  - destruct (lk !! w); [done|]. by destruct (decide (w = [])).
  - rewrite IH. unfold add_word at 1, first_row_of_word.
    rewrite filter_cons.
    destruct (get r (py "Word") []) as [|c word] eqn:Hw; cbn [truthy andb].
    + destruct (lk !! w); [done|].
      destruct (decide (w = [])) as [->|Hne]; [done|].
      rewrite decide_False by done. done.
    + case_bool_decide as Hlk.
      * destruct (decide (c :: word = w)) as [<-|Hne].
        -- rewrite lookup_insert_eq, Hlk. rewrite decide_False by done. done.
        -- rewrite lookup_insert_ne by done. done.
      * destruct (decide (c :: word = w)) as [<-|Hne]; [|done].
        destruct (lk !! (c :: word)); done.
Qed.

(** X1: the lookup of a word holds the reading and the gloss of the first
    vocabulary row of that word, in the order of the levels and of the
    rows; the empty word is never a key. *)
Theorem vocab_lookup_first_wins fs radical_usage vocab_lookup w :
  extract_radicals_from_vocab fs = Ok (radical_usage, vocab_lookup) →
  vocab_lookup !! w
  = if decide (w = []) then None
    else (λ r, Vocab.mk (get r (py "Pinyin") []) (get r (py "English") []))
           <$> first_row_of_word w (vocabulary_rows fs).
Proof.
  intros H. apply extract_levels_lookup in H. simpl in H. rewrite H.
  rewrite add_words_lookup, lookup_empty. done.
Qed.

Lemma vocab_lookup_first_wins_witness :
  (extracted two_level_fs).2 !! py "车"
  = Some (Vocab.mk (py "chē") (py "vehicle")) ∧
  (extracted two_level_fs).2 !! [] = None.
Proof.
  split.
  - rewrite (vocab_lookup_first_wins two_level_fs (extracted two_level_fs).1
               (extracted two_level_fs).2 (py "车")).
    + vm_compute. reflexivity.
    + vm_compute. reflexivity.
  - rewrite (vocab_lookup_first_wins two_level_fs (extracted two_level_fs).1
               (extracted two_level_fs).2 []).
    + reflexivity.
    + vm_compute. reflexivity.
Defined.

(** ** Levels, example words and counts of a usage record *)

Lemma usage_of_uses fs radical_usage vocab_lookup g usage :
  extract_radicals_from_vocab fs = Ok (radical_usage, vocab_lookup) →
  usage_of radical_usage g = Some usage →
  uses_of g (occurrences fs) ≠ [] ∧
  usage = Usage.mk (N.of_nat (length (uses_of g (occurrences fs))))
            (list_to_set (occ_level <$> uses_of g (occurrences fs)))
            (take 5 (occ_word <$> uses_of g (occurrences fs))).
Proof.
  intros H Hu. rewrite (extract_usage _ _ _ H), usage_of_occurrences in Hu.
  destruct (uses_of g (occurrences fs)) as [|u us]; [done|].
  split; [done|]. by injection Hu as <-.
Qed.

(** X2: the level set of the record of a glyph holds exactly the levels whose
    file has a row with the glyph in its decomposition. *)
Theorem usage_levels_are_levels_of_use fs radical_usage vocab_lookup g usage
    level :
  extract_radicals_from_vocab fs = Ok (radical_usage, vocab_lookup) →
  usage_of radical_usage g = Some usage →
  level ∈ Usage.levels usage ↔
  level ∈ levels ∧
  ∃ rows r, fs !! level_path level = Some (Rows rows) ∧ r ∈ rows ∧
            g ∈ decomposition r.
Proof.
  intros H Hu. destruct (usage_of_uses _ _ _ _ _ H Hu) as [_ ->].
  cbn [Usage.levels]. rewrite elem_of_list_to_set, list_elem_of_fmap.
  unfold uses_of. split.
  - intros (o & -> & Ho). apply list_elem_of_filter in Ho as [<- Ho].
    apply elem_of_occurrences in Ho as (Hl & rows & r & Hfs & Hr & _ & Hg).
    split; [done|]. by exists rows, r.
  - intros (Hl & rows & r & Hfs & Hr & Hg).
    exists (Occ level (get r (py "Word") []) g). split; [done|].
    apply list_elem_of_filter. split; [done|].
    apply elem_of_occurrences. split; [done|]. by exists rows, r.
Qed.

Lemma usage_levels_are_levels_of_use_witness :
  usage_of (extracted two_level_fs).1 (py "车")
  = Some (Usage.mk 2 {[ py "basic"; py "intermediate" ]} [py "汽车"; py "车"]) ∧
  (py "advanced" ∈ ({[ py "basic"; py "intermediate" ]} : gset (list N))
   ↔ py "advanced" ∈ levels ∧
     ∃ rows r, two_level_fs !! level_path (py "advanced") = Some (Rows rows) ∧
               r ∈ rows ∧ py "车" ∈ decomposition r).
Proof.
  split; [vm_compute; reflexivity|].
  refine (usage_levels_are_levels_of_use two_level_fs
            (extracted two_level_fs).1 (extracted two_level_fs).2 (py "车")
            (Usage.mk 2 {[ py "basic"; py "intermediate" ]} [py "汽车"; py "车"])
            (py "advanced") _ _).
  - vm_compute. reflexivity.
  - vm_compute. reflexivity.
Defined.

(** X3: the record of a glyph has a positive count and lists
    [min 5 count] example words, each the word of a row that has the glyph
    in its decomposition. *)
Theorem usage_words_bounded fs radical_usage vocab_lookup g usage :
  extract_radicals_from_vocab fs = Ok (radical_usage, vocab_lookup) →
  usage_of radical_usage g = Some usage →
  0 < Usage.count usage ∧
  length (Usage.words usage) = (5 `min` N.to_nat (Usage.count usage))%nat ∧
  ∀ w, w ∈ Usage.words usage →
    ∃ level rows r, level ∈ levels ∧
      fs !! level_path level = Some (Rows rows) ∧ r ∈ rows ∧
      get r (py "Word") [] = w ∧ g ∈ decomposition r.
Proof.
  intros H Hu. destruct (usage_of_uses _ _ _ _ _ H Hu) as [Hne ->].
  cbn [Usage.count Usage.words]. split_and!.
  - destruct (uses_of g (occurrences fs)); [done|]. simpl. lia.
  - rewrite length_take, length_fmap, Nat2N.id. done.
  - intros w Hw. apply elem_of_take in Hw as (i & Hw & _).
    apply list_elem_of_lookup_2 in Hw.
    apply list_elem_of_fmap in Hw as (o & -> & Ho).
    apply list_elem_of_filter in Ho as [<- Ho].
    apply elem_of_occurrences in Ho as (Hl & rows & r & Hfs & Hr & Hw & Hg).
    by exists (occ_level o), rows, r.
Qed.

Lemma usage_words_bounded_witness :
  usage_of (extracted two_level_fs).1 (py "木")
  = Some (Usage.mk 7 {[ py "intermediate" ]}
            [py "森林"; py "森林"; py "森林"; py "森林"; py "森林"]) ∧
  length [py "森林"; py "森林"; py "森林"; py "森林"; py "森林"]
  = (5 `min` N.to_nat 7)%nat.
Proof.
  split; [vm_compute; reflexivity|].
  apply (usage_words_bounded two_level_fs (extracted two_level_fs).1
           (extracted two_level_fs).2 (py "木")
           (Usage.mk 7 {[ py "intermediate" ]}
              [py "森林"; py "森林"; py "森林"; py "森林"; py "森林"])).
  - vm_compute. reflexivity.
  - vm_compute. reflexivity.
Defined.

(** ** Counts add up *)

Lemma sum_counts_update rad level word d :
  sum_counts (update rad (use level word) d) = S (sum_counts d).
Proof.
  unfold sum_counts. induction d as [|[k u] d IH]; cbn [update].
  - cbn. lia.
  - destruct (decide (k = rad)) as [->|Hne]; rewrite !fmap_cons; cbn.
    + lia.
    + unfold sum_list in *. rewrite IH. lia.
Qed.

Lemma sum_counts_occurrences occs :
  sum_counts (foldl record_occurrence [] occs) = length occs.
Proof.
  induction occs as [|o occs IH] using rev_ind; [done|].
  rewrite foldl_app, length_app. cbn [foldl]. unfold record_occurrence at 1.
  rewrite sum_counts_update, IH. simpl. lia.
Qed.

Lemma check_glyphs_total radicals_map level gs st :
  (foldl (check_glyph radicals_map level) st gs).2
  = st.2 + N.of_nat (length gs).
Proof.
  revert st. induction gs as [|g gs IH]; intros st; cbn [foldl length].
  - lia.
  - rewrite IH. unfold check_glyph.
    destruct (radicals_map !! g); [destruct (negb _)|]; cbn [snd]; lia.
Qed.

Lemma occurrences_length fs :
  length (occurrences fs)
  = sum_list ((λ level, length (level_rows fs level ≫= decomposition))
                <$> levels).
Proof.
  unfold occurrences.
  assert (∀ ls, length (ls ≫= level_occurrences fs)
                = sum_list ((λ level,
                    length (level_rows fs level ≫= decomposition)) <$> ls))
    as H; [|apply H].
  induction ls as [|level ls IH]; [done|].
  rewrite bind_cons, length_app, fmap_cons, IH. cbn. f_equal.
  unfold level_occurrences, level_rows.
  destruct (fs !! level_path level) as [[|rows]|]; try done.
  induction rows as [|r rows IHr]; [done|].
  rewrite !bind_cons, !length_app, IHr. f_equal.
  unfold row_occurrences. by rewrite length_fmap.
Qed.

(** X4: the usage counts of the derived table add up to the number of glyph
    references in the level files, which is also the sum, over the levels,
    of the references the validator counts in the file of the level
    ([total_radicals]), whatever derived table it checks them against. *)
Theorem usage_counts_add_up G fs radicals_214 radical_usage vocab_lookup
    radicals_map :
  extract_radicals_from_vocab fs = Ok (radical_usage, vocab_lookup) →
  let derived :=
    sort_radicals
      (build_custom_radicals G radicals_214 radical_usage vocab_lookup) in
  sum_list ((λ e, N.to_nat (Entry.UsageCount e)) <$> derived)
  = length (occurrences fs) ∧
  sum_list ((λ e, N.to_nat (Entry.UsageCount e)) <$> derived)
  = sum_list ((λ level,
       N.to_nat (Verify.check_rows radicals_map level (level_rows fs level)).2)
       <$> levels).
Proof.
  intros H derived.
  assert (sum_list ((λ e, N.to_nat (Entry.UsageCount e)) <$> derived)
          = length (occurrences fs)) as Hsum.
  { unfold derived. rewrite sort_radicals_Permutation.
    unfold build_custom_radicals. rewrite <- list_fmap_compose.
    rewrite <- sum_counts_occurrences, <- (extract_usage _ _ _ H).
    unfold sum_counts. f_equal. apply list_fmap_ext. intros _ [rad usage] _.
    simpl. by rewrite build_entry_UsageCount. }
  split; [done|]. rewrite Hsum, occurrences_length. f_equal.
  apply list_fmap_ext. intros _ level _. unfold Verify.check_rows.
  rewrite check_rows_glyphs, check_glyphs_total. simpl. lia.
Qed.

Lemma usage_counts_add_up_witness :
  sum_list ((λ e, N.to_nat (Entry.UsageCount e))
              <$> derived_table module_globals two_level_fs) = 11%nat ∧
  length (occurrences two_level_fs) = 11%nat.
Proof.
  destruct (usage_counts_add_up module_globals two_level_fs
              (loaded two_level_fs) (extracted two_level_fs).1
              (extracted two_level_fs).2 ∅) as [Hsum _].
  - vm_compute. reflexivity.
  - split; [|vm_compute; reflexivity].
    unfold derived_table. rewrite Hsum. vm_compute. reflexivity.
Defined.

(** ** The run depends on its input files only *)

Lemma extract_levels_ext fs1 fs2 ls st :
  (∀ level, level ∈ ls → fs1 !! level_path level = fs2 !! level_path level) →
  for_each (extract_level fs1) st ls = for_each (extract_level fs2) st ls.
Proof.
  revert st. induction ls as [|level ls IH]; intros st Hls; [done|].
  cbn [for_each].
  assert (extract_level fs1 st level = extract_level fs2 st level) as ->.
  { unfold extract_level, os_path_exists, read_csv.
    rewrite (Hls level); [done | left]. }
  destruct (extract_level fs2 st level) as [st1|e]; [|done].
  cbn [mbind outcome_bind]. apply IH. intros l Hl. apply Hls. by right.
Qed.

Lemma main_Ok G fs fs' :
  main G fs = (Ok (), fs') →
  ∃ radicals_214 radical_usage vocab_lookup,
    load_radicals_214 fs = Ok radicals_214 ∧
    extract_radicals_from_vocab fs = Ok (radical_usage, vocab_lookup) ∧
    fs' = <[radicals_path :=
              Rows (row_of_entry <$>
                      sort_radicals
                        (build_custom_radicals G radicals_214 radical_usage
                           vocab_lookup))]> fs.
Proof.
  unfold main. destruct (load_radicals_214 fs) as [t|e]; [|done].
  cbn [mbind outcome_bind].
  destruct (extract_radicals_from_vocab fs) as [[u lk]|e]; [|done].
  cbn [mbind outcome_bind]. unfold write_radicals_csv.
  destruct (fs !! radicals_path) as [[|old]|]; [done| |];
    intros [= <-]; by exists t, u, lk.
Qed.

Lemma loads_ignore_radicals_csv fs f :
  load_radicals_214 (<[radicals_path := f]> fs) = load_radicals_214 fs ∧
  extract_radicals_from_vocab (<[radicals_path := f]> fs)
  = extract_radicals_from_vocab fs.
Proof.
  destruct radicals_path_fresh as [H214 Hlevels]. split.
  - unfold load_radicals_214, read_csv. by rewrite lookup_insert_ne.
  - unfold extract_radicals_from_vocab. apply extract_levels_ext.
    intros level Hin. apply lookup_insert_ne. by apply Hlevels.
Qed.

(** X5: the derived table is regenerated from the reference table and the
    level files alone: two runs that end normally on file systems that
    differ only in the previous content of [radicals.csv] leave the same
    file system, and a second run on the result of a run that ended
    normally ends normally and changes nothing. *)
Theorem main_regenerates G fs fs' :
  main G fs = (Ok (), fs') →
  (∀ old fs'', main G (<[radicals_path := old]> fs) = (Ok (), fs'') →
               fs'' = fs') ∧
  main G fs' = (Ok (), fs').
Proof.
  intros (t & u & lk & Hload & Hextract & ->)%main_Ok. split.
  - intros old fs'' (t' & u' & lk' & Hload' & Hextract' & ->)%main_Ok.
    destruct (loads_ignore_radicals_csv fs old) as [E1 E2].
    rewrite E1, Hload in Hload'. rewrite E2, Hextract in Hextract'.
    injection Hload' as <-. injection Hextract' as <- <-.
    apply insert_insert_eq.
  - unfold main.
    destruct (loads_ignore_radicals_csv fs
                (Rows (row_of_entry <$>
                         sort_radicals (build_custom_radicals G t u lk))))
      as [-> ->].
    rewrite Hload, Hextract. cbn [mbind outcome_bind].
    unfold write_radicals_csv. rewrite lookup_insert_eq.
    by rewrite insert_insert_eq.
Qed.

Lemma main_regenerates_witness :
  (main scenario_globals (<[radicals_path := Rows [∅]]> scenario_fs)).2
  = scenario_written ∧
  main scenario_globals scenario_written = (Ok (), scenario_written).
Proof.
  destruct (main_regenerates scenario_globals scenario_fs scenario_written)
    as [Hold Hagain].
  - vm_compute. reflexivity.
  - split; [|exact Hagain]. apply (Hold (Rows [∅])). vm_compute. reflexivity.
Defined.

(** ** The order of first use does not matter *)

Lemma sorted_permutation_unique {A} (R : A → A → Prop) (l1 l2 : list A) :
  (∀ a b, a ∈ l1 → b ∈ l1 → R a b → R b a → a = b) →
  StronglySorted R l1 → StronglySorted R l2 → l1 ≡ₚ l2 → l1 = l2.
Proof.
  intros Hanti H1. revert l2.
  induction H1 as [|x l1 H1 IH Hx]; intros l2 H2 Hperm.
  - by apply Permutation_nil_l in Hperm.
  - destruct H2 as [|y l2 H2 Hy].
    { by apply Permutation_nil_r in Hperm. }
    rewrite Forall_forall in Hx, Hy.
    assert (x = y) as ->.
    { assert (x ∈ y :: l2) as Hxy by (rewrite <- Hperm; left).
      assert (y ∈ x :: l1) as Hyx by (rewrite Hperm; left).
      apply elem_of_cons in Hxy as [?|Hxy]; [done|].
      apply elem_of_cons in Hyx as [?|Hyx]; [done|].
      apply Hanti; [left | by right | by apply Hx | by apply Hy]. }
    f_equal. apply IH; [|done|by apply Permutation_cons_inv in Hperm].
    intros a b Ha Hb. apply Hanti; by right.
Qed.

(** X6: the derived table does not depend on the order in which the glyphs
    were first met: two usage maps with the same items, in any order, give
    the same sorted table. *)
Theorem derived_table_order_independent G fs radicals_214 vocab_lookup
    (usage1 usage2 : list (list N * Usage.t)) :
  load_radicals_214 fs = Ok radicals_214 →
  NoDup usage1.*1 → usage1 ≡ₚ usage2 →
  sort_radicals (build_custom_radicals G radicals_214 usage1 vocab_lookup)
  = sort_radicals (build_custom_radicals G radicals_214 usage2 vocab_lookup).
Proof.
  intros Hload Hnodup Hperm.
  apply (sorted_permutation_unique
           (λ a b, key_leb (sort_key a) (sort_key b) = true)).
  - intros a b Ha Hb Hab Hba.
    assert (NoDup (Entry.Radical <$> sort_radicals
              (build_custom_radicals G radicals_214 usage1 vocab_lookup)))
      as Hkeys.
    { rewrite sort_radicals_Permutation.
      by rewrite (build_custom_radicals_Radical _ _ _ _ _ Hload). }
    apply (NoDup_fmap_inj_on _ _ _ _ Hkeys Ha Hb).
    apply key_leb_spec in Hab as [Hab|Hab]; [|unfold sort_key in Hab; congruence].
    apply key_leb_spec in Hba as [Hba|Hba]; [|unfold sort_key in Hba; congruence].
    pose proof (key_ltb_trans _ _ _ Hab Hba) as F.
    by rewrite key_ltb_irrefl in F.
  - apply sort_radicals_StronglySorted.
  - apply sort_radicals_StronglySorted.
  - rewrite !sort_radicals_Permutation. unfold build_custom_radicals.
    by rewrite Hperm.
Qed.

Lemma derived_table_order_independent_witness :
  sort_radicals
    (build_custom_radicals scenario_globals (loaded scenario_fs)
       (reverse (extracted scenario_fs).1) (extracted scenario_fs).2)
  = derived_table scenario_globals scenario_fs.
Proof.
  symmetry.
  apply (derived_table_order_independent scenario_globals scenario_fs).
  - vm_compute. reflexivity.
  - apply (NoDup_fmap_1 (encode (A:=list N))). vm_compute.
    repeat constructor; rewrite ?list_elem_of_In; simpl; intuition congruence.
  - symmetry. apply reverse_Permutation.
Defined.

(** ** The validator on the table the builder writes *)

Lemma add_rows_written l m0 :
  for_each Verify.add_row m0 (row_of_entry <$> l)
  = Ok (written_map m0 l).
Proof.
  unfold written_map. revert m0. induction l as [|e l IH]; intros m0; [done|].
  rewrite fmap_cons. cbn [for_each foldl].
  assert (Verify.add_row m0 (row_of_entry e)
          = Ok (<[Entry.Radical e := row_of_entry e]> m0)) as ->; [done|].
  cbn [mbind outcome_bind]. apply IH.
Qed.

Lemma written_lookup l e :
  NoDup (Entry.Radical <$> l) → e ∈ l →
  written_map ∅ l
    !! Entry.Radical e = Some (row_of_entry e).
Proof.
  unfold written_map.
  induction l as [|x l IH] using rev_ind; [by intros _ ?%elem_of_nil|].
  rewrite fmap_app, foldl_app. cbn [foldl fmap list_fmap].
  intros [Hl [Hx _]]%NoDup_app [He|He%list_elem_of_singleton]%elem_of_app.
  - rewrite lookup_insert_ne; [by apply IH|].
    intros Heq. apply (Hx (Entry.Radical e)).
    + apply list_elem_of_fmap. by exists e.
    + rewrite Heq. left.
  - subst. apply lookup_insert_eq.
Qed.

Lemma written_lookup_is_Some l g :
  is_Some (written_map ∅ l !! g)
  ↔ g ∈ Entry.Radical <$> l.
Proof.
  unfold written_map. induction l as [|x l IH] using rev_ind.
  - cbn [foldl]. rewrite lookup_empty.
    split; [by intros [] | by intros ?%elem_of_nil].
  - rewrite fmap_app, foldl_app, elem_of_app. cbn [foldl fmap list_fmap].
    rewrite lookup_insert_is_Some, IH, list_elem_of_singleton. split.
    + intros [Heq|[_ ?]]; auto.
    + intros [?|Heq]; [|by left].
      destruct (decide (Entry.Radical x = g)); auto.
Qed.

Lemma contains_joined_levels usage level :
  Usage.levels usage ⊆ list_to_set levels → level ∈ levels →
  contains level (joined_levels usage) = true ↔ level ∈ Usage.levels usage.
Proof.
  intros Hsub Hlevel. unfold joined_levels.
  rewrite (sorted_levels_filter _ Hsub), !filter_cons, filter_nil.
  unfold levels in Hlevel.
  repeat (apply elem_of_cons in Hlevel as [->|Hlevel]);
    [| | | by apply elem_of_nil in Hlevel];
    repeat case_decide;
    match goal with
    | |- ?b = true ↔ _ =>
      let v := eval vm_compute in b in change b with v
    end; split; (done || (intros; done)).
Qed.

Lemma level_of_use fs radical_usage vocab_lookup g level rows r :
  extract_radicals_from_vocab fs = Ok (radical_usage, vocab_lookup) →
  level ∈ levels → fs !! level_path level = Some (Rows rows) → r ∈ rows →
  g ∈ decomposition r →
  ∃ usage, (g, usage) ∈ radical_usage ∧ level ∈ Usage.levels usage.
Proof.
  intros H Hlevel Hfs Hr Hg.
  assert (Occ level (get r (py "Word") []) g ∈ uses_of g (occurrences fs))
    as Huse.
  { apply list_elem_of_filter. split; [done|].
    apply elem_of_occurrences. split; [done|]. by exists rows, r. }
  pose proof (usage_of_occurrences (occurrences fs) g) as Hu.
  rewrite <- (extract_usage _ _ _ H) in Hu.
  destruct (uses_of g (occurrences fs)) as [|u us] eqn:E.
  { by apply elem_of_nil in Huse. }
  eexists. split; [by apply usage_of_Some_elem|].
  cbn [Usage.levels]. apply elem_of_list_to_set, list_elem_of_fmap.
  by eexists (Occ level (get r (py "Word") []) g).
Qed.

Lemma derived_findings_empty G fs radicals_214 radical_usage vocab_lookup
    level rows :
  load_radicals_214 fs = Ok radicals_214 →
  extract_radicals_from_vocab fs = Ok (radical_usage, vocab_lookup) →
  level ∈ levels → fs !! level_path level = Some (Rows rows) →
  let radicals_map :=
    written_map ∅
      (sort_radicals
         (build_custom_radicals G radicals_214 radical_usage vocab_lookup)) in
  (Verify.check_rows radicals_map level rows).1.1 = ∅ ∧
  (Verify.check_rows radicals_map level rows).1.2 = ∅.
Proof.
  intros Hload Hextract Hlevel Hfs radicals_map.
  pose proof (derived_Radical_NoDup G _ _ _ _ Hload Hextract) as Hnodup.
  assert (∀ g r, r ∈ rows → g ∈ decomposition r →
            ∃ usage, (g, usage) ∈ radical_usage ∧
              level ∈ Usage.levels usage ∧
              radicals_map !! g
              = Some (row_of_entry
                        (build_entry G radicals_214 vocab_lookup g usage)))
    as Hrow.
  { intros g r Hr Hg.
    destruct (level_of_use _ _ _ _ _ _ _ Hextract Hlevel Hfs Hr Hg)
      as (usage & Hin & Hl).
    exists usage. split; [done|]. split; [done|].
    assert (Entry.Radical (build_entry G radicals_214 vocab_lookup g usage)
            = g) as Hrad.
    { apply build_entry_Radical. intros x Hx.
      by destruct (load_radicals_214_invariant _ _ _ _ Hload Hx). }
    rewrite <- Hrad at 1. apply written_lookup; [done|].
    rewrite sort_radicals_Permutation. unfold build_custom_radicals.
    apply list_elem_of_fmap. by exists (g, usage). }
  split; apply elem_of_equiv_empty_L; intros g Hg.
  - apply check_rows_findings in Hg as [(r & Hr & Hgr) Hnone].
    destruct (Hrow g r Hr Hgr) as (usage & _ & _ & Hsome). congruence.
  - apply check_rows_findings in Hg as [(r & Hr & Hgr) (x & Hx & Hcontains)].
    destruct (Hrow g r Hr Hgr) as (usage & Hin & Hl & Hsome).
    rewrite Hsome in Hx. injection Hx as <-.
    rewrite row_of_entry_Levels, build_entry_Levels in Hcontains.
    apply (contains_joined_levels usage level) in Hl; [congruence| |done].
    by apply (extract_levels_known _ _ _ _ _ Hextract Hin).
Qed.

(** X7: after a run of the builder that ends normally, check 3 of the
    validator builds its map from the written table without raising and
    finds, in every level file, no missing radical and no radical that
    does not list the level. *)
Theorem build_then_check_3 G fs fs' :
  main G fs = (Ok (), fs') →
  (rows ← read_csv fs' Verify.path_radicals;
   for_each Verify.add_row ∅ rows) = Ok (radicals_map_of fs') ∧
  ∀ level rows, level ∈ levels → fs' !! level_path level = Some (Rows rows) →
    (Verify.check_rows (radicals_map_of fs') level rows).1.1 = ∅ ∧
    (Verify.check_rows (radicals_map_of fs') level rows).1.2 = ∅.
Proof.
  intros (t & u & lk & Hload & Hextract & ->)%main_Ok.
  assert ((rows ← read_csv
             (<[radicals_path :=
                  Rows (row_of_entry <$>
                          sort_radicals (build_custom_radicals G t u lk))]> fs)
             Verify.path_radicals;
           for_each Verify.add_row ∅ rows)
          = Ok (written_map ∅
                  (sort_radicals (build_custom_radicals G t u lk)))) as Hmap.
  { unfold read_csv, Verify.path_radicals. rewrite lookup_insert_eq.
    cbn [mbind outcome_bind]. apply add_rows_written. }
  unfold radicals_map_of. rewrite Hmap. split; [done|].
  intros level rows Hlevel Hfs.
  rewrite lookup_insert_ne in Hfs by (by apply radicals_path_fresh).
  by apply (derived_findings_empty G fs t u lk).
Qed.

Lemma build_then_check_3_witness :
  Verify.check_rows
    (radicals_map_of (main module_globals two_level_fs).2)
    (py "intermediate")
    (level_rows two_level_fs (py "intermediate")) = (∅, ∅, 8).
Proof.
  destruct (build_then_check_3 module_globals two_level_fs
              (main module_globals two_level_fs).2) as [_ Hfind].
  - vm_compute. reflexivity.
  - destruct (Hfind (py "intermediate")
                (level_rows two_level_fs (py "intermediate")))
      as [Hmissing Hwrong].
    + by right; left.
    + vm_compute. reflexivity.
    + destruct (Verify.check_rows _ _ _) as [[m w] t] eqn:E.
      simpl in Hmissing, Hwrong. subst. f_equal.
      assert (t = (Verify.check_rows
                     (radicals_map_of (main module_globals two_level_fs).2)
                     (py "intermediate")
                     (level_rows two_level_fs (py "intermediate"))).2) as ->.
      { by rewrite E. }
      vm_compute. reflexivity.
Defined.

Lemma load_rows_Radicals rows m m' :
  for_each load_row m rows = Ok m' →
  mapM (λ r : row, getitem r (py "Radical")) rows
  = Ok ((λ r, get r (py "Radical") []) <$> rows).
Proof.
  revert m. induction rows as [|r rows IH]; intros m; [done|].
  cbn [for_each]. destruct (load_row m r) as [m1|e] eqn:E; [|done].
  cbn [mbind outcome_bind]. intros H.
  apply load_row_Ok in E as (rad & Hrad & _).
  cbn [mapM].
  assert (getitem r (py "Radical") = Ok rad) as ->.
  { unfold getitem. by rewrite Hrad. }
  cbn [mbind outcome_bind]. rewrite (IH _ H).
  cbn [mbind outcome_bind]. rewrite fmap_cons. cbv beta.
  assert (get r (py "Radical") [] = rad) as ->; [|done].
  unfold get. by rewrite Hrad.
Qed.

Lemma extract_levels_readable fs ls st st' level :
  for_each (extract_level fs) st ls = Ok st' → level ∈ ls →
  fs !! level_path level ≠ Some Unreadable.
Proof.
  intros H Hin Hlevel.
  destruct (extract_levels_unreadable fs ls st level Hin Hlevel) as [e He].
  congruence.
Qed.

Lemma check_levels_total fs radicals_map ls st :
  (∀ level, level ∈ ls → fs !! level_path level ≠ Some Unreadable) →
  ∃ st', for_each (Verify.check_level fs radicals_map) st ls = Ok st'.
Proof.
  revert st. induction ls as [|l ls IH]; intros st Hls; cbn [for_each].
  - by exists st.
  - assert (∃ st1, Verify.check_level fs radicals_map st l = Ok st1)
      as [st1 ->].
    { destruct st as [errors warnings]. unfold Verify.check_level, read_csv.
      destruct (fs !! level_path l) as [[|rows]|] eqn:E.
      - exfalso. apply (Hls l); [left | done].
      - rewrite (os_path_exists_true _ _ _ E). cbn [negb mbind outcome_bind].
        destruct (Verify.check_rows radicals_map l rows) as [[m w] t].
        by eexists.
      - apply os_path_exists_false in E. rewrite E. by eexists. }
    cbn [mbind outcome_bind]. apply IH. intros level Hlevel. apply Hls.
    by right.
Qed.

Lemma check_2_written fs l st :
  fs !! Verify.path_radicals = Some (Rows (row_of_entry <$> l)) →
  Verify.check_2 fs st = Ok st.
Proof.
  intros Hfs. destruct st as [errors warnings]. unfold Verify.check_2, read_csv.
  rewrite (os_path_exists_true _ _ _ Hfs), Hfs. cbn [negb mbind outcome_bind].
  destruct l as [|e l]; [done|]. rewrite fmap_cons.
  assert (filter (λ c, row_of_entry e !! c = None) Verify.required_cols = [])
    as ->; [|done].
  reflexivity.
Qed.

(** X8: after a run of the builder that ends normally the validator does not
    raise, and its only possible error is that of check 1: it returns 0
    exactly when the reference table has at least 213 different glyphs. *)
Theorem build_then_verify G fs fs' :
  main G fs = (Ok (), fs') →
  ∃ rows warnings,
    fs !! radicals_214_path = Some (Rows rows) ∧
    let unique :=
      size (list_to_set ((λ r, get r (py "Radical") []) <$> rows)
              : gset (list N)) in
    Verify.main fs'
    = Ok (if bool_decide (unique < 213)%nat
          then [Verify.OnlyUniqueRadicals unique] else [],
          warnings,
          if bool_decide (unique < 213)%nat then 1 else 0).
Proof.
  intros (t & u & lk & Hload & Hextract & ->)%main_Ok.
  destruct radicals_path_fresh as [H214 Hlevels].
  pose proof Hload as Hrows. unfold load_radicals_214, read_csv in Hrows.
  destruct (fs !! radicals_214_path) as [[|rows]|] eqn:Hfs; try done.
  cbn [mbind outcome_bind] in Hrows.
  set (derived := sort_radicals (build_custom_radicals G t u lk)).
  set (fs' := <[radicals_path := Rows (row_of_entry <$> derived)]> fs).
  set (unique := size (list_to_set ((λ r, get r (py "Radical") []) <$> rows)
                         : gset (list N))).
  set (e1 := if bool_decide (unique < 213)%nat
             then [Verify.OnlyUniqueRadicals unique] else []).
  assert (fs' !! radicals_214_path = Some (Rows rows)) as Hfs'.
  { unfold fs'. by rewrite lookup_insert_ne. }
  assert (∃ w1, Verify.check_1 fs' ([], []) = Ok (e1, w1)) as [w1 H1].
  { unfold Verify.check_1, Verify.path_214, read_csv.
    rewrite (os_path_exists_true _ _ _ Hfs'), Hfs'.
    cbn [negb mbind outcome_bind]. rewrite (load_rows_Radicals _ _ _ Hrows).
    cbn [mbind outcome_bind]. by eexists. }
  assert (fs' !! Verify.path_radicals = Some (Rows (row_of_entry <$> derived)))
    as Hwritten by apply lookup_insert_eq.
  assert (∃ st3, for_each (Verify.check_level fs' (written_map ∅ derived))
                   (e1, w1) levels = Ok st3) as [[e3 w3] H3].
  { apply check_levels_total. intros level Hin. unfold fs'.
    rewrite lookup_insert_ne by (by apply Hlevels).
    by apply (extract_levels_readable _ _ _ _ _ Hextract). }
  assert (e3 = e1) as ->.
  { apply check_levels_errors in H3 as (e & He & Hempty). simpl in He.
    destruct Hempty as [_ Hempty]. rewrite Hempty in He.
    - by rewrite app_nil_r in He.
    - intros level rows' Hin Hrows'. unfold fs' in Hrows'.
      rewrite lookup_insert_ne in Hrows' by (by apply Hlevels).
      by apply (derived_findings_empty G fs t u lk). }
  exists rows, w3. split; [done|]. unfold Verify.main.
  rewrite H1. cbn [mbind outcome_bind].
  rewrite (check_2_written _ _ _ Hwritten). cbn [mbind outcome_bind].
  unfold Verify.check_3, read_csv. rewrite Hwritten.
  cbn [mbind outcome_bind]. rewrite add_rows_written.
  cbn [mbind outcome_bind]. fold (written_map ∅ derived). rewrite H3.
  cbn [mbind outcome_bind]. unfold e1, unique.
  by case_bool_decide.
Qed.

Lemma build_then_verify_witness :
  ∃ warnings, Verify.main scenario_written
              = Ok ([Verify.OnlyUniqueRadicals 1], warnings, 1).
Proof.
  destruct (build_then_verify scenario_globals scenario_fs scenario_written)
    as (rows & warnings & Hrows & Hmain).
  - vm_compute. reflexivity.
  - exists warnings. rewrite Hmain.
    assert (rows = scenario_radicals_214) as ->.
    { assert (scenario_fs !! radicals_214_path
              = Some (Rows scenario_radicals_214)) as H
        by (vm_compute; reflexivity).
      congruence. }
    vm_compute. reflexivity.
Defined.

(** ** When the validator raises *)

Lemma mapM_getitem_Ok (rows : list row) key :
  (∃ l, mapM (λ r : row, getitem r key) rows = Ok l)
  ↔ Forall (λ r, is_Some (r !! key)) rows.
Proof.
  induction rows as [|r rows IH].
  - split; [constructor | by eexists].
  - rewrite Forall_cons, <- IH. cbn [mapM].
    assert (getitem r key = match r !! key with
                            | Some v => Ok v
                            | None => Raise (KeyError key)
                            end) as -> by done.
    destruct (r !! key) as [v|]; cbn [mbind outcome_bind].
    + destruct (mapM (λ r0 : row, getitem r0 key) rows) as [l|e];
        cbn [mbind outcome_bind].
      * split; [intros _; split; by eauto | intros _; eexists; reflexivity].
      * split; [by intros [? ?] | by intros [_ [? ?]]].
    + split; [by intros [? ?] | by intros [[? ?] _]].
Qed.

Lemma add_rows_Ok rows m :
  (∃ m', for_each Verify.add_row m rows = Ok m')
  ↔ Forall (λ r, is_Some (r !! py "Radical")) rows.
Proof.
  revert m. induction rows as [|r rows IH]; intros m.
  - split; [constructor | by eexists].
  - rewrite Forall_cons. cbn [for_each].
    assert (Verify.add_row m r
            = match r !! py "Radical" with
              | Some rad => Ok (<[rad := r]> m)
              | None => Raise (KeyError (py "Radical"))
              end) as ->.
    { unfold Verify.add_row, getitem. by destruct (r !! py "Radical"). }
    destruct (r !! py "Radical") as [v|]; cbn [mbind outcome_bind].
    + rewrite (IH (<[v := r]> m)). split; [intros H; split; by eauto|].
      by intros [_ H].
    + split; [by intros [? ?] | by intros [[? ?] _]].
Qed.

Lemma check_levels_Ok fs radicals_map ls st :
  (∃ st', for_each (Verify.check_level fs radicals_map) st ls = Ok st')
  ↔ ∀ level, level ∈ ls → fs !! level_path level ≠ Some Unreadable.
Proof.
  split; [|apply check_levels_total].
  revert st. induction ls as [|l ls IH]; intros st [st' H] level Hin.
  { by apply elem_of_nil in Hin. }
  cbn [for_each] in H.
  destruct (Verify.check_level fs radicals_map st l) as [st1|e] eqn:E;
    [|done].
  cbn [mbind outcome_bind] in H.
  apply elem_of_cons in Hin as [->|Hin]; [|by apply (IH st1); eauto].
  intros Hl. destruct st as [errors warnings].
  unfold Verify.check_level, read_csv in E.
  by rewrite (os_path_exists_true _ _ _ Hl), Hl in E.
Qed.

Lemma check_1_Ok fs st :
  (∃ st', Verify.check_1 fs st = Ok st')
  ↔ fs !! radicals_214_path = None ∨
    ∃ rows, fs !! radicals_214_path = Some (Rows rows) ∧
            Forall (λ r, is_Some (r !! py "Radical")) rows.
Proof.
  destruct st as [errors warnings].
  unfold Verify.check_1, Verify.path_214, read_csv.
  destruct (fs !! radicals_214_path) as [[|rows]|] eqn:E.
  - rewrite (os_path_exists_true _ _ _ E). cbn [negb mbind outcome_bind].
    split; [by intros [? ?] | by intros [?|(? & ? & _)]].
  - rewrite (os_path_exists_true _ _ _ E). cbn [negb mbind outcome_bind].
    pose proof (mapM_getitem_Ok rows (py "Radical")) as Hm.
    destruct (mapM (λ r : row, getitem r (py "Radical")) rows) as [l|e];
      cbn [mbind outcome_bind].
    + split; [|by eexists]. intros _. right. exists rows. split; [done|].
      apply Hm. by eexists.
    + split; [by intros [? ?]|]. intros [?|(? & [= <-] & Hall)]; [done|].
      apply Hm in Hall as [? ?]. done.
  - apply os_path_exists_false in E as ->. split; [by left | by eexists].
Qed.

Lemma check_2_Ok fs st :
  (∃ st', Verify.check_2 fs st = Ok st')
  ↔ fs !! radicals_path ≠ Some Unreadable.
Proof.
  destruct st as [errors warnings].
  unfold Verify.check_2, Verify.path_radicals, read_csv.
  generalize Verify.required_cols. intros cols.
  destruct (fs !! radicals_path) as [[|rows]|] eqn:E.
  - rewrite (os_path_exists_true _ _ _ E). cbn [negb mbind outcome_bind].
    split; [by intros [? ?] | done].
  - rewrite (os_path_exists_true _ _ _ E). cbn [negb mbind outcome_bind].
    split; [done|]. intros _. destruct rows as [|row0 rows]; [by eexists|].
    destruct (filter (λ c, row0 !! c = None) cols); by eexists.
  - apply os_path_exists_false in E as ->. split; [done | by eexists].
Qed.

Lemma verify_main_Ok_inv fs res :
  Verify.main fs = Ok res →
  (fs !! radicals_214_path = None ∨
   ∃ rows, fs !! radicals_214_path = Some (Rows rows) ∧
           Forall (λ r, is_Some (r !! py "Radical")) rows) ∧
  (∃ rows, fs !! radicals_path = Some (Rows rows) ∧
           Forall (λ r, is_Some (r !! py "Radical")) rows) ∧
  (∀ level, level ∈ levels → fs !! level_path level ≠ Some Unreadable).
Proof.
  unfold Verify.main. intros H.
  pose proof (check_1_Ok fs ([], [])) as H1.
  destruct (Verify.check_1 fs ([], [])) as [st1|e];
    cbn [mbind outcome_bind] in H; [|done].
  destruct (Verify.check_2 fs st1) as [st2|e];
    cbn [mbind outcome_bind] in H; [|done].
  unfold Verify.check_3, Verify.path_radicals, read_csv in H.
  destruct (fs !! radicals_path) as [[|rows]|] eqn:E;
    cbn [mbind outcome_bind] in H; try done.
  pose proof (add_rows_Ok rows ∅) as Hadd.
  destruct (for_each Verify.add_row ∅ rows) as [radicals_map|e];
    cbn [mbind outcome_bind] in H; [|done].
  pose proof (check_levels_Ok fs radicals_map levels st2) as Hlevels.
  destruct (for_each (Verify.check_level fs radicals_map) st2 levels)
    as [[errors warnings]|e]; cbn [mbind outcome_bind] in H; [|done].
  split_and!.
  - apply H1. by eexists.
  - exists rows. split; [done|]. apply Hadd. by eexists.
  - apply Hlevels. by eexists.
Qed.

(** X9: the validator raises, and returns no verdict, when the reference
    table cannot be opened or has a row without the column [Radical], when
    the derived table is absent, cannot be opened or has a row without the
    column [Radical], and when a level file exists and cannot be opened. *)
Theorem verify_main_raises fs :
  fs !! radicals_214_path = Some Unreadable ∨
  (∃ rows r, fs !! radicals_214_path = Some (Rows rows) ∧ r ∈ rows ∧
             r !! py "Radical" = None) ∨
  fs !! radicals_path = None ∨
  fs !! radicals_path = Some Unreadable ∨
  (∃ rows r, fs !! radicals_path = Some (Rows rows) ∧ r ∈ rows ∧
             r !! py "Radical" = None) ∨
  (∃ level, level ∈ levels ∧ fs !! level_path level = Some Unreadable) →
  ∃ e, Verify.main fs = Raise e.
Proof.
  intros Hbad. destruct (Verify.main fs) as [res|e] eqn:E; [|by exists e].
  exfalso.
  apply verify_main_Ok_inv in E as (H1 & (rows & Hrows & Hall) & H3).
  rewrite Forall_forall in Hall.
  destruct Hbad as [H|[(rows' & r & Hfs & Hr & Hnone)|[H|[H|[
    (rows' & r & Hfs & Hr & Hnone)|(level & Hin & Hl)]]]]].
  - destruct H1 as [H1|(? & H1 & _)]; congruence.
  - destruct H1 as [H1|(rows1 & H1 & Hall1)]; [congruence|].
    assert (rows1 = rows') as -> by congruence.
    rewrite Forall_forall in Hall1. destruct (Hall1 r Hr) as [? ?].
    congruence.
  - congruence.
  - congruence.
  - assert (rows = rows') as -> by congruence.
    destruct (Hall r Hr) as [? ?]. congruence.
  - by apply (H3 level).
Qed.

Lemma verify_main_raises_witness :
  ∃ e, Verify.main (<[level_path (py "advanced") := Unreadable]>
                      scenario_written) = Raise e.
Proof.
  apply verify_main_raises. do 5 right. exists (py "advanced").
  split; [by right; right; left | vm_compute; reflexivity].
Defined.

(** X10: without a derived table the validator never reaches its summary:
    check 2 records that [radicals.csv] is not found, and check 3 then
    opens the file and raises. *)
Theorem verify_main_without_derived_table fs :
  fs !! radicals_path = None →
  (fs !! radicals_214_path = None ∨
   ∃ rows, fs !! radicals_214_path = Some (Rows rows) ∧
           Forall (λ r, is_Some (r !! py "Radical")) rows) →
  (∃ st, Verify.check_2 fs ([], []) = Ok ([Verify.RadicalsNotFound], st)) ∧
  Verify.main fs = Raise (FileNotFoundError radicals_path).
Proof.
  intros Hnone H1. split.
  - unfold Verify.check_2, Verify.path_radicals.
    apply os_path_exists_false in Hnone as ->. by eexists.
  - apply (check_1_Ok fs ([], [])) in H1 as [st1 H1]. unfold Verify.main.
    rewrite H1. cbn [mbind outcome_bind]. destruct st1 as [errors warnings].
    unfold Verify.check_2, Verify.path_radicals.
    apply os_path_exists_false in Hnone as Hex. rewrite Hex.
    cbn [negb mbind outcome_bind].
    unfold Verify.check_3, Verify.path_radicals, read_csv. by rewrite Hnone.
Qed.

Lemma verify_main_without_derived_table_witness :
  Verify.main scenario_fs = Raise (FileNotFoundError radicals_path).
Proof.
  apply (verify_main_without_derived_table scenario_fs).
  - vm_compute. reflexivity.
  - right. exists scenario_radicals_214. split; [vm_compute; reflexivity|].
    repeat constructor; vm_compute; eauto.
Defined.

(** ** The summary *)

Lemma derived_Set_cases G fs radicals_214 radical_usage vocab_lookup e :
  load_radicals_214 fs = Ok radicals_214 →
  e ∈ sort_radicals
        (build_custom_radicals G radicals_214 radical_usage vocab_lookup) →
  Entry.Set_ e = py "kangxi_214" ∨ Entry.Set_ e = py "variant" ∨
  Entry.Set_ e = py "component".
Proof.
  intros Hload He. rewrite sort_radicals_Permutation in He.
  apply list_elem_of_fmap in He as ([rad usage] & -> & _).
  rewrite build_entry_Set. destruct (radicals_214 !! rad) as [r|] eqn:Hr.
  - left. by destruct (load_radicals_214_invariant _ _ _ _ Hload Hr).
  - destruct (g_VARIANT_TO_MAIN G !! rad); auto.
Qed.

Lemma three_way_count (l : list Entry.t) :
  (∀ e, e ∈ l →
     Entry.Set_ e = py "kangxi_214" ∨ Entry.Set_ e = py "variant" ∨
     Entry.Set_ e = py "component") →
  (length (filter (λ r, Entry.Set_ r = py "kangxi_214") l)
   + length (filter (λ r, Entry.Set_ r = py "variant") l)
   + length (filter (λ r, Entry.Set_ r = py "component") l))%nat
  = length l.
Proof.
  induction l as [|e l IH]; intros Hl; [done|].
  rewrite !filter_cons. cbn [length].
  rewrite <- IH by (intros x Hx; apply Hl; by right).
  destruct (Hl e) as [H|[H|H]]; [left|..]; rewrite H.
  - rewrite decide_True by done. rewrite !decide_False by done.
    cbn [length]. lia.
  - rewrite (decide_True (P:=py "variant" = py "variant")) by done.
    rewrite !decide_False by done. cbn [length]. lia.
  - rewrite (decide_True (P:=py "component" = py "component")) by done.
    rewrite !decide_False by done. cbn [length]. lia.
Qed.

Lemma StronglySorted_take {A} (R : A → A → Prop) n l :
  StronglySorted R l → StronglySorted R (take n l).
Proof.
  intros Hl. revert n. induction Hl as [|x l Hl IH Hx]; intros [|n];
    cbn [take]; try constructor; [apply IH | by apply Forall_take].
Qed.

Lemma Z_leb_total (a b : Z) : Z.leb a b = true ∨ Z.leb b a = true.
Proof. rewrite !Z.leb_le. lia. Qed.

Lemma Z_leb_trans (a b c : Z) :
  Z.leb a b = true → Z.leb b c = true → Z.leb a c = true.
Proof. rewrite !Z.leb_le. lia. Qed.

(** X11: on the derived table the three counts of the summary add up to the
    total, which is the number of keys of the usage map; at most twenty
    components are listed, each a component entry of the table, in order of
    decreasing usage count. *)
Theorem print_summary_counts G fs radicals_214 radical_usage vocab_lookup :
  load_radicals_214 fs = Ok radicals_214 →
  let derived :=
    sort_radicals
      (build_custom_radicals G radicals_214 radical_usage vocab_lookup) in
  let s := print_summary derived in
  (s_kangxi s + s_variants s + s_components s)%nat = s_total s ∧
  s_total s = length radical_usage ∧
  length (s_listed s) = (20 `min` s_components s)%nat ∧
  (∀ line, line ∈ s_listed s →
     ∃ e, e ∈ derived ∧ Entry.Set_ e = py "component" ∧
          line = (Entry.Radical e, Entry.UsageCount e, Entry.Levels e)) ∧
  (∀ i j a b, (i < j)%nat → s_listed s !! i = Some a →
     s_listed s !! j = Some b → b.1.2 <= a.1.2).
Proof.
  intros Hload derived s.
  set (components := filter (λ r, Entry.Set_ r = py "component") derived).
  set (ordered := sorted Z.leb (λ x, (- Z.of_N (Entry.UsageCount x))%Z)
                    components).
  assert (s_listed s
          = (λ c, (Entry.Radical c, Entry.UsageCount c, Entry.Levels c))
              <$> take 20 ordered) as Hlisted.
  { unfold s, print_summary. cbn [s_listed]. fold components. fold ordered.
    destruct components eqn:E; [|done]. done. }
  assert (ordered ≡ₚ components) as Hperm by apply sorted_Permutation.
  split_and!.
  - apply three_way_count. intros e He.
    by apply (derived_Set_cases G fs radicals_214 radical_usage vocab_lookup).
  - unfold s, print_summary, derived. cbn [s_total].
    rewrite sort_radicals_Permutation. apply length_fmap.
  - rewrite Hlisted, length_fmap, length_take, Hperm. done.
  - intros line Hline. rewrite Hlisted in Hline.
    apply list_elem_of_fmap in Hline as (e & -> & He).
    apply elem_of_take in He as (i & He & _).
    apply list_elem_of_lookup_2 in He. rewrite Hperm in He.
    apply list_elem_of_filter in He as [Hset He]. by exists e.
  - intros i j a b Hij Ha Hb. rewrite Hlisted in Ha, Hb.
    rewrite list_lookup_fmap in Ha, Hb.
    destruct (take 20 ordered !! i) as [ea|] eqn:Hea; [|done].
    destruct (take 20 ordered !! j) as [eb|] eqn:Heb; [|done].
    injection Ha as <-. injection Hb as <-. cbn [fst snd].
    assert (StronglySorted
              (λ x y, Z.leb (- Z.of_N (Entry.UsageCount x))
                        (- Z.of_N (Entry.UsageCount y)) = true)
              (take 20 ordered)) as Hsorted.
    { apply StronglySorted_take.
      apply (sorted_StronglySorted Z.leb _ Z_leb_total Z_leb_trans). }
    pose proof (StronglySorted_lookup _ _ _ _ _ _ Hsorted Hij Hea Heb) as H.
    apply Z.leb_le in H. lia.
Qed.

Lemma print_summary_counts_witness :
  print_summary (derived_table module_globals two_level_fs)
  = Summary 4 2 1 1 [(py "车", 2, py "basic,intermediate")] ∧
  (2 + 1 + 1 = 4)%nat.
Proof.
  split; [vm_compute; reflexivity|].
  destruct (print_summary_counts module_globals two_level_fs
              (loaded two_level_fs) (extracted two_level_fs).1
              (extracted two_level_fs).2) as [Hsum _].
  - vm_compute. reflexivity.
  - revert Hsum. vm_compute. done.
Defined.

(** ** Rows without a reading *)

Lemma missing_rows_written l missing :
  for_each missing_row missing (row_of_entry <$> l)
  = Ok (missing ++
        (row_of_entry <$> filter (λ e, strip (Entry.Pinyin e) = []) l)).
Proof.
  revert missing. induction l as [|e l IH]; intros missing.
  - cbn. by rewrite app_nil_r.
  - rewrite fmap_cons, filter_cons. cbn [for_each].
    assert (missing_row missing (row_of_entry e)
            = Ok (if decide (strip (Entry.Pinyin e) = [])
                  then missing ++ [row_of_entry e] else missing)) as ->.
    { unfold missing_row.
      change (get (row_of_entry e) (py "Pinyin") []) with (Entry.Pinyin e).
      destruct (strip (Entry.Pinyin e)); [|done]. reflexivity. }
    cbn [mbind outcome_bind]. rewrite IH.
    destruct (decide (strip (Entry.Pinyin e) = [])); [|done].
    by rewrite fmap_cons, <- app_assoc.
Qed.

(** X12: when the builder ends normally, the search for missing readings does
    not raise and reports exactly the rows of the derived entries whose
    reading is blank; among them is every variant whose main radical is
    not in the reference table. *)
Theorem find_missing_data_reports G fs fs' :
  main G fs = (Ok (), fs') →
  ∃ missing,
    find_missing_data G fs = (Ok missing, fs') ∧
    (∀ e, e ∈ derived_table G fs →
       row_of_entry e ∈ missing ↔ strip (Entry.Pinyin e) = []) ∧
    (∀ e main_rad, e ∈ derived_table G fs →
       Entry.Set_ e = py "variant" →
       Entry.MainRadical e = Some main_rad →
       loaded fs !! main_rad = None →
       row_of_entry e ∈ missing).
Proof.
  intros Hmain. pose proof Hmain as (t & u & lk & Hload & Hextract & ->)%main_Ok.
  unfold derived_table, loaded, extracted. rewrite Hload, Hextract.
  cbn [fst snd].
  set (derived := sort_radicals (build_custom_radicals G t u lk)).
  exists (row_of_entry <$> filter (λ e, strip (Entry.Pinyin e) = []) derived).
  assert (∀ e, e ∈ derived →
            row_of_entry e
              ∈ row_of_entry <$>
                  filter (λ e, strip (Entry.Pinyin e) = []) derived
            ↔ strip (Entry.Pinyin e) = []) as Hiff.
  { intros e He. rewrite list_elem_of_fmap. split.
    - intros (e' & Heq & He'). apply list_elem_of_filter in He' as [Hp _].
      assert (Entry.Pinyin e = Entry.Pinyin e') as ->; [|done].
      change (get (row_of_entry e) (py "Pinyin") []
              = get (row_of_entry e') (py "Pinyin") []).
      by rewrite Heq.
    - intros Hp. exists e. split; [done|]. by apply list_elem_of_filter. }
  split_and!.
  - unfold find_missing_data. rewrite Hmain. unfold read_csv.
    rewrite lookup_insert_eq. cbn [mbind outcome_bind].
    by rewrite missing_rows_written.
  - exact Hiff.
  - intros e main_rad He Hset Hmain_rad Hnone. apply Hiff; [done|].
    unfold derived in He. rewrite sort_radicals_Permutation in He.
    apply list_elem_of_fmap in He as ([rad usage] & -> & _).
    revert Hset Hmain_rad. unfold build_entry.
    destruct (t !! rad) as [r|] eqn:Hr.
    { cbn [Entry.MainRadical]. done. }
    destruct (g_VARIANT_TO_MAIN G !! rad) as [m|].
    + destruct (t !! m) eqn:Hm; cbn [Entry.MainRadical Entry.Pinyin].
      * intros _ [= ->]. congruence.
      * done.
    + by repeat case_match.
Qed.

Lemma find_missing_data_reports_witness :
  ∃ missing,
    find_missing_data scenario_globals scenario_fs
    = (Ok missing, scenario_written) ∧
    (∀ e, e ∈ derived_table scenario_globals scenario_fs →
       row_of_entry e ∈ missing ↔ strip (Entry.Pinyin e) = []) ∧
    (∀ e main_rad, e ∈ derived_table scenario_globals scenario_fs →
       Entry.Set_ e = py "variant" →
       Entry.MainRadical e = Some main_rad →
       loaded scenario_fs !! main_rad = None →
       row_of_entry e ∈ missing).
Proof.
  apply (find_missing_data_reports scenario_globals scenario_fs
           scenario_written).
  vm_compute. reflexivity.
Defined.

Example find_missing_data_scenario :
  (λ r, get r (py "Radical") [])
    <$> match (find_missing_data scenario_globals scenario_fs).1 with
        | Ok missing => missing
        | Raise _ => []
        end
  = [py "氵"].
Proof. vm_compute. reflexivity. Qed.

(** ** The level counts of check 2 *)

Lemma usage_levels_iff fs radical_usage vocab_lookup g usage level :
  extract_radicals_from_vocab fs = Ok (radical_usage, vocab_lookup) →
  (g, usage) ∈ radical_usage → level ∈ levels →
  level ∈ Usage.levels usage ↔ g ∈ level_glyphs fs level.
Proof.
  intros H Hin Hlevel.
  assert (usage_of radical_usage g = Some usage) as Hu.
  { apply usage_of_elem; [|done]. rewrite (extract_usage _ _ _ H).
    apply occurrences_keys_NoDup. }
  destruct (usage_of_uses _ _ _ _ _ H Hu) as [_ ->].
  cbn [Usage.levels]. unfold level_glyphs, level_rows.
  rewrite !elem_of_list_to_set, list_elem_of_fmap, elem_of_bind_decomposition.
  unfold uses_of. split.
  - intros (o & -> & Ho). apply list_elem_of_filter in Ho as [<- Ho].
    apply elem_of_occurrences in Ho as (_ & rows & r & Hfs & Hr & _ & Hg).
    rewrite Hfs. by exists r.
  - intros (r & Hr & Hg).
    destruct (fs !! level_path level) as [[|rows]|] eqn:Hfs;
      try by apply elem_of_nil in Hr.
    exists (Occ level (get r (py "Word") []) g). split; [done|].
    apply list_elem_of_filter. split; [done|].
    apply elem_of_occurrences. split; [done|]. by exists rows, r.
Qed.

Lemma length_filter_fmap {A B} (f : A → B) (P : B → Prop)
    `{∀ x, Decision (P x)} (l : list A) :
  length (filter P (f <$> l)) = length (filter (λ x, P (f x)) l).
Proof.
  induction l as [|x l IH]; [done|].
  rewrite fmap_cons, !filter_cons. destruct (decide (P (f x))); cbn [length];
    by rewrite IH.
Qed.

Lemma NoDup_fmap_filter {A B} (f : A → B) (P : A → Prop)
    `{∀ x, Decision (P x)} (l : list A) :
  NoDup (f <$> l) → NoDup (f <$> filter P l).
Proof.
  induction l as [|x l IH]; [done|].
  rewrite fmap_cons, NoDup_cons, filter_cons. intros [Hx Hl].
  destruct (decide (P x)); [|by apply IH].
  rewrite fmap_cons, NoDup_cons. split; [|by apply IH].
  intros Hin. apply Hx. apply list_elem_of_fmap in Hin as (y & -> & Hy).
  apply list_elem_of_filter in Hy as [_ Hy]. apply list_elem_of_fmap.
  by exists y.
Qed.

(** X13: on the table the builder writes, the number check 2 prints for a level
    (the rows whose level list contains the level name) is the number of
    different glyphs used by the rows of the level file. *)
Theorem count_level_after_build G fs fs' level rows :
  main G fs = (Ok (), fs') → level ∈ levels →
  fs' !! radicals_path = Some (Rows rows) →
  count_level level rows = size (level_glyphs fs level).
Proof.
  intros (t & u & lk & Hload & Hextract & ->)%main_Ok Hlevel.
  rewrite lookup_insert_eq. intros [= <-].
  set (derived := sort_radicals (build_custom_radicals G t u lk)).
  unfold count_level. rewrite length_filter_fmap.
  set (P := λ e, contains level (get (row_of_entry e) (py "Levels") []) = true).
  pose proof (derived_Radical_NoDup G _ _ _ _ Hload Hextract) as Hnodup.
  fold derived in Hnodup.
  assert (∀ e, e ∈ derived → P e ↔ Entry.Radical e ∈ level_glyphs fs level)
    as HP.
  { intros e He. unfold derived in He.
    rewrite sort_radicals_Permutation in He.
    apply list_elem_of_fmap in He as ([rad usage] & -> & Hin).
    unfold P. rewrite row_of_entry_Levels, build_entry_Levels.
    rewrite (contains_joined_levels usage level);
      [|by apply (extract_levels_known _ _ _ _ _ Hextract Hin)|done].
    rewrite build_entry_Radical.
    - by apply (usage_levels_iff _ _ _ _ _ _ Hextract).
    - intros r Hr.
      by destruct (load_radicals_214_invariant _ _ _ _ Hload Hr). }
  rewrite <- (length_fmap Entry.Radical).
  assert (NoDup (Entry.Radical <$> filter P derived)) as Hnodup'.
  { by apply NoDup_fmap_filter. }
  rewrite <- (size_list_to_set (C:=gset (list N)) _ Hnodup'). f_equal.
  apply set_eq. intros g.
  rewrite elem_of_list_to_set, list_elem_of_fmap. split.
  - intros (e & -> & He). apply list_elem_of_filter in He as [He Hin].
    by apply HP.
  - intros Hg.
    assert (g ∈ Entry.Radical <$> derived) as Hin.
    { unfold derived. rewrite sort_radicals_Permutation.
      rewrite (build_custom_radicals_Radical _ _ _ _ _ Hload).
      rewrite (extract_usage _ _ _ Hextract), occurrences_keys.
      unfold level_glyphs, level_rows in Hg.
      apply elem_of_list_to_set, elem_of_bind_decomposition in Hg
        as (r & Hr & Hg).
      destruct (fs !! level_path level) as [[|rows]|] eqn:Hfs;
        try by apply elem_of_nil in Hr.
      apply list_elem_of_fmap.
      exists (Occ level (get r (py "Word") []) g). split; [done|].
      apply elem_of_occurrences. split; [done|]. by exists rows, r. }
    apply list_elem_of_fmap in Hin as (e & -> & He).
    exists e. split; [done|]. apply list_elem_of_filter. split; [|done].
    by apply HP.
Qed.

Lemma count_level_after_build_witness :
  count_level (py "basic")
    (row_of_entry <$> derived_table module_globals two_level_fs) = 3%nat ∧
  count_level (py "intermediate")
    (row_of_entry <$> derived_table module_globals two_level_fs) = 2%nat ∧
  count_level (py "advanced")
    (row_of_entry <$> derived_table module_globals two_level_fs) = 0%nat.
Proof.
  assert (main module_globals two_level_fs
          = (Ok (), (main module_globals two_level_fs).2)) as Hmain
    by (vm_compute; reflexivity).
  assert ((main module_globals two_level_fs).2 !! radicals_path
          = Some (Rows (row_of_entry <$>
                          derived_table module_globals two_level_fs))) as Hrows
    by (vm_compute; reflexivity).
  split_and!.
  - rewrite (count_level_after_build _ _ _ (py "basic") _ Hmain); [|by left|done].
    vm_compute. reflexivity.
  - rewrite (count_level_after_build _ _ _ (py "intermediate") _ Hmain);
      [|by right; left|done].
    vm_compute. reflexivity.
  - rewrite (count_level_after_build _ _ _ (py "advanced") _ Hmain);
      [|by right; right; left|done].
    vm_compute. reflexivity.
Defined.

(** * The data validation *)

Lemma validate_paths :
  py "data/languages/chinese/radicals/radicals.csv" = radicals_path ∧
  ∀ level, py "data/languages/chinese/" ++ level ++ py ".csv"
           = level_path level.
Proof. split; [by vm_compute | intros level; by vm_compute]. Qed.

Lemma split_radicals_decomposition (r : row) :
  Validate.split_radicals (get r (py "Radicals") []) = decomposition r.
Proof.
  unfold Validate.split_radicals, decomposition.
  induction (split 43 (get r (py "Radicals") [])) as [|p ps IH]; [done|].
  rewrite fmap_cons, !filter_cons.
  destruct (strip p) as [|c s] eqn:E; cbn [truthy].
  - rewrite decide_False by done. rewrite decide_False by (by intros []).
    exact IH.
  - rewrite decide_True by done. rewrite decide_True by done.
    rewrite fmap_cons, E. by f_equal.
Qed.

Lemma load_vocabulary_Ok fs level :
  Validate.load_vocabulary fs level
  = match fs !! level_path level with
    | None => Raise (FileNotFoundError (level_path level))
    | Some Unreadable => Raise (OSError (level_path level))
    | Some (Rows rows) =>
      Ok ((λ r : row,
             Validate.WordData (get r (py "Word") []) (get r (py "Pinyin") [])
               (get r (py "English") []) (decomposition r) level) <$> rows)
    end.
Proof.
  unfold Validate.load_vocabulary, read_csv.
  rewrite (proj2 validate_paths level).
  destruct (fs !! level_path level) as [[|rows]|]; try done.
  cbn [mbind outcome_bind]. f_equal. apply list_fmap_ext. intros _ r _.
  by rewrite split_radicals_decomposition.
Qed.

Lemma load_all_absent fs ls acc level :
  level ∈ ls → fs !! level_path level = None →
  ∃ e, for_each
         (λ all_words level,
            words ← Validate.load_vocabulary fs level; Ok (all_words ++ words))
         acc ls = Raise e.
Proof.
  intros Hin Hnone. revert acc.
  induction ls as [|l ls IH]; intros acc; [by apply elem_of_nil in Hin|].
  cbn [for_each]. rewrite load_vocabulary_Ok.
  destruct (fs !! level_path l) as [[|rows]|] eqn:E;
    cbn [mbind outcome_bind]; try by eexists.
  apply elem_of_cons in Hin as [->|Hin]; [congruence|]. by apply IH.
Qed.

(** X14: unlike the builder, the data validation does not skip a level file
    that is absent: it raises, whatever the other files hold. *)
Theorem validate_needs_every_level fs level :
  level ∈ levels → fs !! level_path level = None →
  ∃ e, Validate.main fs = Raise e.
Proof.
  intros Hin Hnone. unfold Validate.main.
  destruct (Validate.load_radicals fs) as [known|e]; [|by exists e].
  cbn [mbind outcome_bind].
  destruct (load_all_absent fs levels [] level Hin Hnone) as [e He].
  exists e. unfold levels in He. by rewrite He.
Qed.

Lemma validate_needs_every_level_witness :
  (main module_globals two_level_fs).1 = Ok () ∧
  ∃ e, Validate.main (main module_globals two_level_fs).2 = Raise e.
Proof.
  split; [vm_compute; reflexivity|].
  apply (validate_needs_every_level _ (py "advanced")).
  - by right; right; left.
  - vm_compute. reflexivity.
Defined.

Lemma load_all_Ok fs ls acc ws :
  for_each
    (λ all_words level,
       words ← Validate.load_vocabulary fs level; Ok (all_words ++ words))
    acc ls = Ok ws →
  ws = acc ++ (ls ≫= level_words fs) ∧
  ∀ level, level ∈ ls → ∃ rows, fs !! level_path level = Some (Rows rows).
Proof.
  revert acc. induction ls as [|l ls IH]; intros acc; cbn [for_each].
  - intros [= <-]. rewrite app_nil_r. split; [done|].
    by intros level ?%elem_of_nil.
  - rewrite load_vocabulary_Ok.
    destruct (fs !! level_path l) as [[|rows]|] eqn:E;
      cbn [mbind outcome_bind]; try done.
    intros [-> Hls]%IH. split.
    + rewrite bind_cons, app_assoc. do 2 f_equal.
      unfold level_words, level_rows. by rewrite E.
    + intros level [->|Hin]%elem_of_cons; [by exists rows | by apply Hls].
Qed.

Lemma load_all_total fs ls acc :
  (∀ level, level ∈ ls → ∃ rows, fs !! level_path level = Some (Rows rows)) →
  for_each
    (λ all_words level,
       words ← Validate.load_vocabulary fs level; Ok (all_words ++ words))
    acc ls = Ok (acc ++ (ls ≫= level_words fs)).
Proof.
  revert acc. induction ls as [|l ls IH]; intros acc Hls; cbn [for_each].
  - by rewrite app_nil_r.
  - rewrite load_vocabulary_Ok, bind_cons.
    destruct (Hls l) as [rows E]; [left|]. rewrite E.
    cbn [mbind outcome_bind].
    rewrite IH by (intros level Hin; apply Hls; by right).
    rewrite <- app_assoc. do 3 f_equal.
    unfold level_words, level_rows. by rewrite E.
Qed.

Lemma validate_main_Ok fs rep :
  Validate.main fs = Ok rep →
  ∃ known,
    Validate.load_radicals fs = Ok known ∧
    (∀ level, level ∈ levels →
       ∃ rows, fs !! level_path level = Some (Rows rows)) ∧
    Validate.n_radicals rep = size known ∧
    Validate.all_words rep = levels ≫= level_words fs ∧
    (Validate.used_radicals rep, Validate.missing_radicals rep)
    = foldl (λ st wd,
               foldl (Validate.cover known (Validate.word wd)) st
                 (Validate.radicals wd))
        (∅, ∅) (Validate.all_words rep) ∧
    (Validate.composition_counts rep, Validate.composable_words rep)
    = foldl (Validate.compose known) (∅, []) (Validate.all_words rep) ∧
    Validate.duplicates rep
    = filter (λ kv, (1 < length kv.2)%nat)
        (foldl (λ d wd,
                  Validate.append_to d (Validate.word wd) (Validate.level wd))
           ∅ (Validate.all_words rep)).
Proof.
  unfold Validate.main.
  destruct (Validate.load_radicals fs) as [known|e]; [|done].
  cbn [mbind outcome_bind].
  change [py "basic"; py "intermediate"; py "advanced"] with levels.
  destruct (for_each _ [] levels) as [ws|e] eqn:Hws; [|done].
  cbn [mbind outcome_bind]. apply load_all_Ok in Hws as [-> Hlevels].
  rewrite app_nil_l.
  intros H. repeat case_match. injection H as <-. exists known. cbn.
  split_and!; done.
Qed.

(** ** Duplicate words *)





(** ** Coverage and composition *)

Lemma validate_load_radicals fs known :
  Validate.load_radicals fs = Ok known →
  ∃ rows, fs !! radicals_path = Some (Rows rows) ∧
    ∀ g, is_Some (known !! g) ↔ ∃ r, r ∈ rows ∧ r !! py "Radical" = Some g.
Proof.
  unfold Validate.load_radicals, read_csv.
  rewrite (proj1 validate_paths).
  destruct (fs !! radicals_path) as [[|rows]|]; try done.
  cbn [mbind outcome_bind]. intros H. exists rows. split; [done|].
  match type of H with
  | for_each ?F _ _ = _ =>
    assert (∀ m m' g, for_each F m rows = Ok m' →
              is_Some (m' !! g)
              ↔ is_Some (m !! g) ∨ ∃ r, r ∈ rows ∧ r !! py "Radical" = Some g)
      as Hgen
  end.
  { clear. induction rows as [|r rows IH]; intros m m' g; cbn [for_each].
    - intros [= <-]. split; [auto|]. intros [?|(r & Hr & _)]; [done|].
      by apply elem_of_nil in Hr.
    - unfold getitem. destruct (r !! py "Radical") as [rad|] eqn:E;
        cbn [mbind outcome_bind]; [|done].
      intros H. rewrite (IH _ _ g H), lookup_insert_is_Some. split.
      + intros [[Heq|[_ ?]]|(r' & Hr' & Hg)].
        * right. exists r. split; [left | congruence].
        * by left.
        * right. exists r'. split; [by right | done].
      + intros [Hm|(r' & Hr' & Hg)].
        * left. destruct (decide (rad = g)); auto.
        * apply elem_of_cons in Hr' as [->|Hr'].
          -- left. left. congruence.
          -- right. by exists r'. }
  intros g. rewrite (Hgen _ _ g H), lookup_empty. split; [|auto].
  intros [[? ?]|?]; done.
Qed.

Lemma cover_uses known (ws : list Validate.word_data) st :
  foldl (λ st wd,
           foldl (Validate.cover known (Validate.word wd)) st
             (Validate.radicals wd)) st ws
  = foldl (λ st p, Validate.cover known p.1 st p.2) st (word_uses ws).
Proof.
  revert st. induction ws as [|x ws IH]; intros st; [done|].
  unfold word_uses. rewrite bind_cons, foldl_app. fold (word_uses ws).
  cbn [foldl]. rewrite IH. f_equal.
  generalize (Validate.radicals x). intros rs. revert st.
  induction rs as [|r rs IHr]; intros st; [done|]. cbn. apply IHr.
Qed.

Lemma cover_fold known (uses : list (list N * list N)) u0 m0 :
  (foldl (λ st p, Validate.cover known p.1 st p.2) (u0, m0) uses).1
  = u0 ∪ list_to_set uses.*2 ∧
  ∀ g,
    (foldl (λ st p, Validate.cover known p.1 st p.2) (u0, m0) uses).2 !! g
    = match known !! g with
      | Some _ => m0 !! g
      | None =>
        match m0 !! g, (filter (λ p, p.2 = g) uses).*1 with
        | Some l0, l => Some (l0 ++ l)
        | None, [] => None
        | None, l => Some l
        end
      end.
Proof.
  revert u0 m0. induction uses as [|[w r] uses IH]; intros u0 m0.
  - cbn. split; [by rewrite (right_id_L ∅ (∪))|]. intros g.
    destruct (known !! g), (m0 !! g); by rewrite ?app_nil_r.
  - cbn [foldl Validate.cover fst snd].
    destruct (IH ({[r]} ∪ u0)
                (if bool_decide (known !! r = None)
                 then Validate.append_to m0 r w else m0)) as [IH1 IH2].
    split.
    + rewrite IH1, fmap_cons, list_to_set_cons. cbn [snd].
      by rewrite (comm_L (∪) {[r]} u0), (assoc_L (∪)).
    + intros g. rewrite IH2, filter_cons. cbn [snd].
      destruct (known !! g) as [k|] eqn:Hg.
      * case_bool_decide as Hr; [|done]. unfold Validate.append_to.
        rewrite lookup_insert_ne; [done | congruence].
      * destruct (decide (r = g)) as [->|Hne].
        -- rewrite bool_decide_eq_true_2 by done. unfold Validate.append_to.
           rewrite lookup_insert_eq, fmap_cons. cbn [fst].
           destruct (m0 !! g); cbn; by rewrite <- ?app_assoc.
        -- case_bool_decide; [|done]. unfold Validate.append_to.
           by rewrite lookup_insert_ne.
Qed.



Lemma forallb_bool_decide {A} (P : A → Prop) `{∀ x, Decision (P x)}
    (l : list A) :
  forallb (λ x, bool_decide (P x)) l = true ↔ Forall P l.
Proof.
  induction l as [|x l IH]; cbn [forallb].
  - split; [constructor | done].
  - rewrite Forall_cons, andb_true_iff, bool_decide_eq_true, IH. done.
Qed.

Lemma compose_fold known (ws : list Validate.word_data) c0 l0 :
  (∀ n,
     (foldl (Validate.compose known) (c0, l0) ws).1 !! n
     = match c0 !! n,
             length (filter (λ wd, length (Validate.radicals wd) = n) ws) with
       | Some c, k => Some (c + k)%nat
       | None, O => None
       | None, k => Some k
       end) ∧
  (foldl (Validate.compose known) (c0, l0) ws).2
  = l0 ++ filter (λ wd, (2 ≤ length (Validate.radicals wd))%nat ∧
                        Forall (λ r, is_Some (known !! r))
                          (Validate.radicals wd)) ws.
Proof.
  revert c0 l0. induction ws as [|x ws IH]; intros c0 l0.
  - cbn. split; [|by rewrite app_nil_r]. intros n.
    destruct (c0 !! n); [by rewrite Nat.add_0_r | done].
  - cbn [foldl Validate.compose].
    match goal with
    | |- context [foldl _ (?c, ?l) ws] => destruct (IH c l) as [IH1 IH2]
    end.
    split.
    + intros n. rewrite IH1, filter_cons. unfold Validate.increment.
      destruct (decide (length (Validate.radicals x) = n)) as [->|Hne].
      * rewrite lookup_insert_eq. cbn [length].
        destruct (c0 !! n); cbn; f_equal; lia.
      * by rewrite lookup_insert_ne.
    + rewrite IH2, filter_cons.
      destruct (decide (_ ∧ _)) as [[H2 Hall]|Hn].
      * rewrite bool_decide_eq_true_2 by done.
        rewrite (proj2 (forallb_bool_decide (λ r, is_Some (known !! r)) _)
                   Hall).
        cbn [andb].
        by rewrite <- app_assoc.
      * destruct (bool_decide _ && forallb _ _) eqn:E; [|done].
        exfalso. apply Hn. apply andb_true_iff in E as [E1 E2].
        split; [by apply bool_decide_eq_true in E1|].
        by apply (forallb_bool_decide (λ r, is_Some (known !! r))).
Qed.

(** X17: the composition statistics count, for every length, the words with a
    radical list of that length, and the composable words are the words
    with at least two radicals, all of them keys of the derived table, in
    the order of the files. *)
Theorem validate_composition fs rep :
  Validate.main fs = Ok rep →
  ∃ known,
    Validate.load_radicals fs = Ok known ∧
    (∀ n, Validate.composition_counts rep !! n
          = match length (filter (λ wd, length (Validate.radicals wd) = n)
                            (Validate.all_words rep)) with
            | O => None
            | k => Some k
            end) ∧
    Validate.composable_words rep
    = filter (λ wd, (2 ≤ length (Validate.radicals wd))%nat ∧
                    Forall (λ r, is_Some (known !! r)) (Validate.radicals wd))
        (Validate.all_words rep).
Proof.
  intros (known & Hknown & _ & _ & _ & _ & Hcompose & _)%validate_main_Ok.
  exists known. split; [done|].
  destruct (compose_fold known (Validate.all_words rep) ∅ []) as [H1 H2].
  rewrite <- Hcompose in H1, H2. cbn [fst snd] in H1, H2. split; [|done].
  intros n. by rewrite H1, lookup_empty.
Qed.

Lemma validate_composition_witness :
  ∃ rep, Validate.main repeated_word_fs = Ok rep ∧
         Validate.composition_counts rep !! 0%nat = Some 2%nat ∧
         Validate.composition_counts rep !! 2%nat = Some 1%nat ∧
         Validate.composition_counts rep !! 1%nat = None ∧
         Validate.composable_words rep = [].
Proof.
  assert (∃ rep, Validate.main repeated_word_fs = Ok rep) as [rep Hrep].
  { eexists. vm_compute. reflexivity. }
  exists rep. split; [done|].
  destruct (validate_composition repeated_word_fs rep Hrep)
    as (known & Hknown & Hcounts & Hcomposable).
  assert (Validate.all_words rep
          = levels ≫= level_words repeated_word_fs) as Hall.
  { by apply validate_main_Ok in Hrep as (? & _ & _ & _ & ? & _). }
  assert (known = ∅) as ->.
  { assert (Validate.load_radicals repeated_word_fs = Ok ∅) as H
      by (vm_compute; reflexivity).
    congruence. }
  rewrite !Hcounts, Hcomposable, Hall. split_and!; vm_compute; reflexivity.
Defined.

(** ** The data validation on the table the builder writes *)

Lemma elem_of_word_uses fs w g :
  (w, g) ∈ word_uses (levels ≫= level_words fs) →
  ∃ level rows r, level ∈ levels ∧ fs !! level_path level = Some (Rows rows) ∧
                  r ∈ rows ∧ g ∈ decomposition r.
Proof.
  unfold word_uses. intros (wd & Hp & Hwd)%list_elem_of_bind.
  apply list_elem_of_bind in Hwd as (level & Hwd & Hlevel).
  unfold level_words, level_rows in Hwd.
  destruct (fs !! level_path level) as [[|rows]|] eqn:Hfs;
    try by apply elem_of_nil in Hwd.
  apply list_elem_of_fmap in Hwd as (r & -> & Hr).
  apply list_elem_of_fmap in Hp as (g' & [= -> ->] & Hg).
  by exists level, rows, r.
Qed.

Lemma word_uses_elem fs level rows r g :
  level ∈ levels → fs !! level_path level = Some (Rows rows) → r ∈ rows →
  g ∈ decomposition r →
  g ∈ (word_uses (levels ≫= level_words fs)).*2.
Proof.
  intros Hlevel Hfs Hr Hg. apply list_elem_of_fmap.
  exists (get r (py "Word") [], g). split; [done|].
  unfold word_uses. apply list_elem_of_bind.
  exists (Validate.WordData (get r (py "Word") []) (get r (py "Pinyin") [])
            (get r (py "English") []) (decomposition r) level).
  split.
  - apply list_elem_of_fmap. by exists g.
  - apply list_elem_of_bind. exists level. split; [|done].
    unfold level_words, level_rows. rewrite Hfs.
    apply list_elem_of_fmap. by exists r.
Qed.

Lemma list_filter_iff_elem {A} (P1 P2 : A → Prop)
    `{∀ x, Decision (P1 x)} `{∀ x, Decision (P2 x)} (l : list A) :
  (∀ x, x ∈ l → P1 x ↔ P2 x) → filter P1 l = filter P2 l.
Proof.
  induction l as [|x l IH]; intros Hl; [done|].
  rewrite !filter_cons, IH by (intros y Hy; apply Hl; by right).
  destruct (decide (P1 x)) as [H1|H1], (decide (P2 x)) as [H2|H2];
    try done; exfalso; apply (Hl x) in H1 || apply (Hl x) in H2;
    by try left.
Qed.

(** X18: when the builder ends normally and the data validation of the
    result returns, it reports full coverage: no missing radical, as many
    radicals in the derived table as are used, and every word with at
    least two radicals composable. *)
Theorem validate_after_build G fs fs' rep :
  main G fs = (Ok (), fs') →
  Validate.main fs' = Ok rep →
  Validate.missing_radicals rep = ∅ ∧
  Validate.n_radicals rep = size (Validate.used_radicals rep) ∧
  Validate.composable_words rep
  = filter (λ wd, (2 ≤ length (Validate.radicals wd))%nat)
      (Validate.all_words rep).
Proof.
  intros (t & u & lk & Hload & Hextract & ->)%main_Ok Hrep.
  destruct radicals_path_fresh as [_ Hfresh].
  set (derived := sort_radicals (build_custom_radicals G t u lk)) in *.
  set (fs' := <[radicals_path := Rows (row_of_entry <$> derived)]> fs) in *.
  assert (fs' !! radicals_path = Some (Rows (row_of_entry <$> derived)))
    as Hwritten by apply lookup_insert_eq.
  assert (∀ level, level ∈ levels →
            fs' !! level_path level = fs !! level_path level) as Hsame.
  { intros level Hin. unfold fs'. apply lookup_insert_ne. by apply Hfresh. }
  pose proof Hrep as (known & Hknown & _ & Hn & Hall & Hcover & Hcompose & _)
                       %validate_main_Ok.
  pose proof Hknown as (rows & Hrows & Hkeys)%validate_load_radicals.
  assert (rows = row_of_entry <$> derived) as -> by congruence.
  assert (∀ g, is_Some (known !! g) ↔ g ∈ occ_rad <$> occurrences fs)
    as Hknown_iff.
  { intros g. rewrite Hkeys, <- occurrences_keys.
    rewrite <- (extract_usage _ _ _ Hextract).
    rewrite <- (build_custom_radicals_Radical G _ _ _ lk Hload).
    rewrite <- (sort_radicals_Permutation (build_custom_radicals G t u lk)).
    fold derived. rewrite list_elem_of_fmap. split.
    - intros (r & Hr & Hg). apply list_elem_of_fmap in Hr as (e & -> & He).
      exists e. split; [|done].
      change (Some (Entry.Radical e) = Some g) in Hg. congruence.
    - intros (e & -> & He). exists (row_of_entry e). split; [|done].
      apply list_elem_of_fmap. by exists e. }
  assert (∀ g, g ∈ (word_uses (Validate.all_words rep)).*2
               ↔ is_Some (known !! g)) as Hused_iff.
  { intros g. rewrite Hknown_iff, Hall, !list_elem_of_fmap. split.
    - intros ([w g'] & -> & Hin).
      apply elem_of_word_uses in Hin as (level & rs & r & Hl & Hfs & Hr & Hg).
      rewrite (Hsame level Hl) in Hfs.
      exists (Occ level (get r (py "Word") []) g'). split; [done|].
      apply elem_of_occurrences. split; [done|]. by exists rs, r.
    - intros (o & -> & Ho).
      apply elem_of_occurrences in Ho as (Hl & rs & r & Hfs & Hr & _ & Hg).
      rewrite <- (Hsame _ Hl) in Hfs. apply list_elem_of_fmap.
      by apply (word_uses_elem fs' (occ_level o) rs r). }
  rewrite cover_uses in Hcover.
  destruct (cover_fold known (word_uses (Validate.all_words rep)) ∅ ∅)
    as [Hused Hmissing].
  rewrite <- Hcover in Hused, Hmissing. cbn [fst snd] in Hused, Hmissing.
  rewrite (left_id_L ∅ (∪)) in Hused.
  destruct (compose_fold known (Validate.all_words rep) ∅ []) as [_ Hcomp].
  rewrite <- Hcompose in Hcomp. cbn [fst snd app] in Hcomp.
  split_and!.
  - apply map_eq. intros g. rewrite Hmissing, !lookup_empty.
    destruct (known !! g) as [k|] eqn:Hg; [done|].
    destruct (filter _ _).*1 as [|w ws] eqn:E; [done|]. exfalso.
    assert (w ∈ (filter (λ p, p.2 = g)
                   (word_uses (Validate.all_words rep))).*1) as Hw
      by (rewrite E; left).
    apply list_elem_of_fmap in Hw as ([w' r] & _ & Hf).
    apply list_elem_of_filter in Hf as [Hr Hin]. cbn in Hr. subst.
    assert (is_Some (known !! g)) as [? ?]; [|congruence].
    apply Hused_iff, list_elem_of_fmap. by exists (w', g).
  - rewrite Hn, Hused, <- size_dom. f_equal. apply set_eq. intros g.
    by rewrite elem_of_dom, elem_of_list_to_set, Hused_iff.
  - rewrite Hcomp. apply list_filter_iff_elem. intros wd Hwd.
    split; [by intros [? _]|]. intros H2. split; [done|].
    apply Forall_forall. intros r Hr. apply Hused_iff.
    apply list_elem_of_fmap. exists (Validate.word wd, r). split; [done|].
    unfold word_uses. apply list_elem_of_bind. exists wd. split; [|done].
    apply list_elem_of_fmap. by exists r.
Qed.

Lemma validate_after_build_witness :
  ∃ rep,
    Validate.main (main module_globals three_level_fs).2 = Ok rep ∧
    Validate.missing_radicals rep = ∅ ∧
    Validate.n_radicals rep = size (Validate.used_radicals rep) ∧
    Validate.composable_words rep
    = filter (λ wd, (2 ≤ length (Validate.radicals wd))%nat)
        (Validate.all_words rep).
Proof.
  assert (∃ rep, Validate.main (main module_globals three_level_fs).2
                 = Ok rep) as [rep Hrep].
  { eexists. vm_compute. reflexivity. }
  exists rep. split; [exact Hrep|].
  apply (validate_after_build module_globals three_level_fs
           (main module_globals three_level_fs).2 rep); [|exact Hrep].
  vm_compute. reflexivity.
Defined.
